(** * The RPC client of pinus-rpc (lib/rpc-client/client.ts)

    A shallow embedding of the client orchestration layer: the client object
    and its state field, the options object it shares with its caller, the
    proxy registry, and the callback-passing control flow of [start], [stop],
    [rpcInvoke], [proxyCB], [getRouteTarget], [rpcToSpecifiedServer] and
    [insertProxy].

    JavaScript functions are written as effect trees ([Eff]): every read or
    write of the client object, every logger call, every call into the mail
    station (the transport), the routers or a caller-supplied callback is a
    node of the tree, in program order.  [exec] runs a tree on a [Machine].
    A callback handed to the station or to a router is not run by [exec]: it
    is kept in the machine as an outstanding callback, and runs when the
    environment answers ([reply]), at most once.  *)

From Stdlib Require Import ZArith Lia.
From stdpp Require Import base option list strings gmap fin_maps.

Set Default Proof Using "Type".
Set Warnings "-register-all".

(** ** JavaScript values *)

Inductive jsval : Type :=
| JUndefined
| JNull
| JBool (b : bool)
| JNum (n : Z)
| JStr (s : string)
| JError (message : string)
| JFun (name : string)
| JObj (props : list (string * jsval))
| JPromise (p : nat).

(** ToBoolean. *)
Definition truthy (v : jsval) : bool :=
  match v with
  | JUndefined | JNull => false
  | JBool b => b
  | JNum n => negb (n =? 0)%Z
  | JStr s => negb (String.eqb s "")
  | JError _ | JFun _ | JObj _ | JPromise _ => true
  end.

Definition typeof (v : jsval) : string :=
  match v with
  | JUndefined => "undefined"
  | JBool _ => "boolean"
  | JNum _ => "number"
  | JStr _ => "string"
  | JFun _ => "function"
  | JNull | JError _ | JObj _ | JPromise _ => "object"
  end.

Fixpoint assoc (name : string) (props : list (string * jsval)) : jsval :=
  match props with
  | [] => JUndefined
  | (k, v) :: rest => if String.eqb k name then v else assoc name rest
  end.

(** [v.name] for a value [v] that is neither [undefined] nor [null]; the
    client only reads properties behind a truthiness test. *)
Definition get_prop (v : jsval) (name : string) : jsval :=
  match v with
  | JObj props => assoc name props
  | _ => JUndefined
  end.

(** [a || b] *)
Definition js_or (a b : jsval) : jsval := if truthy a then a else b.

(** ** Data of the client *)

(** Client states *)
Definition STATE_INITED : Z := 1.
Definition STATE_STARTED : Z := 2.
Definition STATE_CLOSED : Z := 3.

Record RpcServerInfo := {
  srv_id : string;
  srv_serverType : string
}.

Record RouteContext := {
  getServersByType : string -> option (list RpcServerInfo)
}.

Definition loc := nat.

Record RpcClientOpts := {
  o_context : jsval;
  o_routeContext : option RouteContext;
  o_router : jsval;
  o_routerType : jsval;
  o_rpcDebugLog : jsval;
  o_clientId : jsval;
  o_servers : jsval;
  o_mailboxFactory : jsval;
  o_rpcLogger : jsval;
  o_station : jsval;
  o_hashFieldIndex : jsval
}.

(** The object literal [{}]. *)
Definition empty_opts : RpcClientOpts :=
  {| o_context := JUndefined; o_routeContext := None; o_router := JUndefined;
     o_routerType := JUndefined; o_rpcDebugLog := JUndefined;
     o_clientId := JUndefined; o_servers := JUndefined;
     o_mailboxFactory := JUndefined; o_rpcLogger := JUndefined;
     o_station := JUndefined; o_hashFieldIndex := JUndefined |}.

(** [opts.clientId = v] *)
Definition set_clientId (v : jsval) (o : RpcClientOpts) : RpcClientOpts :=
  {| o_context := o_context o; o_routeContext := o_routeContext o;
     o_router := o_router o; o_routerType := o_routerType o;
     o_rpcDebugLog := o_rpcDebugLog o; o_clientId := v;
     o_servers := o_servers o; o_mailboxFactory := o_mailboxFactory o;
     o_rpcLogger := o_rpcLogger o; o_station := o_station o;
     o_hashFieldIndex := o_hashFieldIndex o |}.

Record RpcMsg := {
  namespace : string;
  serverType : string;
  service : string;
  method : string;
  args : list jsval
}.

(** The proxy description record {namespace, serverType, path}. *)
Record RemoteServerCode := {
  rec_namespace : string;
  rec_serverType : string;
  rec_path : string
}.

(** namespace -> serverType -> attr -> proxy *)
Abbreviation Proxies := (gmap string (gmap string (gmap string jsval))).

Record RpcClient := {
  _context : jsval;
  _routeContext : option RouteContext;
  router : jsval;
  routerType : jsval;
  rpcDebugLog : jsval;
  opts : loc;
  proxies : Proxies;
  state : Z
}.

(** What [new Tracer(logger, enabled, source, remote, msg)] is given. *)
Record Tracer := {
  tr_logger : jsval;
  tr_enabled : jsval;
  tr_source : jsval;
  tr_remote : jsval;
  tr_msg : RpcMsg
}.

(** The argument of [Proxy.create]; its [proxyCB] field is [proxyCB] bound to
    the client. *)
Record ProxyOpts := {
  po_service : string;
  po_origin : jsval;
  po_attach : RemoteServerCode
}.

(** What the client imports from modules that are not part of the client:
    the four scheduling constants of util/constants, the service loader
    (Loader.load, which returns the modules found under a path, or nothing)
    and the proxy factory of util/proxy. *)
Record Externals := {
  SCHEDULE_ROUNDROBIN : string;
  SCHEDULE_WEIGHT_ROUNDROBIN : string;
  SCHEDULE_LEAST_ACTIVE : string;
  SCHEDULE_CONSISTENT_HASH : string;
  Loader_load : string -> jsval -> option (gmap string jsval);
  Proxy_create : ProxyOpts -> jsval
}.

(** The built-in routers of rpc-client/router; [df] is the default custom
    router. *)
Inductive BuiltinRouter := router_rr | router_wrr | router_la | router_ch | router_rd.

Definition router_df : jsval := JFun "router.df".

Inductive Level := lvl_info | lvl_warn | lvl_error.

(** ** Effect trees *)

Inductive Eff : Type :=
| Ret (v : jsval)
| Throw (e : jsval)
(* the client object *)
| GetThis (k : RpcClient -> Eff)
| SetState (s : Z) (k : Eff)
| SetProxies (p : Proxies) (k : Eff)
| GetOpts (l : loc) (k : RpcClientOpts -> Eff)
(* logger and tracer *)
| Logger (lvl : Level) (text : string) (params : list jsval) (k : Eff)
| Trace (lvl : Level) (t : Tracer) (role module_ method_ des : string) (k : Eff)
(* the mail station *)
| StationStart (cb : jsval -> Eff) (k : Eff)
| StationOn (event : string) (k : Eff)
| StationStop (force : bool) (k : Eff)
| StationDispatch (tracer : option Tracer) (serverId : jsval) (msg : RpcMsg)
    (o : loc) (cb : jsval -> jsval -> Eff) (k : Eff)
| StationCall (name : string) (params : list jsval) (k : Eff)
(* routers: a built-in strategy, or a custom routing function *)
| RouterCall (method_ : BuiltinRouter) (serverType_ : string) (msg : RpcMsg)
    (cb : jsval -> jsval -> Eff) (k : Eff)
| RouteCall (route target routeParam : jsval) (msg : RpcMsg)
    (routeContext : option RouteContext) (cb : jsval -> jsval -> Eff) (k : Eff)
(* a function value supplied by the caller *)
| Call (f : jsval) (params : list jsval) (k : Eff)
(* promises *)
| NewPromise (executor : nat -> Eff) (k : nat -> Eff)
| Resolve (p : nat) (v : jsval) (k : Eff)
| Reject (p : nat) (v : jsval) (k : Eff)
| PromiseReject (e : jsval) (k : nat -> Eff)
(* the counters of one async.each *)
| EachNew (k : nat -> Eff)
| EachCompleted (g : nat) (k : nat -> Eff)
| EachOnce (g : nat) (k : bool -> Eff).

Fixpoint bind (e : Eff) (f : jsval -> Eff) : Eff :=
  match e with
  | Ret v => f v
  | Throw x => Throw x
  | GetThis k => GetThis (fun c => bind (k c) f)
  | SetState s k => SetState s (bind k f)
  | SetProxies p k => SetProxies p (bind k f)
  | GetOpts l k => GetOpts l (fun o => bind (k o) f)
  | Logger lvl text params k => Logger lvl text params (bind k f)
  | Trace lvl t r mo me d k => Trace lvl t r mo me d (bind k f)
  | StationStart cb k => StationStart cb (bind k f)
  | StationOn ev k => StationOn ev (bind k f)
  | StationStop force k => StationStop force (bind k f)
  | StationDispatch t sid msg o cb k => StationDispatch t sid msg o cb (bind k f)
  | StationCall name params k => StationCall name params (bind k f)
  | RouterCall r st msg cb k => RouterCall r st msg cb (bind k f)
  | RouteCall r t rp msg rc cb k => RouteCall r t rp msg rc cb (bind k f)
  | Call g params k => Call g params (bind k f)
  | NewPromise ex k => NewPromise ex (fun p => bind (k p) f)
  | Resolve p v k => Resolve p v (bind k f)
  | Reject p v k => Reject p v (bind k f)
  | PromiseReject x k => PromiseReject x (fun p => bind (k p) f)
  | EachNew k => EachNew (fun g => bind (k g) f)
  | EachCompleted g k => EachCompleted g (fun n => bind (k n) f)
  | EachOnce g k => EachOnce g (fun b => bind (k b) f)
  end.

(** [e1; e2] *)
Declare Scope eff_scope.
Delimit Scope eff_scope with eff.
Bind Scope eff_scope with Eff.
Notation "e1 ;; e2" := (bind e1 (fun _ => e2))
  (at level 100, e2 at level 200, right associativity) : eff_scope.

(** The end of a function body without a return value. *)
Abbreviation done_ := (Ret JUndefined).

Fixpoint foreach {A : Type} (l : list A) (body : A -> Eff) : Eff :=
  match l with
  | [] => done_
  | x :: rest => (body x ;; foreach rest body)%eff
  end.

(** ** Machines *)

Inductive PromiseState :=
| Pending
| Fulfilled (v : jsval)
| Rejected (e : jsval).

(** What the outside world has been asked and has not answered yet. *)
Inductive Asked :=
| AskStart
| AskDispatch (serverId : jsval) (msg : RpcMsg)
| AskRoute.

Record Outstanding := {
  asked : Asked;
  callback : jsval -> jsval -> Eff
}.

(** What the client does to the outside world.  The call of the station's
    stop records [seen], the state the client is in when the call is made. *)
Inductive Event :=
| EvCreateMailStation (o : loc)
| EvLogger (lvl : Level) (text : string) (params : list jsval)
| EvTrace (lvl : Level) (t : Tracer) (role module_ method_ des : string)
| EvStationStart
| EvStationOn (event : string)
| EvStationStop (force : bool) (seen : Z)
| EvStationDispatch (tracer : option Tracer) (serverId : jsval) (msg : RpcMsg) (o : loc)
| EvStationCall (name : string) (params : list jsval)
| EvRouterCall (method_ : BuiltinRouter) (serverType_ : string) (msg : RpcMsg)
| EvRouteCall (route target routeParam : jsval) (msg : RpcMsg)
| EvCall (f : jsval) (params : list jsval).

(** The counters of one running async.each: how many iteratees have completed,
    and whether the final callback has been called already. *)
Record EachState := {
  completed : nat;
  called : bool
}.

Record Machine := {
  this : RpcClient;
  heap : gmap loc RpcClientOpts;
  promises : list PromiseState;
  eaches : list EachState;
  outstanding : list (option Outstanding);
  trace : list Event
}.

Inductive Completion :=
| Normal (v : jsval)
| Abrupt (e : jsval).

Definition set_this (c : RpcClient) (m : Machine) : Machine :=
  {| this := c; heap := heap m; promises := promises m; eaches := eaches m;
     outstanding := outstanding m; trace := trace m |}.

Definition set_state (s : Z) (m : Machine) : Machine :=
  set_this {| _context := _context (this m); _routeContext := _routeContext (this m);
              router := router (this m); routerType := routerType (this m);
              rpcDebugLog := rpcDebugLog (this m); opts := opts (this m);
              proxies := proxies (this m); state := s |} m.

Definition set_proxies (p : Proxies) (m : Machine) : Machine :=
  set_this {| _context := _context (this m); _routeContext := _routeContext (this m);
              router := router (this m); routerType := routerType (this m);
              rpcDebugLog := rpcDebugLog (this m); opts := opts (this m);
              proxies := p; state := state (this m) |} m.

Definition emit (ev : Event) (m : Machine) : Machine :=
  {| this := this m; heap := heap m; promises := promises m; eaches := eaches m;
     outstanding := outstanding m; trace := trace m ++ [ev] |}.

Definition set_outstanding (o : list (option Outstanding)) (m : Machine) : Machine :=
  {| this := this m; heap := heap m; promises := promises m; eaches := eaches m;
     outstanding := o; trace := trace m |}.

Definition defer (a : Asked) (cb : jsval -> jsval -> Eff) (m : Machine) : Machine :=
  set_outstanding (outstanding m ++ [Some {| asked := a; callback := cb |}]) m.

Definition set_promises (ps : list PromiseState) (m : Machine) : Machine :=
  {| this := this m; heap := heap m; promises := ps; eaches := eaches m;
     outstanding := outstanding m; trace := trace m |}.

Definition set_eaches (es : list EachState) (m : Machine) : Machine :=
  {| this := this m; heap := heap m; promises := promises m; eaches := es;
     outstanding := outstanding m; trace := trace m |}.

(** A promise is settled once: later calls of resolve or reject do nothing. *)
Definition settle (p : nat) (s : PromiseState) (m : Machine) : Machine :=
  match promises m !! p with
  | Some Pending => set_promises (<[p := s]> (promises m)) m
  | _ => m
  end.

Definition type_error : jsval := JError "TypeError".

Fixpoint exec (e : Eff) (m : Machine) : Machine * Completion :=
  match e with
  | Ret v => (m, Normal v)
  | Throw x => (m, Abrupt x)
  | GetThis k => exec (k (this m)) m
  | SetState s k => exec k (set_state s m)
  | SetProxies p k => exec k (set_proxies p m)
  | GetOpts l k =>
      match heap m !! l with
      | Some o => exec (k o) m
      | None => (m, Abrupt type_error)
      end
  | Logger lvl text params k => exec k (emit (EvLogger lvl text params) m)
  | Trace lvl t r mo me d k => exec k (emit (EvTrace lvl t r mo me d) m)
  | StationStart cb k =>
      exec k (defer AskStart (fun err _ => cb err) (emit EvStationStart m))
  | StationOn ev k => exec k (emit (EvStationOn ev) m)
  | StationStop force k => exec k (emit (EvStationStop force (state (this m))) m)
  | StationDispatch t sid msg o cb k =>
      exec k (defer (AskDispatch sid msg) cb (emit (EvStationDispatch t sid msg o) m))
  | StationCall name params k => exec k (emit (EvStationCall name params) m)
  | RouterCall r st msg cb k =>
      exec k (defer AskRoute cb (emit (EvRouterCall r st msg) m))
  | RouteCall r t rp msg rc cb k =>
      exec k (defer AskRoute cb (emit (EvRouteCall r t rp msg) m))
  | Call f params k => exec k (emit (EvCall f params) m)
  | NewPromise executor k =>
      let p := length (promises m) in
      let '(m1, c) := exec (executor p) (set_promises (promises m ++ [Pending]) m) in
      exec (k p) match c with
                 | Normal _ => m1
                 | Abrupt x => settle p (Rejected x) m1
                 end
  | Resolve p v k => exec k (settle p (Fulfilled v) m)
  | Reject p v k => exec k (settle p (Rejected v) m)
  | PromiseReject x k =>
      exec (k (length (promises m))) (set_promises (promises m ++ [Rejected x]) m)
  | EachNew k =>
      exec (k (length (eaches m)))
           (set_eaches (eaches m ++ [{| completed := 0; called := false |}]) m)
  | EachCompleted g k =>
      match eaches m !! g with
      | Some st =>
          exec (k (S (completed st)))
               (set_eaches (<[g := {| completed := S (completed st); called := called st |}]>
                              (eaches m)) m)
      | None => (m, Abrupt type_error)
      end
  | EachOnce g k =>
      match eaches m !! g with
      | Some st =>
          exec (k (called st))
               (set_eaches (<[g := {| completed := completed st; called := true |}]>
                              (eaches m)) m)
      | None => (m, Abrupt type_error)
      end
  end.

(** The environment answers outstanding request [i] by calling its callback
    with [(a, b)].  A callback is called at most once. *)
Definition reply (i : nat) (a b : jsval) (m : Machine) : Machine :=
  match outstanding m !! i with
  | Some (Some o) =>
      (exec (callback o a b) (set_outstanding (<[i := None]> (outstanding m)) m)).1
  | _ => m
  end.

(** ** The client *)

Definition is_nullish (v : jsval) : bool :=
  match v with
  | JUndefined | JNull => true
  | _ => false
  end.

(** [v === s] for a string literal or string constant [s] *)
Definition strict_eq_str (v : jsval) (s : string) : bool :=
  match v with
  | JStr t => String.eqb t s
  | _ => false
  end.

Definition filename_ : string := "client".

(** [new RpcClient(opts)], run in a store [h] of options objects: [opts] is
    the reference the caller passes, if any.  The client keeps that very
    reference in [this.opts]. *)
Definition RpcClient_new (h : gmap loc RpcClientOpts) (opts_ : option loc) : Machine :=
  let l := match opts_ with
           | Some l => l
           | None => fresh (dom h)
           end in
  let h1 := match opts_ with
            | Some _ => h
            | None => <[l := empty_opts]> h
            end in
  let o := default empty_opts (h1 !! l) in
  let context_ := o_context o in
  let h2 := if truthy context_
            then <[l := set_clientId (get_prop context_ "serverId") o]> h1
            else h1 in
  {| this := {| _context := context_;
                _routeContext := o_routeContext o;
                router := js_or (o_router o) router_df;
                routerType := o_routerType o;
                rpcDebugLog := o_rpcDebugLog o;
                opts := l;
                proxies := ∅;
                state := STATE_INITED |};
     heap := h2;
     promises := [];
     eaches := [];
     outstanding := [];
     trace := [EvCreateMailStation l] |}.

(** The callback that [start] hands to the station's start. *)
Definition start_callback (cb : jsval) (err : jsval) : Eff :=
  if truthy err then
    Logger lvl_error "[pinus-rpc] client start fail for " [get_prop err "stack"]
      (Call cb [err] done_)
  else
    StationOn "error"
      (SetState STATE_STARTED
         (Call cb [] done_)).

Definition start (cb : jsval) : Eff :=
  GetThis (fun self =>
    if (STATE_INITED <? state self)%Z then
      Call cb [JError "rpc client has started."] done_
    else
      StationStart (start_callback cb) done_).

Definition stop (force : bool) : Eff :=
  GetThis (fun self =>
    if negb (state self =? STATE_STARTED)%Z then
      Logger lvl_warn "[pinus-rpc] client is not running now." [] done_
    else
      SetState STATE_CLOSED
        (StationStop force done_)).

(** [for (let attr in proxy) entry[attr] = proxy[attr]] *)
Definition assign_attrs (entry proxy : gmap string jsval) : gmap string jsval :=
  foldr (fun '(attr, v) acc => <[attr := v]> acc) entry (map_to_list proxy).

Definition insertProxy (proxies_ : Proxies) (namespace_ serverType_ : string)
    (proxy : gmap string jsval) : Proxies :=
  let by_type := default ∅ (proxies_ !! namespace_) in
  match by_type !! serverType_ with
  | Some entry =>
      <[namespace_ := <[serverType_ := assign_attrs entry proxy]> by_type]> proxies_
  | None =>
      <[namespace_ := <[serverType_ := proxy]> by_type]> proxies_
  end.

Definition generateProxy (X : Externals) (record : option RemoteServerCode)
    (context_ : jsval) : option (gmap string jsval) :=
  match record with
  | None => None
  | Some r =>
      match Loader_load X (rec_path r) context_ with
      | Some modules =>
          Some (map_imap (fun name origin =>
                  Some (Proxy_create X {| po_service := name;
                                          po_origin := origin;
                                          po_attach := r |})) modules)
      | None => None
      end
  end.

Definition addProxy (X : Externals) (record : option RemoteServerCode) : Eff :=
  match record with
  | None => done_
  | Some r =>
      GetThis (fun self =>
        match generateProxy X record (_context self) with
        | None => done_
        | Some proxy =>
            SetProxies (insertProxy (proxies self) (rec_namespace r) (rec_serverType r) proxy)
              done_
        end)
  end.

Definition addProxies (X : Externals) (records : option (list (option RemoteServerCode))) : Eff :=
  match records with
  | None | Some [] => done_
  | Some rs => foreach rs (addProxy X)
  end.

Definition addServer (server : jsval) : Eff := StationCall "addServer" [server] done_.
Definition addServers (servers : jsval) : Eff := StationCall "addServers" [servers] done_.
Definition removeServer (id_ : jsval) : Eff := StationCall "removeServer" [id_] done_.
Definition removeServers (ids : jsval) : Eff := StationCall "removeServers" [ids] done_.
Definition replaceServers (servers : jsval) : Eff := StationCall "replaceServers" [servers] done_.
Definition before (filter_ : jsval) : Eff := StationCall "before" [filter_] done_.
Definition after (filter_ : jsval) : Eff := StationCall "after" [filter_] done_.
Definition filter (filter_ : jsval) : Eff := StationCall "filter" [filter_] done_.
Definition setErrorHandler (handler : jsval) : Eff := StationCall "handleError=" [handler] done_.

Definition rpcInvoke (serverId : jsval) (msg : RpcMsg) (cb : jsval -> jsval -> Eff) : Eff :=
  GetThis (fun self =>
    let rpcDebugLog_ := rpcDebugLog self in
    let rest (tracer : option Tracer) : Eff :=
      if negb (state self =? STATE_STARTED)%Z then
        let log_and_fail :=
          Logger lvl_error "[pinus-rpc] fail to do rpc invoke for client is not running" []
            (cb (JError "[pinus-rpc] fail to do rpc invoke for client is not running") JUndefined ;;
             done_)%eff in
        match tracer with
        | Some t => Trace lvl_error t "client" filename_ "rpcInvoke"
                      "fail to do rpc invoke for client is not running" log_and_fail
        | None => log_and_fail
        end
      else
        StationDispatch tracer serverId msg (opts self) cb done_ in
    if truthy rpcDebugLog_ then
      GetOpts (opts self) (fun o =>
        let tracer := {| tr_logger := o_rpcLogger o; tr_enabled := o_rpcDebugLog o;
                         tr_source := o_clientId o; tr_remote := serverId;
                         tr_msg := msg |} in
        Trace lvl_info tracer "client" filename_ "rpcInvoke" "the entrance of rpc invoke"
          (rest (Some tracer)))
    else rest None).

(** [async.each(coll, iteratee, callback)] of the async package, on an array:
    the iteratee is started on every item in order; the final callback is
    called once, with the first error an iteratee reports, or with null when
    every iteratee has completed (at once for an empty array).  [g] names the
    counters of this call: [completed] and the flag of [once(callback)]. *)
Definition once_callback (g : nat) (callback_ : jsval -> Eff) (err : jsval) : Eff :=
  EachOnce g (fun was_called => if was_called then done_ else callback_ err).

Definition iteratorCallback (g length_ : nat) (callback_ : jsval -> Eff) (err : jsval) : Eff :=
  if truthy err then once_callback g callback_ err
  else EachCompleted g (fun n =>
         if (n =? length_)%nat then once_callback g callback_ JNull else done_).

Definition async_each {A : Type} (coll : list A)
    (iteratee : A -> (jsval -> Eff) -> Eff) (callback_ : jsval -> Eff) : Eff :=
  EachNew (fun g =>
    ((if (length coll =? 0)%nat then once_callback g callback_ JNull else done_) ;;
     foreach coll (fun x => iteratee x (iteratorCallback g (length coll) callback_)))%eff).

Definition select_router (X : Externals) (routerType_ : jsval) : BuiltinRouter :=
  if strict_eq_str routerType_ (SCHEDULE_ROUNDROBIN X) then router_rr
  else if strict_eq_str routerType_ (SCHEDULE_WEIGHT_ROUNDROBIN X) then router_wrr
  else if strict_eq_str routerType_ (SCHEDULE_LEAST_ACTIVE X) then router_la
  else if strict_eq_str routerType_ (SCHEDULE_CONSISTENT_HASH X) then router_ch
  else router_rd.

Definition getRouteTarget (X : Externals) (serverType_ : string) (msg : RpcMsg)
    (routeParam : jsval) (cb : jsval -> jsval -> Eff) : Eff :=
  GetThis (fun client =>
    if truthy (routerType client) then
      let method_ := select_router X (routerType client) in
      RouterCall method_ serverType_ msg (fun err serverId => cb err serverId) done_
    else
      if String.eqb (typeof (router client)) "function" then
        RouteCall (router client) JNull routeParam msg (_routeContext client)
          (fun err serverId => cb err serverId) done_
      else if String.eqb (typeof (get_prop (router client) "route")) "function" then
        RouteCall (get_prop (router client) "route") (router client) routeParam msg
          (_routeContext client) (fun err serverId => cb err serverId) done_
      else
        Logger lvl_error "[pinus-rpc] invalid route function." [] done_).

Definition rpcToSpecifiedServer (msg : RpcMsg) (serverType_ : string) (serverId : jsval)
    (cb : jsval -> jsval -> Eff) : Eff :=
  if negb (String.eqb (typeof serverId) "string") then
    Logger lvl_error "[pinus-rpc] serverId is not a string : %s" [serverId] done_
  else if strict_eq_str serverId "*" then
    GetThis (fun client =>
      match _routeContext client with
      | None => Throw type_error
      | Some rc =>
          match getServersByType rc serverType_ with
          | None =>
              Logger lvl_error "[pinus-rpc] serverType %s servers not exist" [JStr serverType_]
                done_
          | Some servers_ =>
              async_each servers_
                (fun server next =>
                   let serverId := JStr (srv_id server) in
                   rpcInvoke serverId msg (fun err _ => next err))
                (fun err => cb err JUndefined)
          end
      end)
  else
    rpcInvoke serverId msg cb.

Definition proxyCB (X : Externals) (serviceName methodName : string) (args_ : list jsval)
    (attach : RemoteServerCode) (isToSpecifiedServer : bool) : Eff :=
  GetThis (fun client =>
    if negb (state client =? STATE_STARTED)%Z then
      PromiseReject (JError "[pinus-rpc] fail to invoke rpc proxy for client is not running")
        (fun _ => done_)
    else if (length args_ <? 2)%nat then
      Logger lvl_error
        "[pinus-rpc] invalid rpc invoke, arguments length less than 2, namespace: %j, serverType, %j, serviceName: %j, methodName: %j"
        [JStr (rec_namespace attach); JStr (rec_serverType attach); JStr serviceName;
         JStr methodName]
        (PromiseReject (JError "[pinus-rpc] invalid rpc invoke, arguments length less than 2")
           (fun _ => done_))
    else
      let routeParam := hd JUndefined args_ in
      let serverType_ := rec_serverType attach in
      let msg := {| namespace := rec_namespace attach;
                    serverType := serverType_;
                    service := serviceName;
                    method := methodName;
                    args := tl args_ |} in
      NewPromise (fun p =>
        let resolve (v : jsval) : Eff := Resolve p v done_ in
        let reject (v : jsval) : Eff := Reject p v done_ in
        if isToSpecifiedServer then
          rpcToSpecifiedServer msg serverType_ routeParam (fun err _ => resolve err)
        else
          getRouteTarget X serverType_ msg routeParam (fun err serverId =>
            if truthy err then resolve err
            else
              rpcInvoke serverId msg (fun err resp =>
                if negb (is_nullish err) then reject err else resolve resp)))
      (fun p => Ret (JPromise p))).

(** ** The client in its environment *)

(** What can happen to a client: its owner calls a public operation or a
    method of a generated proxy, or the environment answers an outstanding
    request. *)
Inductive Op :=
| op_start (cb : jsval)
| op_stop (force : bool)
| op_addProxy (record : option RemoteServerCode)
| op_addProxies (records : option (list (option RemoteServerCode)))
| op_addServer (server : jsval)
| op_addServers (servers_ : jsval)
| op_removeServer (id_ : jsval)
| op_removeServers (ids : jsval)
| op_replaceServers (servers_ : jsval)
| op_rpcInvoke (serverId : jsval) (msg : RpcMsg) (cb : jsval)
| op_before (filter_ : jsval)
| op_after (filter_ : jsval)
| op_filter (filter_ : jsval)
| op_setErrorHandler (handler : jsval)
| op_proxy (serviceName methodName : string) (args_ : list jsval)
    (attach : RemoteServerCode) (isToSpecifiedServer : bool)
| op_reply (i : nat) (a b : jsval).

(** A caller-supplied callback [f], as a callback of the client. *)
Definition user_cb (f : jsval) : jsval -> jsval -> Eff :=
  fun err resp => Call f [err; resp] done_.

(** The body of a public operation. *)
Definition body (X : Externals) (op : Op) : option Eff :=
  match op with
  | op_start cb => Some (start cb)
  | op_stop force => Some (stop force)
  | op_addProxy record => Some (addProxy X record)
  | op_addProxies records => Some (addProxies X records)
  | op_addServer server => Some (addServer server)
  | op_addServers servers_ => Some (addServers servers_)
  | op_removeServer id_ => Some (removeServer id_)
  | op_removeServers ids => Some (removeServers ids)
  | op_replaceServers servers_ => Some (replaceServers servers_)
  | op_rpcInvoke serverId msg cb => Some (rpcInvoke serverId msg (user_cb cb))
  | op_before filter_ => Some (before filter_)
  | op_after filter_ => Some (after filter_)
  | op_filter filter_ => Some (filter filter_)
  | op_setErrorHandler handler => Some (setErrorHandler handler)
  | op_proxy serviceName methodName args_ attach isToSpecifiedServer =>
      Some (proxyCB X serviceName methodName args_ attach isToSpecifiedServer)
  | op_reply _ _ _ => None
  end.

Definition step (X : Externals) (op : Op) (m : Machine) : Machine :=
  match op with
  | op_reply i a b => reply i a b m
  | _ =>
      match body X op with
      | Some e => (exec e m).1
      | None => m
      end
  end.

Definition run (X : Externals) (ops : list Op) (m : Machine) : Machine :=
  foldl (fun m op => step X op m) m ops.

(** The states the client goes through during [ops], the first one included. *)
Fixpoint states (X : Externals) (ops : list Op) (m : Machine) : list Z :=
  state (this m) ::
  match ops with
  | [] => []
  | op :: rest => states X rest (step X op m)
  end.

(** ** Observations *)

Definition is_dispatch (ev : Event) : option (jsval * RpcMsg) :=
  match ev with
  | EvStationDispatch _ serverId msg _ => Some (serverId, msg)
  | _ => None
  end.

(** The calls of the station's dispatch, in order. *)
Definition dispatches (m : Machine) : list (jsval * RpcMsg) :=
  omap is_dispatch (trace m).

Definition is_station_start (ev : Event) : bool :=
  match ev with
  | EvStationStart => true
  | _ => false
  end.

Definition station_starts (m : Machine) : nat :=
  length (List.filter is_station_start (trace m)).

(** The registry entry of (namespace, serverType): attribute -> proxy; empty
    when the registry has none. *)
Definition registry_entry (m : Machine) (namespace_ serverType_ : string) : gmap string jsval :=
  default ∅ (proxies (this m) !! namespace_ ≫= (.!! serverType_)).

(** The attributes that [addProxy(record)] registers: one proxy per service
    that the loader finds under the record's path; none when it finds
    nothing. *)
Definition generated (X : Externals) (record : RemoteServerCode) (context_ : jsval)
    : gmap string jsval :=
  default ∅ (generateProxy X (Some record) context_).

(** Method [method_] of service [service_] can be called through a registry
    entry: the entry has a proxy for the service, and the proxy has a function
    of that name. *)
Definition has_method (entry : gmap string jsval) (service_ method_ : string) : bool :=
  String.eqb (typeof (get_prop (default JUndefined (entry !! service_)) method_)) "function".

(** C9 as the specification words it: no method that can be called through
    the entry after addProxy(r1) is removed by addProxy(r2). *)
Definition methods_kept (X : Externals) (m : Machine) (r1 r2 : RemoteServerCode) : Prop :=
  let m1 := (exec (addProxy X (Some r1)) m).1 in
  let m2 := (exec (addProxy X (Some r2)) m1).1 in
  ∀ service_ method_,
    has_method (registry_entry m1 (rec_namespace r1) (rec_serverType r1)) service_ method_
    = true →
    has_method (registry_entry m2 (rec_namespace r1) (rec_serverType r1)) service_ method_
    = true.

(** A promise that has been resolved or rejected. *)
Definition settled (m : Machine) (p : nat) : Prop :=
  ∃ s, promises m !! p = Some s ∧ s ≠ Pending.

(** The machines a client can be in: constructed, from no options or from the
    reference of an options object in the store, then operated. *)
Definition reachable (X : Externals) (m : Machine) : Prop :=
  ∃ h opts_ ops,
    (∀ l, opts_ = Some l → is_Some (h !! l)) ∧ m = run X ops (RpcClient_new h opts_).

(** The outcome of a broadcast over [n] servers after the individual
    invocations have reported [errs], in this order: the first error, or null
    once all [n] have reported without error. *)
Definition aggregate (n : nat) (errs : list jsval) : PromiseState :=
  match List.find truthy errs with
  | Some e => Fulfilled e
  | None => if (n <=? length errs)%nat then Fulfilled JNull else Pending
  end.

(** [e] neither resolves nor rejects promise [p]. *)
Fixpoint quiet (p : nat) (e : Eff) : Prop :=
  match e with
  | Ret _ | Throw _ => True
  | GetThis k => ∀ c, quiet p (k c)
  | SetState _ k | SetProxies _ k => quiet p k
  | GetOpts _ k => ∀ o, quiet p (k o)
  | Logger _ _ _ k | Trace _ _ _ _ _ _ k => quiet p k
  | StationStart cb k => (∀ a, quiet p (cb a)) ∧ quiet p k
  | StationOn _ k | StationStop _ k | StationCall _ _ k | Call _ _ k => quiet p k
  | StationDispatch _ _ _ _ cb k | RouterCall _ _ _ cb k | RouteCall _ _ _ _ _ cb k =>
      (∀ a b, quiet p (cb a b)) ∧ quiet p k
  | NewPromise ex k => ∀ q, q ≠ p → quiet p (ex q) ∧ quiet p (k q)
  | Resolve q _ k | Reject q _ k => q ≠ p ∧ quiet p k
  | PromiseReject _ k => ∀ q, q ≠ p → quiet p (k q)
  | EachNew k | EachCompleted _ k => ∀ n, quiet p (k n)
  | EachOnce _ k => ∀ b, quiet p (k b)
  end.

(** No outstanding callback settles promise [p]. *)
Definition undisturbed (p : nat) (m : Machine) : Prop :=
  ∀ i o, outstanding m !! i = Some (Some o) → ∀ a b, quiet p (callback o a b).

(** In a reachable machine the outstanding callbacks settle only promises
    that exist already, and the options object of the client exists. *)
Definition consistent (m : Machine) : Prop :=
  (∀ p, length (promises m) ≤ p → undisturbed p m)
  ∧ is_Some (heap m !! opts (this m)).

(** What one running async.each knows: [completed], the flag of
    [once(callback)], and the promise its final callback resolves. *)
Definition EachView : Type := nat * bool * PromiseState.

(** The effect on that of one iteratee reporting [err], among [n] items. *)
Definition each_step (n : nat) (s : EachView) (err : jsval) : EachView :=
  let '(c, d, P) := s in
  let fulfil (v : jsval) : PromiseState :=
    match P with
    | Pending => Fulfilled v
    | _ => P
    end in
  if truthy err then (c, true, if d then P else fulfil err)
  else if (S c =? n)%nat then (S c, true, if d then P else fulfil JNull)
  else (S c, d, P).

Definition falsy (v : jsval) : bool := negb (truthy v).

Definition is_pending (s : PromiseState) : bool :=
  match s with
  | Pending => true
  | _ => false
  end.

(** The answer of the environment to the [i]-th of the requests that were
    made from position [base] on. *)
Definition answer (base : nat) (a : nat * jsval * jsval) : Op :=
  op_reply (base + a.1.1) a.1.2 a.2.

(** Induction on effect trees, with the names the proofs use. *)
Ltac eff_induction e :=
  induction e as
    [ v | x | k IH | s k IH | ps k IH | l k IH | lvl text params k IH
    | lvl t r mo me d k IH | cb IHcb k IH | ev k IH | force k IH
    | t sid msg o cb IHcb k IH | name params k IH | r st msg cb IHcb k IH
    | r t rp msg rc cb IHcb k IH | g params k IH | ex IHex k IH | q v k IH | q v k IH
    | x k IH | k IH | g k IH | g k IH ].

(** ** Sample inputs *)

Module Sample.

(** Four distinct scheduling constants, a loader that knows two paths, and
    a proxy factory that records the service it is given. *)
Definition X : Externals :=
  {| SCHEDULE_ROUNDROBIN := "rr";
     SCHEDULE_WEIGHT_ROUNDROBIN := "wrr";
     SCHEDULE_LEAST_ACTIVE := "la";
     SCHEDULE_CONSISTENT_HASH := "ch";
     Loader_load := fun path _ =>
       if String.eqb path "/app/servers/chat/remote"
       then Some {[ "chatRemote" := JObj [("add", JFun "add"); ("kick", JFun "kick")] ]}
       else if String.eqb path "/app/servers/chat/remote2"
       then Some {[ "roomRemote" := JObj [("open", JFun "open")] ]}
       else None;
     Proxy_create := fun o => JObj [("service", JStr (po_service o)); ("origin", po_origin o)] |}.

(** A proxy factory that makes one proxy function for every function of the
    module it is given, as the factory of util/proxy does. *)
Definition proxy_of (origin : jsval) : jsval :=
  match origin with
  | JObj props =>
      JObj (omap (fun kv => if String.eqb (typeof kv.2) "function"
                            then Some (kv.1, JFun ("proxy." ++ kv.1)) else None) props)
  | _ => JObj []
  end.

(** The same constants, with a loader under which the two paths both hold a
    service chatRemote, with different methods. *)
Definition X_same_service : Externals :=
  {| SCHEDULE_ROUNDROBIN := "rr";
     SCHEDULE_WEIGHT_ROUNDROBIN := "wrr";
     SCHEDULE_LEAST_ACTIVE := "la";
     SCHEDULE_CONSISTENT_HASH := "ch";
     Loader_load := fun path _ =>
       if String.eqb path "/app/servers/chat/remote"
       then Some {[ "chatRemote" := JObj [("add", JFun "add")] ]}
       else if String.eqb path "/app/servers/chat/remote2"
       then Some {[ "chatRemote" := JObj [("kick", JFun "kick")] ]}
       else None;
     Proxy_create := fun o => proxy_of (po_origin o) |}.

Definition cb1 : jsval := JFun "cb1".
Definition cb2 : jsval := JFun "cb2".

Definition chat : RemoteServerCode :=
  {| rec_namespace := "user"; rec_serverType := "chat"; rec_path := "/app/servers/chat/remote" |}.
Definition chat2 : RemoteServerCode :=
  {| rec_namespace := "user"; rec_serverType := "chat"; rec_path := "/app/servers/chat/remote2" |}.

(** A record whose server type the route context does not know. *)
Definition gate : RemoteServerCode :=
  {| rec_namespace := "user"; rec_serverType := "gate"; rec_path := "/app/servers/gate/remote" |}.

Definition chat_servers : list RpcServerInfo :=
  [ {| srv_id := "chat-1"; srv_serverType := "chat" |};
    {| srv_id := "chat-2"; srv_serverType := "chat" |};
    {| srv_id := "chat-3"; srv_serverType := "chat" |} ].

(** A route context that knows three chat servers and no other type. *)
Definition rc : RouteContext :=
  {| getServersByType := fun t => if String.eqb t "chat" then Some chat_servers else None |}.

Definition app : jsval := JObj [("serverId", JStr "connector-1")].

(** new RpcClient() *)
Definition fresh_client : Machine := RpcClient_new ∅ None.

(** A client constructed from {context: app, clientId: "mine", routeContext: rc},
    which the caller holds at location 7. *)
Definition opts7 : RpcClientOpts :=
  {| o_context := app; o_routeContext := Some rc; o_router := JUndefined;
     o_routerType := JUndefined; o_rpcDebugLog := JUndefined;
     o_clientId := JStr "mine"; o_servers := JUndefined;
     o_mailboxFactory := JUndefined; o_rpcLogger := JUndefined;
     o_station := JUndefined; o_hashFieldIndex := JUndefined |}.

Definition client7 : Machine := RpcClient_new {[ 7 := opts7 ]} (Some 7).

(** The same, started: start(cb1), then the station reports success. *)
Definition started_ops : list Op := [op_start cb1; op_reply 0 JUndefined JUndefined].
Definition started7 : Machine := run X started_ops client7.

(** A client whose custom router is an object without a route method. *)
Definition opts_bad_router : RpcClientOpts :=
  {| o_context := JUndefined; o_routeContext := Some rc;
     o_router := JObj [("name", JStr "mine")];
     o_routerType := JUndefined; o_rpcDebugLog := JUndefined;
     o_clientId := JUndefined; o_servers := JUndefined;
     o_mailboxFactory := JUndefined; o_rpcLogger := JUndefined;
     o_station := JUndefined; o_hashFieldIndex := JUndefined |}.

Definition started_bad_router : Machine :=
  run X started_ops (RpcClient_new {[ 0 := opts_bad_router ]} (Some 0)).

(** A client with routerType "wrr". *)
Definition opts_wrr : RpcClientOpts :=
  {| o_context := JUndefined; o_routeContext := Some rc; o_router := JUndefined;
     o_routerType := JStr "wrr"; o_rpcDebugLog := JBool true;
     o_clientId := JUndefined; o_servers := JUndefined;
     o_mailboxFactory := JUndefined; o_rpcLogger := JUndefined;
     o_station := JUndefined; o_hashFieldIndex := JUndefined |}.

Definition started_wrr : Machine :=
  run X started_ops (RpcClient_new {[ 0 := opts_wrr ]} (Some 0)).

Definition msg_add : RpcMsg :=
  {| namespace := "user"; serverType := "chat"; service := "chatRemote";
     method := "add"; args := [JFun "done"] |}.

(** Two start calls before the station has answered the first one; the
    station answers the first, the owner stops the client, the station answers
    the second. *)
Definition restart_ops : list Op :=
  [op_start cb1; op_start cb2; op_reply 0 JUndefined JUndefined; op_stop true;
   op_reply 1 JUndefined JUndefined].

End Sample.


(** ** More observations *)

Definition is_call (ev : Event) : option (jsval * list jsval) :=
  match ev with
  | EvCall f params => Some (f, params)
  | _ => None
  end.

(** The calls of caller-supplied callbacks, in order. *)
Definition calls (m : Machine) : list (jsval * list jsval) :=
  omap is_call (trace m).

Definition is_station_stop (ev : Event) : option bool :=
  match ev with
  | EvStationStop force _ => Some force
  | _ => None
  end.

(** The calls of the station's stop, in order, with their force flag. *)
Definition station_stops (m : Machine) : list bool :=
  omap is_station_stop (trace m).

(** The request that [start(cb)] leaves outstanding. *)
Definition start_request (cb : jsval) : Outstanding :=
  {| asked := AskStart; callback := fun err _ => start_callback cb err |}.

(** [e] and the callbacks it hands out neither write the state nor call the
    station's start. *)
Fixpoint inert (e : Eff) : Prop :=
  match e with
  | Ret _ | Throw _ => True
  | GetThis k => ∀ c, inert (k c)
  | SetState _ _ => False
  | SetProxies _ k => inert k
  | GetOpts _ k => ∀ o, inert (k o)
  | Logger _ _ _ k | Trace _ _ _ _ _ _ k => inert k
  | StationStart _ _ => False
  | StationOn _ k | StationStop _ k | StationCall _ _ k | Call _ _ k => inert k
  | StationDispatch _ _ _ _ cb k | RouterCall _ _ _ cb k | RouteCall _ _ _ _ _ cb k =>
      (∀ a b, inert (cb a b)) ∧ inert k
  | NewPromise ex k => ∀ q, inert (ex q) ∧ inert (k q)
  | Resolve _ _ k | Reject _ _ k => inert k
  | PromiseReject _ k => ∀ q, inert (k q)
  | EachNew k | EachCompleted _ k => ∀ n, inert (k n)
  | EachOnce _ k => ∀ b, inert (k b)
  end.

(** Every outstanding request is that of a start, or has an inert callback. *)
Definition tracked (m : Machine) : Prop :=
  ∀ i o, outstanding m !! i = Some (Some o) →
    (∃ cb, o = start_request cb) ∨ (∀ a b, inert (callback o a b)).

(** [e] does not call the station's dispatch while the client is not
    started.  [stopped] says whether the client is known not to be started
    where [e] begins: a read of the client may then rely on it, and a write
    of the state must keep it; a callback runs later and must be fine both
    ways.  The station's start is left to [start] alone. *)
Fixpoint guarded (stopped : bool) (e : Eff) : Prop :=
  match e with
  | Ret _ | Throw _ => True
  | GetThis k =>
      ∀ c, (stopped = true → state c ≠ STATE_STARTED) → guarded stopped (k c)
  | SetState s k => (stopped = true → s ≠ STATE_STARTED) ∧ guarded stopped k
  | SetProxies _ k => guarded stopped k
  | GetOpts _ k => ∀ o, guarded stopped (k o)
  | Logger _ _ _ k | Trace _ _ _ _ _ _ k => guarded stopped k
  | StationStart _ _ => False
  | StationOn _ k | StationStop _ k | StationCall _ _ k | Call _ _ k => guarded stopped k
  | StationDispatch _ _ _ _ cb k =>
      stopped = false ∧ (∀ a b, guarded true (cb a b) ∧ guarded false (cb a b))
      ∧ guarded stopped k
  | RouterCall _ _ _ cb k | RouteCall _ _ _ _ _ cb k =>
      (∀ a b, guarded true (cb a b) ∧ guarded false (cb a b)) ∧ guarded stopped k
  | NewPromise ex k => ∀ q, guarded stopped (ex q) ∧ guarded stopped (k q)
  | Resolve _ _ k | Reject _ _ k => guarded stopped k
  | PromiseReject _ k => ∀ q, guarded stopped (k q)
  | EachNew k | EachCompleted _ k => ∀ n, guarded stopped (k n)
  | EachOnce _ k => ∀ b, guarded stopped (k b)
  end.

(** Every outstanding request is that of a start, or has a callback that is
    guarded whenever it runs. *)
Definition all_guarded (m : Machine) : Prop :=
  ∀ i o, outstanding m !! i = Some (Some o) →
    (∃ cb, o = start_request cb)
    ∨ (∀ a b, guarded true (callback o a b) ∧ guarded false (callback o a b)).

(** What is fixed when the client is constructed. *)
Definition config (m : Machine)
    : jsval * option RouteContext * jsval * jsval * jsval * loc * gmap loc RpcClientOpts :=
  (_context (this m), _routeContext (this m), router (this m), routerType (this m),
   rpcDebugLog (this m), opts (this m), heap m).

(** The trace record that rpcInvoke creates when debug logging is on. *)
Definition tracer_of (o : RpcClientOpts) (serverId : jsval) (msg : RpcMsg) : Tracer :=
  {| tr_logger := o_rpcLogger o; tr_enabled := o_rpcDebugLog o; tr_source := o_clientId o;
     tr_remote := serverId; tr_msg := msg |}.

(** The message that a proxy call assembles: the routing key is taken off the
    arguments. *)
Definition message_of (serviceName methodName : string) (args_ : list jsval)
    (attach : RemoteServerCode) : RpcMsg :=
  {| namespace := rec_namespace attach;
     serverType := rec_serverType attach;
     service := serviceName;
     method := methodName;
     args := tl args_ |}.

(** The callbacks of a strategy-routed proxy call with promise [p]: the one
    it gives to rpcInvoke, and the one it gives to the router. *)
Definition invoke_callback (p : nat) : jsval -> jsval -> Eff :=
  fun err resp => if negb (is_nullish err) then Reject p err done_ else Resolve p resp done_.

Definition route_callback (p : nat) (msg : RpcMsg) : jsval -> jsval -> Eff :=
  fun err serverId =>
    if truthy err then Resolve p err done_
    else rpcInvoke serverId msg (invoke_callback p).

(** A client that getRouteTarget can route for: it has a routerType, or its
    router is a function, or an object with a route function. *)
Definition routable (c : RpcClient) : Prop :=
  truthy (routerType c) = true
  ∨ typeof (router c) = "function"
  ∨ typeof (get_prop (router c) "route") = "function".

Definition not_running : jsval :=
  JError "[pinus-rpc] fail to do rpc invoke for client is not running".

(** Several events, one after the other. *)
Definition emits (evs : list Event) (m : Machine) : Machine :=
  {| this := this m; heap := heap m; promises := promises m; eaches := eaches m;
     outstanding := outstanding m; trace := trace m ++ evs |}.

(** ** More sample inputs *)

Module Scenario.

(** A custom router that is an object with a route method. *)
Definition my_router : jsval := JObj [("name", JStr "mine"); ("route", JFun "myRoute")].

Definition opts_my_router : RpcClientOpts :=
  {| o_context := JUndefined; o_routeContext := Some Sample.rc; o_router := my_router;
     o_routerType := JUndefined; o_rpcDebugLog := JUndefined;
     o_clientId := JUndefined; o_servers := JUndefined;
     o_mailboxFactory := JUndefined; o_rpcLogger := JUndefined;
     o_station := JUndefined; o_hashFieldIndex := JUndefined |}.

Definition started_my_router : Machine :=
  run Sample.X Sample.started_ops (RpcClient_new {[ 0 := opts_my_router ]} (Some 0)).

(** new RpcClient(), started: no route context, the default router. *)
Definition started_plain : Machine :=
  run Sample.X Sample.started_ops Sample.fresh_client.

(** A client constructed from {context: app, clientId: "mine", rpcDebugLog:
    true, rpcLogger: a logger}, which the caller holds at location 3, started. *)
Definition opts_logged : RpcClientOpts :=
  {| o_context := Sample.app; o_routeContext := Some Sample.rc; o_router := JUndefined;
     o_routerType := JUndefined; o_rpcDebugLog := JBool true;
     o_clientId := JStr "mine"; o_servers := JUndefined;
     o_mailboxFactory := JUndefined;
     o_rpcLogger := JObj [("info", JFun "info"); ("error", JFun "error")];
     o_station := JUndefined; o_hashFieldIndex := JUndefined |}.

Definition started_logged : Machine :=
  run Sample.X Sample.started_ops (RpcClient_new {[ 3 := opts_logged ]} (Some 3)).

(** A client that is used before it is started, and whose start fails: a
    proxy registration, a direct invoke, a proxy call to one server, a start
    that the station answers with an error, a stop. *)
Definition busy_ops : list Op :=
  [op_addProxy (Some Sample.chat);
   op_rpcInvoke (JStr "chat-1") Sample.msg_add Sample.cb2;
   op_proxy "chatRemote" "add" [JStr "chat-1"; JFun "done"] Sample.chat true;
   op_start Sample.cb1;
   op_reply 0 (JError "ECONNREFUSED") JUndefined;
   op_stop false].

Definition busy_inited : Machine := run Sample.X busy_ops Sample.client7.

End Scenario.
(** * Properties *)

(** ** Running effect trees *)

Lemma exec_bind (e : Eff) (f : jsval -> Eff) (m : Machine) :
  exec (bind e f) m =
  match exec e m with
  | (m', Normal v) => exec (f v) m'
  | (m', Abrupt x) => (m', Abrupt x)
  end.
Proof.
  revert m. eff_induction e;
    intros m; simpl; auto.
  - destruct (heap m !! l); auto.
  - destruct (exec (ex (length (promises m))) _) as [m1 c]. apply IH.
  - destruct (eaches m !! g); auto.
  - destruct (eaches m !! g); auto.
Qed.

(** ** Lifecycle: start and stop *)

(** C6.  In state STARTED or CLOSED, start calls its callback with the
    already-started error and does nothing else: the station's start is not
    called, the state is unchanged.  In state INITED, start calls the
    station's start once; when the station then reports an error, the error
    is logged and passed to the callback of start, and the state is still
    INITED. *)
Theorem start_rejected_or_failed (m : Machine) (cb err b : jsval) :
  (state (this m) = STATE_STARTED ∨ state (this m) = STATE_CLOSED →
   exec (start cb) m
   = (emit (EvCall cb [JError "rpc client has started."]) m, Normal JUndefined)
   ∧ station_starts (exec (start cb) m).1 = station_starts m)
  ∧
  (state (this m) = STATE_INITED → truthy err = true →
   let m1 := (exec (start cb) m).1 in
   let m2 := reply (length (outstanding m)) err b m1 in
   station_starts m1 = S (station_starts m)
   ∧ state (this m1) = STATE_INITED
   ∧ state (this m2) = STATE_INITED
   ∧ trace m2 = trace m1
       ++ [EvLogger lvl_error "[pinus-rpc] client start fail for " [get_prop err "stack"];
           EvCall cb [err]]).
Proof.
  split.
  - intros Hst. unfold start. simpl.
    assert (Hlt : (STATE_INITED <? state (this m))%Z = true).
    { apply Z.ltb_lt. unfold STATE_INITED, STATE_STARTED, STATE_CLOSED in *. lia. }
    rewrite Hlt. simpl. split; [reflexivity|].
    unfold station_starts. simpl. rewrite List.filter_app. simpl.
    rewrite length_app. simpl. lia.
  - intros Hst Herr. unfold start. simpl. rewrite Hst. simpl.
    unfold reply. simpl.
    rewrite lookup_app_r by reflexivity. rewrite Nat.sub_diag. simpl.
    unfold start_callback. rewrite Herr. simpl. split_and!; auto.
    + unfold station_starts. simpl. rewrite List.filter_app. simpl.
      rewrite length_app. simpl. lia.
    + by rewrite <- !app_assoc.
Qed.

Lemma start_rejected_or_failed_witness :
  (state (this Sample.started7) = STATE_STARTED ∨ state (this Sample.started7) = STATE_CLOSED)
  ∧ exec (start Sample.cb2) Sample.started7
    = (emit (EvCall Sample.cb2 [JError "rpc client has started."]) Sample.started7,
       Normal JUndefined)
  ∧ state (this Sample.client7) = STATE_INITED
  ∧ truthy (JError "ECONNREFUSED") = true
  ∧ state (this (reply (length (outstanding Sample.client7)) (JError "ECONNREFUSED") JUndefined
                   (exec (start Sample.cb1) Sample.client7).1)) = STATE_INITED.
Proof.
  pose proof (start_rejected_or_failed Sample.started7 Sample.cb2 JNull JNull) as [H1 _].
  pose proof (start_rejected_or_failed Sample.client7 Sample.cb1 (JError "ECONNREFUSED")
                JUndefined) as [_ H2].
  assert (Hs : state (this Sample.started7) = STATE_STARTED ∨
               state (this Sample.started7) = STATE_CLOSED) by (left; reflexivity).
  split; [exact Hs|].
  split; [exact (proj1 (H1 Hs))|].
  split; [reflexivity|].
  split; [reflexivity|].
  exact (proj1 (proj2 (proj2 (H2 eq_refl eq_refl)))).
Defined.

(** C7.  In a state other than STARTED, stop only logs a warning: the state
    is unchanged and the station's stop is not called.  In state STARTED,
    stop sets the state to CLOSED and then calls the station's stop: the
    station's stop is called once, with the force flag, and the state of
    the client is CLOSED, no longer STARTED, at the moment of that call. *)
Theorem stop_noop_or_close (m : Machine) (force : bool) :
  (state (this m) ≠ STATE_STARTED →
   exec (stop force) m
   = (emit (EvLogger lvl_warn "[pinus-rpc] client is not running now." []) m,
      Normal JUndefined))
  ∧
  (state (this m) = STATE_STARTED →
   exec (stop force) m = exec (StationStop force done_) (set_state STATE_CLOSED m)
   ∧ exec (stop force) m
     = (emit (EvStationStop force STATE_CLOSED) (set_state STATE_CLOSED m),
        Normal JUndefined)
   ∧ trace (exec (stop force) m).1 = trace m ++ [EvStationStop force STATE_CLOSED]
   ∧ state (this (exec (stop force) m).1) = STATE_CLOSED).
Proof.
  split; intros Hst; unfold stop; simpl.
  - destruct (Z.eqb_spec (state (this m)) STATE_STARTED) as [E|E]; [contradiction|].
    reflexivity.
  - rewrite Hst. simpl. auto.
Qed.

Lemma stop_noop_or_close_witness :
  state (this Sample.client7) ≠ STATE_STARTED
  ∧ exec (stop true) Sample.client7
    = (emit (EvLogger lvl_warn "[pinus-rpc] client is not running now." []) Sample.client7,
       Normal JUndefined)
  ∧ state (this Sample.started7) = STATE_STARTED
  ∧ exec (stop true) Sample.started7
    = (emit (EvStationStop true STATE_CLOSED) (set_state STATE_CLOSED Sample.started7),
       Normal JUndefined).
Proof.
  pose proof (stop_noop_or_close Sample.client7 true) as [H1 _].
  pose proof (stop_noop_or_close Sample.started7 true) as [_ H2].
  assert (Hn : state (this Sample.client7) ≠ STATE_STARTED) by (intros E; discriminate E).
  split; [exact Hn|].
  split; [exact (H1 Hn)|].
  split; [reflexivity|].
  exact (proj1 (proj2 (H2 eq_refl))).
Defined.
(** ** Construction *)

(** C10.  When the options object passed to the constructor has a (truthy)
    context, the constructor writes context.serverId into the clientId field
    of that very object, whatever clientId it held, and the client keeps the
    reference to the object, so that the client's clientId is
    context.serverId. *)
Theorem constructor_clientId_from_context
    (h : gmap loc RpcClientOpts) (l : loc) (o : RpcClientOpts) :
  h !! l = Some o →
  truthy (o_context o) = true →
  let m := RpcClient_new h (Some l) in
  opts (this m) = l
  ∧ heap m !! l = Some (set_clientId (get_prop (o_context o) "serverId") o)
  ∧ o_clientId <$> (heap m !! opts (this m)) = Some (get_prop (o_context o) "serverId")
  ∧ ∀ l', l' ≠ l → heap m !! l' = h !! l'.
Proof.
  intros Hl Hctx. unfold RpcClient_new. simpl. rewrite Hl. simpl. rewrite Hctx.
  split_and!; auto.
  - apply lookup_insert_eq.
  - by rewrite lookup_insert_eq.
  - intros l' Hne. by apply lookup_insert_ne.
Qed.

Lemma constructor_clientId_from_context_witness :
  ({[ 7 := Sample.opts7 ]} : gmap loc RpcClientOpts) !! 7 = Some Sample.opts7
  ∧ truthy (o_context Sample.opts7) = true
  ∧ o_clientId Sample.opts7 = JStr "mine"
  ∧ o_clientId <$> (heap Sample.client7 !! opts (this Sample.client7))
    = Some (JStr "connector-1").
Proof.
  assert (H1 : ({[ 7 := Sample.opts7 ]} : gmap loc RpcClientOpts) !! 7 = Some Sample.opts7)
    by apply lookup_singleton_eq.
  split; [exact H1|].
  split; [reflexivity|].
  split; [reflexivity|].
  exact (proj1 (proj2 (proj2
           (constructor_clientId_from_context {[ 7 := Sample.opts7 ]} 7 Sample.opts7
              H1 eq_refl)))).
Defined.

(** ** Routing *)





(** ** The proxy registry *)

Lemma assign_attrs_union (entry proxy : gmap string jsval) :
  assign_attrs entry proxy = proxy ∪ entry.
Proof.
  unfold assign_attrs.
  rewrite <- (list_to_map_to_list proxy) at 2.
  induction (map_to_list proxy) as [|[attr v] l IH]; simpl.
  - by rewrite (left_id_L ∅ (∪)).
  - rewrite IH. by rewrite insert_union_l.
Qed.

Lemma lookup_insertProxy (ps : Proxies) (ns st : string) (proxy : gmap string jsval) :
  insertProxy ps ns st proxy !! ns ≫= (.!! st)
  = Some (proxy ∪ default ∅ (ps !! ns ≫= (.!! st))).
Proof.
  unfold insertProxy.
  destruct (ps !! ns) as [by_type|] eqn:Ens; simpl.
  - destruct (by_type !! st) as [entry|] eqn:Est; simpl.
    + rewrite lookup_insert_eq. simpl. rewrite lookup_insert_eq.
      by rewrite assign_attrs_union.
    + rewrite lookup_insert_eq. simpl. rewrite lookup_insert_eq.
      by rewrite (right_id_L ∅ (∪)).
  - rewrite lookup_empty. rewrite lookup_insert_eq. simpl. rewrite lookup_insert_eq.
    by rewrite (right_id_L ∅ (∪)).
Qed.

Lemma addProxy_entry (X : Externals) (m : Machine) (r : RemoteServerCode) :
  let m' := (exec (addProxy X (Some r)) m).1 in
  registry_entry m' (rec_namespace r) (rec_serverType r)
  = generated X r (_context (this m)) ∪ registry_entry m (rec_namespace r) (rec_serverType r)
  ∧ _context (this m') = _context (this m).
Proof.
  unfold addProxy, generated, registry_entry. cbn [exec].
  destruct (generateProxy X (Some r) (_context (this m))) as [proxy|]; cbn.
  - split; [|done]. by rewrite lookup_insertProxy.
  - split; [|done]. by rewrite (left_id_L ∅ (∪)).
Qed.

(** C9, as the code has it.  The registry entry of a (namespace,
    serverType) has one attribute per service, and addProxy merges service
    by service.  After addProxy(r1) and then addProxy(r2) with the namespace
    and serverType of r1, the entry has the services it had before, those
    the first call generated and those the second call generated, and no
    others; no service is removed by the second call; a service the second
    call does not generate keeps its proxy, and so its methods; a service
    the second call generates holds the proxy of the second call, and has
    the methods of that proxy only. *)
Theorem addProxy_twice_merges (X : Externals) (m : Machine) (r1 r2 : RemoteServerCode) :
  rec_namespace r2 = rec_namespace r1 →
  rec_serverType r2 = rec_serverType r1 →
  let ns := rec_namespace r1 in
  let st := rec_serverType r1 in
  let p1 := generated X r1 (_context (this m)) in
  let p2 := generated X r2 (_context (this m)) in
  let m1 := (exec (addProxy X (Some r1)) m).1 in
  let m2 := (exec (addProxy X (Some r2)) m1).1 in
  dom (registry_entry m2 ns st) = dom (registry_entry m ns st) ∪ dom p1 ∪ dom p2
  ∧ dom p1 ∪ dom p2 ⊆ dom (registry_entry m2 ns st)
  ∧ dom (registry_entry m1 ns st) ⊆ dom (registry_entry m2 ns st)
  ∧ (∀ attr, p2 !! attr = None →
       registry_entry m2 ns st !! attr = registry_entry m1 ns st !! attr)
  ∧ (∀ attr v, p2 !! attr = Some v → registry_entry m2 ns st !! attr = Some v)
  ∧ (∀ service_ method_,
       has_method (registry_entry m2 ns st) service_ method_
       = match p2 !! service_ with
         | Some _ => has_method p2 service_ method_
         | None => has_method (registry_entry m1 ns st) service_ method_
         end).
Proof.
  intros Hns Hst ns st p1 p2 m1 m2.
  destruct (addProxy_entry X m r1) as [E1 C1].
  destruct (addProxy_entry X m1 r2) as [E2 _].
  fold m1 in E1, C1. fold m2 in E2.
  rewrite Hns, Hst, C1 in E2. fold ns st p1 p2 in E1, E2.
  rewrite E2, E1. rewrite !dom_union_L.
  split_and!.
  - apply set_eq. intros x. rewrite !elem_of_union. tauto.
  - intros x. rewrite !elem_of_union. tauto.
  - intros x. rewrite !elem_of_union. tauto.
  - intros attr Hnone. rewrite lookup_union_r; done.
  - intros attr v Hsome. by apply lookup_union_Some_l.
  - intros service_ method_. unfold has_method.
    destruct (p2 !! service_) as [v|] eqn:E.
    + by rewrite (lookup_union_Some_l _ _ _ _ E).
    + by rewrite lookup_union_r.
Qed.

Lemma addProxy_twice_merges_witness :
  rec_namespace Sample.chat2 = rec_namespace Sample.chat
  ∧ rec_serverType Sample.chat2 = rec_serverType Sample.chat
  ∧ dom (registry_entry
           (exec (addProxy Sample.X (Some Sample.chat2))
                 (exec (addProxy Sample.X (Some Sample.chat)) Sample.client7).1).1
           "user" "chat")
    = dom (registry_entry Sample.client7 "user" "chat")
      ∪ dom (generated Sample.X Sample.chat (_context (this Sample.client7)))
      ∪ dom (generated Sample.X Sample.chat2 (_context (this Sample.client7))).
Proof.
  split; [reflexivity|]. split; [reflexivity|].
  exact (proj1 (addProxy_twice_merges Sample.X Sample.client7 Sample.chat Sample.chat2
                  eq_refl eq_refl)).
Defined.

Example addProxy_twice_sample :
  generated Sample.X Sample.chat Sample.app !! "chatRemote" ≠ None
  ∧ generated Sample.X Sample.chat2 Sample.app !! "roomRemote" ≠ None.
Proof. split; vm_compute; discriminate. Qed.

(** The claim of C9 fails.  Under a loader whose two paths both hold a
    service chatRemote, the first with the method add and the second with the
    method kick, addProxy(chat) makes chatRemote.add callable through the
    entry of (user, chat), and addProxy(chat2), for the same namespace and
    serverType, removes it: the entry then holds the proxy of the second
    module alone. *)
Lemma second_addProxy_removes_methods :
  rec_namespace Sample.chat2 = rec_namespace Sample.chat
  ∧ rec_serverType Sample.chat2 = rec_serverType Sample.chat
  ∧ ¬ methods_kept Sample.X_same_service Sample.client7 Sample.chat Sample.chat2.
Proof.
  split; [reflexivity|]. split; [reflexivity|].
  intros H. specialize (H "chatRemote" "add").
  assert (H1 : has_method
                 (registry_entry
                    (exec (addProxy Sample.X_same_service (Some Sample.chat))
                          Sample.client7).1 "user" "chat") "chatRemote" "add" = true)
    by (vm_compute; reflexivity).
  specialize (H H1). vm_compute in H. discriminate H.
Qed.
(** ** Promises that nothing can settle *)

Lemma length_settle (p : nat) (s : PromiseState) (m : Machine) :
  length (promises (settle p s m)) = length (promises m).
Proof.
  unfold settle. destruct (promises m !! p) as [[]|]; simpl; auto.
  apply length_insert.
Qed.

Lemma outstanding_settle (p : nat) (s : PromiseState) (m : Machine) :
  outstanding (settle p s m) = outstanding m.
Proof. unfold settle. by destruct (promises m !! p) as [[]|]. Qed.

Lemma lookup_settle_ne (p q : nat) (s : PromiseState) (m : Machine) :
  q ≠ p → promises (settle q s m) !! p = promises m !! p.
Proof.
  intros Hne. unfold settle. destruct (promises m !! q) as [[]|]; simpl; auto.
  by apply list_lookup_insert_ne.
Qed.

Lemma exec_length_promises (e : Eff) (m : Machine) :
  length (promises m) ≤ length (promises (exec e m).1).
Proof.
  revert m. eff_induction e; intros m; simpl; auto;
    try (etrans; [|apply IH]; simpl; rewrite ?length_settle, ?length_app; simpl; lia).
  - destruct (heap m !! l); simpl; auto.
  - destruct (exec (ex (length (promises m))) _) as [m1 c] eqn:E.
    etrans; [|apply IH].
    pose proof (IHex (length (promises m)) (set_promises (promises m ++ [Pending]) m)) as H.
    rewrite E in H. simpl in H. rewrite length_app in H. simpl in H.
    destruct c; rewrite ?length_settle; lia.
  - destruct (eaches m !! g); simpl; auto. etrans; [|apply IH]. simpl. lia.
  - destruct (eaches m !! g); simpl; auto. etrans; [|apply IH]. simpl. lia.
Qed.

Lemma undisturbed_defer (p : nat) (a : Asked) (cb : jsval -> jsval -> Eff) (m : Machine) :
  undisturbed p m → (∀ x y, quiet p (cb x y)) → undisturbed p (defer a cb m).
Proof.
  intros Hm Hcb i o. unfold defer. simpl. intros Hi.
  apply lookup_app_Some in Hi as [Hi|[_ Hi]]; [by eapply Hm|].
  apply list_lookup_singleton_Some in Hi as [_ [= <-]]. exact Hcb.
Qed.

Lemma exec_quiet (e : Eff) (m : Machine) (p : nat) :
  quiet p e →
  undisturbed p m →
  p < length (promises m) ∨ length (promises (exec e m).1) ≤ p →
  undisturbed p (exec e m).1 ∧ promises (exec e m).1 !! p = promises m !! p.
Proof.
  revert m. eff_induction e; intros m Hq Hm Hp; simpl in *; auto;
    try (match goal with
         | |- undisturbed _ (exec _ ?m').1 ∧ _ =>
             first [apply (IH m') | apply (IH _ m')];
             [first [exact Hq | apply Hq] | exact Hm | exact Hp]
         end; fail);
    try (destruct Hq as [Hcb Hk];
         match goal with
         | |- undisturbed _ (exec _ ?m').1 ∧ _ =>
             apply (IH m'); [exact Hk | apply undisturbed_defer; [exact Hm | auto] | exact Hp]
         end; fail).
  - destruct (heap m !! l); simpl; auto.
  - set (n := length (promises m)) in *.
    set (m0 := set_promises (promises m ++ [Pending]) m) in *.
    pose proof (exec_length_promises (ex n) m0) as L1.
    destruct (exec (ex n) m0) as [m1 c] eqn:E. simpl in L1.
    rewrite length_app in L1. simpl in L1. fold n in L1.
    set (m2 := match c with Normal _ => m1 | Abrupt x => settle n (Rejected x) m1 end) in *.
    pose proof (exec_length_promises (k n) m2) as L2.
    assert (Lm0 : length (promises m0) = S n).
    { unfold m0. simpl. rewrite length_app. simpl. lia. }
    assert (Lm2 : length (promises m2) = length (promises m1)).
    { unfold m2. destruct c; [done|apply length_settle]. }
    assert (Hne : n ≠ p) by lia.
    destruct (Hq n Hne) as [Hex Hk].
    destruct (IHex n m0 Hex) as [U1 P1].
    { exact Hm. }
    { rewrite E. destruct Hp as [Hp|Hp]; [left; rewrite Lm0; lia | right; cbn [fst]; lia]. }
    rewrite E in U1, P1. simpl in U1, P1.
    assert (U2 : undisturbed p m2).
    { unfold m2. destruct c; [done|].
      intros i o. rewrite outstanding_settle. apply U1. }
    assert (P2 : promises m2 !! p = promises m1 !! p).
    { unfold m2. destruct c; [done|]. by apply lookup_settle_ne. }
    destruct (IH n m2 Hk U2) as [U3 P3]; [lia|].
    split; [done|]. rewrite P3, P2, P1. unfold m0. simpl.
    destruct Hp as [Hp|Hp].
    + by rewrite lookup_app_l.
    + rewrite !lookup_ge_None_2; [done| |]; rewrite ?length_app; simpl; lia.
  - destruct Hq as [Hne Hk].
    destruct (IH (settle q (Fulfilled v) m) Hk) as [U P].
    { intros i o. rewrite outstanding_settle. apply Hm. }
    { rewrite length_settle. exact Hp. }
    split; [done|]. rewrite P. by apply lookup_settle_ne.
  - destruct Hq as [Hne Hk].
    destruct (IH (settle q (Rejected v) m) Hk) as [U P].
    { intros i o. rewrite outstanding_settle. apply Hm. }
    { rewrite length_settle. exact Hp. }
    split; [done|]. rewrite P. by apply lookup_settle_ne.
  - set (n := length (promises m)) in *.
    set (m0 := set_promises (promises m ++ [Rejected x]) m) in *.
    pose proof (exec_length_promises (k n) m0) as L.
    assert (Lm0 : length (promises m0) = S n).
    { unfold m0. simpl. rewrite length_app. simpl. lia. }
    assert (Hne : n ≠ p) by lia.
    destruct (IH n m0 (Hq n Hne)) as [U P]; [done|lia|].
    split; [done|]. rewrite P. unfold m0. simpl.
    destruct Hp as [Hp|Hp].
    + by rewrite lookup_app_l.
    + rewrite !lookup_ge_None_2; [done| |]; rewrite ?length_app; simpl; lia.
  - destruct (eaches m !! g); simpl in *; auto.
    match goal with
    | |- undisturbed _ (exec _ ?m').1 ∧ _ => apply (IH _ m'); [apply Hq | exact Hm | exact Hp]
    end.
  - destruct (eaches m !! g); simpl in *; auto.
    match goal with
    | |- undisturbed _ (exec _ ?m').1 ∧ _ => apply (IH _ m'); [apply Hq | exact Hm | exact Hp]
    end.
Qed.

Lemma quiet_bind (p : nat) (e : Eff) (f : jsval -> Eff) :
  quiet p e → (∀ v, quiet p (f v)) → quiet p (bind e f).
Proof.
  intros He Hf. eff_induction e; simpl in *; auto;
    try (destruct He; split; auto; fail).
  - intros n Hne. destruct (He n Hne). auto.
Qed.

Lemma quiet_foreach {A : Type} (p : nat) (l : list A) (body : A -> Eff) :
  (∀ x, quiet p (body x)) → quiet p (foreach l body).
Proof.
  intros Hb. induction l as [|x l IH]; simpl; [done|].
  apply quiet_bind; auto.
Qed.

Lemma quiet_rpcInvoke (p : nat) (serverId : jsval) (msg : RpcMsg)
    (cb : jsval -> jsval -> Eff) :
  (∀ a b, quiet p (cb a b)) → quiet p (rpcInvoke serverId msg cb).
Proof.
  intros Hcb. unfold rpcInvoke. simpl. intros c.
  assert (Hfail : quiet p
    (Logger lvl_error "[pinus-rpc] fail to do rpc invoke for client is not running" []
       (bind (cb (JError "[pinus-rpc] fail to do rpc invoke for client is not running")
                 JUndefined) (fun _ => done_)))).
  { simpl. apply quiet_bind; [apply Hcb|done]. }
  destruct (truthy (rpcDebugLog c)); simpl; [intros o|];
    destruct (negb (state c =? STATE_STARTED)%Z); simpl; auto.
Qed.

Lemma quiet_async_each {A : Type} (p : nat) (coll : list A)
    (iteratee : A -> (jsval -> Eff) -> Eff) (callback_ : jsval -> Eff) :
  (∀ x next, (∀ err, quiet p (next err)) → quiet p (iteratee x next)) →
  (∀ err, quiet p (callback_ err)) →
  quiet p (async_each coll iteratee callback_).
Proof.
  intros Hit Hcb. unfold async_each. simpl. intros g.
  assert (Honce : ∀ err, quiet p (once_callback g callback_ err)).
  { intros err [|]; simpl; auto. }
  apply quiet_bind.
  - destruct (length coll =? 0); [apply Honce|done].
  - intros _. apply quiet_foreach. intros x. apply Hit. intros err.
    unfold iteratorCallback. destruct (truthy err); [apply Honce|].
    simpl. intros n. destruct (n =? length coll); [apply Honce|done].
Qed.

Lemma quiet_getRouteTarget (X : Externals) (p : nat) (serverType_ : string) (msg : RpcMsg)
    (routeParam : jsval) (cb : jsval -> jsval -> Eff) :
  (∀ a b, quiet p (cb a b)) → quiet p (getRouteTarget X serverType_ msg routeParam cb).
Proof.
  intros Hcb. unfold getRouteTarget. simpl. intros c.
  destruct (truthy (routerType c)); simpl; [auto|].
  destruct (String.eqb (typeof (router c)) "function"); simpl; [auto|].
  destruct (String.eqb (typeof (get_prop (router c) "route")) "function"); simpl; auto.
Qed.

Lemma quiet_rpcToSpecifiedServer (p : nat) (msg : RpcMsg) (serverType_ : string)
    (serverId : jsval) (cb : jsval -> jsval -> Eff) :
  (∀ a b, quiet p (cb a b)) → quiet p (rpcToSpecifiedServer msg serverType_ serverId cb).
Proof.
  intros Hcb. unfold rpcToSpecifiedServer.
  destruct (negb (String.eqb (typeof serverId) "string")); [done|].
  destruct (strict_eq_str serverId "*"); [|by apply quiet_rpcInvoke].
  simpl. intros c. destruct (_routeContext c) as [rc|]; [|done].
  destruct (getServersByType rc serverType_) as [servers_|]; [|done].
  apply quiet_async_each; [|auto].
  intros x next Hnext. apply quiet_rpcInvoke. auto.
Qed.

Lemma quiet_proxyCB (X : Externals) (p : nat) (serviceName methodName : string)
    (args_ : list jsval) (attach : RemoteServerCode) (isToSpecifiedServer : bool) :
  quiet p (proxyCB X serviceName methodName args_ attach isToSpecifiedServer).
Proof.
  unfold proxyCB. simpl. intros c.
  destruct (negb (state c =? STATE_STARTED)%Z); [done|].
  destruct (length args_ <? 2); [done|].
  simpl. intros q Hne. split; [|done].
  destruct isToSpecifiedServer.
  - apply quiet_rpcToSpecifiedServer. intros a b. simpl. auto.
  - apply quiet_getRouteTarget. intros a b.
    destruct (truthy a); [simpl; auto|].
    apply quiet_rpcInvoke. intros a' b'.
    destruct (negb (is_nullish a')); simpl; auto.
Qed.

Lemma quiet_start (p : nat) (cb : jsval) : quiet p (start cb).
Proof.
  unfold start. simpl. intros c. destruct (STATE_INITED <? state c)%Z; simpl; [done|].
  split; [|done]. intros a. unfold start_callback. by destruct (truthy a).
Qed.

Lemma quiet_stop (p : nat) (force : bool) : quiet p (stop force).
Proof.
  unfold stop. simpl. intros c. by destruct (negb (state c =? STATE_STARTED)%Z).
Qed.

Lemma quiet_addProxy (X : Externals) (p : nat) (record : option RemoteServerCode) :
  quiet p (addProxy X record).
Proof.
  unfold addProxy. destruct record as [r|]; [|done]. cbn [quiet]. intros c.
  by destruct (generateProxy X (Some r) (_context c)).
Qed.

Lemma quiet_body (X : Externals) (p : nat) (op : Op) (e : Eff) :
  body X op = Some e → quiet p e.
Proof.
  destruct op; cbn [body]; intros [= <-]; try done.
  - apply quiet_start.
  - apply quiet_stop.
  - apply quiet_addProxy.
  - unfold addProxies. destruct records as [[|r rs]|]; try done.
    apply quiet_foreach. intros x. apply quiet_addProxy.
  - apply quiet_rpcInvoke. intros a b. done.
  - apply quiet_proxyCB.
Qed.

Lemma step_length_promises (X : Externals) (op : Op) (m : Machine) :
  length (promises m) ≤ length (promises (step X op m)).
Proof.
  assert (Hb : ∀ e, length (promises m) ≤ length (promises (exec e m).1))
    by (intros e; apply exec_length_promises).
  destruct op; cbn [step body]; try apply Hb.
  unfold reply. destruct (outstanding m !! i) as [[o|]|]; try done.
  apply (exec_length_promises _ (set_outstanding _ m)).
Qed.

Lemma step_quiet (X : Externals) (op : Op) (m : Machine) (p : nat) :
  undisturbed p m →
  p < length (promises m) ∨ length (promises (step X op m)) ≤ p →
  undisturbed p (step X op m) ∧ promises (step X op m) !! p = promises m !! p.
Proof.
  intros Hm Hp.
  assert (Hb : ∀ e, body X op = Some e → step X op m = (exec e m).1).
  { destruct op; cbn [step body]; intros e [= <-]; done. }
  destruct (body X op) as [e|] eqn:E.
  - rewrite (Hb e eq_refl) in *. apply exec_quiet; auto. by eapply quiet_body.
  - destruct op; try discriminate E. cbn [step] in *. unfold reply in *.
    destruct (outstanding m !! i) as [[o|]|] eqn:Ei; try done.
    apply (exec_quiet _ (set_outstanding (<[i:=None]> (outstanding m)) m)); auto.
    + by eapply Hm.
    + intros j o'. simpl. intros Hj.
      destruct (decide (i = j)) as [->|Hne].
      * apply list_lookup_insert_Some in Hj as [(_ & [=] & _)|[? _]]; done.
      * rewrite list_lookup_insert_ne in Hj by done. by eapply Hm.
Qed.

(** A promise that no outstanding callback settles stays as it is, whatever
    the owner and the environment do next. *)
Lemma run_quiet (X : Externals) (ops : list Op) (m : Machine) (p : nat) :
  p < length (promises m) →
  undisturbed p m →
  promises (run X ops m) !! p = promises m !! p.
Proof.
  revert m. induction ops as [|op ops IH]; intros m Hp Hm; simpl; [done|].
  destruct (step_quiet X op m p Hm (or_introl Hp)) as [U P].
  rewrite IH; auto.
  pose proof (step_length_promises X op m). lia.
Qed.

Lemma exec_heap (e : Eff) (m : Machine) :
  heap (exec e m).1 = heap m ∧ opts (this (exec e m).1) = opts (this m).
Proof.
  revert m. eff_induction e; intros m; simpl; auto;
    try (match goal with
         | |- heap (exec _ ?m').1 = _ ∧ _ =>
             first [apply (IH m') | apply (IH _ m')]
         end; fail).
  - destruct (heap m !! l); simpl; auto.
  - destruct (exec (ex (length (promises m))) _) as [m1 c] eqn:E.
    pose proof (IHex (length (promises m)) (set_promises (promises m ++ [Pending]) m)) as H.
    rewrite E in H. simpl in H. destruct H as [H1 H2].
    destruct (IH (length (promises m))
                (match c with
                 | Normal _ => m1
                 | Abrupt x => settle (length (promises m)) (Rejected x) m1
                 end)) as [H3 H4].
    rewrite H3, H4. destruct c; [done|].
    unfold settle. by destruct (promises m1 !! length (promises m)) as [[]|].
  - destruct (IH (settle q (Fulfilled v) m)) as [-> ->].
    unfold settle. by destruct (promises m !! q) as [[]|].
  - destruct (IH (settle q (Rejected v) m)) as [-> ->].
    unfold settle. by destruct (promises m !! q) as [[]|].
  - destruct (eaches m !! g); simpl; auto.
    match goal with |- heap (exec _ ?m').1 = _ ∧ _ => apply (IH _ m') end.
  - destruct (eaches m !! g); simpl; auto.
    match goal with |- heap (exec _ ?m').1 = _ ∧ _ => apply (IH _ m') end.
Qed.

Lemma step_heap (X : Externals) (op : Op) (m : Machine) :
  heap (step X op m) = heap m ∧ opts (this (step X op m)) = opts (this m).
Proof.
  destruct op; cbn [step body]; try apply exec_heap.
  unfold reply. destruct (outstanding m !! i) as [[o|]|]; try done.
  apply (exec_heap _ (set_outstanding _ m)).
Qed.

Lemma consistent_new (h : gmap loc RpcClientOpts) (opts_ : option loc) :
  (∀ l, opts_ = Some l → is_Some (h !! l)) →
  consistent (RpcClient_new h opts_).
Proof.
  intros Hl. split.
  - intros p _ i o. unfold RpcClient_new. simpl. by rewrite lookup_nil.
  - unfold RpcClient_new. simpl.
    destruct opts_ as [l|]; simpl.
    + destruct (Hl l eq_refl) as [o E]. rewrite E. simpl.
      destruct (truthy (o_context o)); [by rewrite lookup_insert_eq | by rewrite E].
    + rewrite lookup_insert_eq. simpl. by rewrite lookup_insert_eq.
Qed.

Lemma consistent_step (X : Externals) (op : Op) (m : Machine) :
  consistent m → consistent (step X op m).
Proof.
  intros [Hq Hh]. split.
  - intros p Hp. apply step_quiet; auto.
    apply Hq. pose proof (step_length_promises X op m). lia.
  - destruct (step_heap X op m) as [-> ->]. exact Hh.
Qed.

Lemma consistent_run (X : Externals) (ops : list Op) (m : Machine) :
  consistent m → consistent (run X ops m).
Proof.
  revert m. induction ops as [|op ops IH]; intros m Hm; simpl; [done|].
  apply IH. by apply consistent_step.
Qed.

Lemma reachable_consistent (X : Externals) (m : Machine) :
  reachable X m → consistent m.
Proof.
  intros (h & opts_ & ops & Hl & ->). apply consistent_run. by apply consistent_new.
Qed.

Lemma reachable_fresh_undisturbed (X : Externals) (m : Machine) :
  reachable X m → undisturbed (length (promises m)) m.
Proof. intros Hr. by apply (reachable_consistent X m Hr). Qed.

(** A proxy call whose executor only logs leaves its promise pending for
    ever: the machine [m'] after the call has the new promise and the
    outstanding callbacks of the machine [m] before it. *)
Lemma pending_forever (X : Externals) (m m' : Machine) (ops : list Op) :
  reachable X m →
  promises m' = promises m ++ [Pending] →
  outstanding m' = outstanding m →
  promises (run X ops m') !! length (promises m) = Some Pending.
Proof.
  intros Hr Hp Ho.
  rewrite run_quiet.
  - rewrite Hp. by rewrite lookup_app_r, Nat.sub_diag.
  - rewrite Hp, length_app. simpl. lia.
  - intros i o. rewrite Ho. apply (reachable_fresh_undisturbed X m Hr).
Qed.

Lemma dispatches_emit (ev : Event) (m : Machine) :
  dispatches (emit ev m) = dispatches m ++ from_option (fun d => [d]) [] (is_dispatch ev).
Proof.
  unfold dispatches. simpl. rewrite omap_app. simpl.
  by destruct (is_dispatch ev).
Qed.

(** ** Strategy-routed calls with a malformed custom router *)

Lemma proxyCB_invalid_router (X : Externals) (m : Machine) (serviceName methodName : string)
    (args_ : list jsval) (attach : RemoteServerCode) :
  state (this m) = STATE_STARTED →
  2 ≤ length args_ →
  truthy (routerType (this m)) = false →
  typeof (router (this m)) ≠ "function" →
  typeof (get_prop (router (this m)) "route") ≠ "function" →
  exec (proxyCB X serviceName methodName args_ attach false) m
  = (emit (EvLogger lvl_error "[pinus-rpc] invalid route function." [])
       (set_promises (promises m ++ [Pending]) m),
     Normal (JPromise (length (promises m)))).
Proof.
  intros Hst Hargs Hrt Hfun Hroute.
  unfold proxyCB. cbn [exec]. rewrite Hst. cbn [Z.eqb STATE_STARTED Pos.eqb negb].
  rewrite (proj2 (Nat.ltb_ge _ _) Hargs).
  cbn [exec]. unfold getRouteTarget. cbn [exec this set_promises].
  rewrite Hrt.
  rewrite (proj2 (String.eqb_neq _ _) Hfun), (proj2 (String.eqb_neq _ _) Hroute).
  reflexivity.
Qed.

(** C4.  A strategy-routed proxy call on a started client that has no
    routerType and whose router is neither a function nor an object with a
    route function: the call returns a promise, logs the configuration error,
    calls neither a router nor the station's dispatch, leaves no callback
    outstanding, and its promise is pending after every further sequence of
    operations and answers of the environment. *)
Theorem invalid_router_never_resolves (X : Externals) (m : Machine)
    (serviceName methodName : string) (args_ : list jsval) (attach : RemoteServerCode) :
  reachable X m →
  state (this m) = STATE_STARTED →
  2 ≤ length args_ →
  truthy (routerType (this m)) = false →
  typeof (router (this m)) ≠ "function" →
  typeof (get_prop (router (this m)) "route") ≠ "function" →
  let p := length (promises m) in
  let r := exec (proxyCB X serviceName methodName args_ attach false) m in
  r.2 = Normal (JPromise p)
  ∧ trace r.1 = trace m ++ [EvLogger lvl_error "[pinus-rpc] invalid route function." []]
  ∧ dispatches r.1 = dispatches m
  ∧ outstanding r.1 = outstanding m
  ∧ ∀ ops, promises (run X ops r.1) !! p = Some Pending.
Proof.
  intros Hr Hst Hargs Hrt Hfun Hroute p r. unfold r.
  rewrite proxyCB_invalid_router by done. cbn [fst snd].
  split_and!; try done.
  - rewrite dispatches_emit. cbn. apply app_nil_r.
  - intros ops. by apply pending_forever.
Qed.

Lemma started_bad_router_reachable : reachable Sample.X Sample.started_bad_router.
Proof.
  exists {[ 0 := Sample.opts_bad_router ]}, (Some 0), Sample.started_ops.
  split; [|reflexivity]. intros l [= <-]. by rewrite lookup_singleton_eq.
Qed.

Lemma invalid_router_never_resolves_witness :
  reachable Sample.X Sample.started_bad_router
  ∧ state (this Sample.started_bad_router) = STATE_STARTED
  ∧ 2 ≤ length [JStr "room-1"; JFun "done"]
  ∧ truthy (routerType (this Sample.started_bad_router)) = false
  ∧ typeof (router (this Sample.started_bad_router)) ≠ "function"
  ∧ typeof (get_prop (router (this Sample.started_bad_router)) "route") ≠ "function"
  ∧ ∀ ops,
      promises (run Sample.X ops
                  (exec (proxyCB Sample.X "chatRemote" "add" [JStr "room-1"; JFun "done"]
                           Sample.chat false) Sample.started_bad_router).1)
        !! length (promises Sample.started_bad_router) = Some Pending.
Proof.
  assert (H1 : typeof (router (this Sample.started_bad_router)) ≠ "function")
    by (intros E; discriminate E).
  assert (H2 : typeof (get_prop (router (this Sample.started_bad_router)) "route") ≠ "function")
    by (intros E; discriminate E).
  assert (H3 : 2 ≤ length [JStr "room-1"; JFun "done"]) by (simpl; lia).
  split; [exact started_bad_router_reachable|].
  split; [reflexivity|]. split; [exact H3|]. split; [reflexivity|].
  split; [exact H1|]. split; [exact H2|].
  exact (proj2 (proj2 (proj2 (proj2
    (invalid_router_never_resolves Sample.X Sample.started_bad_router "chatRemote" "add"
       [JStr "room-1"; JFun "done"] Sample.chat
       started_bad_router_reachable eq_refl H3 eq_refl H1 H2))))).
Defined.

(** ** Direct invoke *)

(** rpcInvoke on a started client calls the station's dispatch once, with the
    server id, the message and the callback it was given, and does nothing
    else but tracing. *)
Lemma rpcInvoke_started (m : Machine) (serverId : jsval) (msg : RpcMsg)
    (cb : jsval -> jsval -> Eff) :
  state (this m) = STATE_STARTED →
  is_Some (heap m !! opts (this m)) →
  let r := exec (rpcInvoke serverId msg cb) m in
  r.2 = Normal JUndefined
  ∧ dispatches r.1 = dispatches m ++ [(serverId, msg)]
  ∧ outstanding r.1
    = outstanding m ++ [Some {| asked := AskDispatch serverId msg; callback := cb |}]
  ∧ promises r.1 = promises m
  ∧ eaches r.1 = eaches m
  ∧ this r.1 = this m
  ∧ heap r.1 = heap m.
Proof.
  intros Hst [o Ho]. unfold rpcInvoke. cbn [exec]. rewrite Hst.
  cbn [Z.eqb STATE_STARTED Pos.eqb negb].
  destruct (truthy (rpcDebugLog (this m))); cbn [exec]; [rewrite Ho; cbn [exec]|];
    (split_and!; try done; unfold dispatches; cbn;
     rewrite ?omap_app; cbn; by rewrite ?app_nil_r).
Qed.

(** rpcInvoke on a client that is not started calls the callback with the
    not-running error and does not call the station. *)
Lemma rpcInvoke_not_started (m : Machine) (serverId : jsval) (msg : RpcMsg) (cb : jsval) :
  state (this m) ≠ STATE_STARTED →
  is_Some (heap m !! opts (this m)) →
  let r := exec (rpcInvoke serverId msg (user_cb cb)) m in
  r.2 = Normal JUndefined
  ∧ dispatches r.1 = dispatches m
  ∧ outstanding r.1 = outstanding m
  ∧ last (trace r.1)
    = Some (EvCall cb [JError "[pinus-rpc] fail to do rpc invoke for client is not running";
                       JUndefined]).
Proof.
  intros Hst [o Ho]. unfold rpcInvoke. cbn [exec].
  destruct (Z.eqb_spec (state (this m)) STATE_STARTED) as [E|_]; [contradiction|].
  cbn [negb].
  destruct (truthy (rpcDebugLog (this m))); cbn [exec]; [rewrite Ho; cbn [exec]|];
    (split_and!; try done;
     [ unfold dispatches; cbn; rewrite ?omap_app; cbn; by rewrite ?app_nil_r
     | cbn; by rewrite last_snoc ]).
Qed.

(** ** Specified-target calls *)

Lemma proxyCB_non_string_key (X : Externals) (m : Machine) (serviceName methodName : string)
    (args_ : list jsval) (attach : RemoteServerCode) :
  state (this m) = STATE_STARTED →
  2 ≤ length args_ →
  typeof (hd JUndefined args_) ≠ "string" →
  exec (proxyCB X serviceName methodName args_ attach true) m
  = (emit (EvLogger lvl_error "[pinus-rpc] serverId is not a string : %s"
             [hd JUndefined args_])
       (set_promises (promises m ++ [Pending]) m),
     Normal (JPromise (length (promises m)))).
Proof.
  intros Hst Hargs Hkey.
  unfold proxyCB. cbn [exec]. rewrite Hst. cbn [Z.eqb STATE_STARTED Pos.eqb negb].
  rewrite (proj2 (Nat.ltb_ge _ _) Hargs).
  cbn [exec]. unfold rpcToSpecifiedServer.
  rewrite (proj2 (String.eqb_neq _ _) Hkey). reflexivity.
Qed.

Lemma proxyCB_literal_key (X : Externals) (m : Machine) (serviceName methodName : string)
    (args_ : list jsval) (attach : RemoteServerCode) (id_ : string) :
  state (this m) = STATE_STARTED →
  2 ≤ length args_ →
  hd JUndefined args_ = JStr id_ →
  id_ ≠ "*" →
  exec (proxyCB X serviceName methodName args_ attach true) m
  = exec (NewPromise
            (fun p => rpcInvoke (JStr id_)
                        {| namespace := rec_namespace attach;
                           serverType := rec_serverType attach;
                           service := serviceName;
                           method := methodName;
                           args := tl args_ |}
                        (fun err _ => Resolve p err done_))
            (fun p => Ret (JPromise p))) m.
Proof.
  intros Hst Hargs Hkey Hid.
  unfold proxyCB. cbn [exec]. rewrite Hst. cbn [Z.eqb STATE_STARTED Pos.eqb negb].
  rewrite (proj2 (Nat.ltb_ge _ _) Hargs).
  unfold rpcToSpecifiedServer. rewrite Hkey. cbn [typeof strict_eq_str].
  rewrite (proj2 (String.eqb_neq _ _) Hid). reflexivity.
Qed.

(** C3, as the code has it.  A specified-target proxy call on a started
    client whose routing key is not a string logs the error, returns a
    promise without throwing, calls neither rpcInvoke nor the station, and
    its promise is pending after every further sequence of operations and
    answers.  A call whose routing key is a string other than "*" makes one
    rpcInvoke with that id, which calls the station's dispatch once. *)
Theorem specified_target_key (X : Externals) (m : Machine) (serviceName methodName : string)
    (args_ : list jsval) (attach : RemoteServerCode) :
  reachable X m →
  state (this m) = STATE_STARTED →
  2 ≤ length args_ →
  let key := hd JUndefined args_ in
  let p := length (promises m) in
  let msg := {| namespace := rec_namespace attach;
                serverType := rec_serverType attach;
                service := serviceName;
                method := methodName;
                args := tl args_ |} in
  let r := exec (proxyCB X serviceName methodName args_ attach true) m in
  (typeof key ≠ "string" →
     r.2 = Normal (JPromise p)
     ∧ trace r.1 = trace m ++ [EvLogger lvl_error "[pinus-rpc] serverId is not a string : %s"
                                  [key]]
     ∧ outstanding r.1 = outstanding m
     ∧ ∀ ops, promises (run X ops r.1) !! p = Some Pending)
  ∧
  (∀ id_, key = JStr id_ → id_ ≠ "*" →
     r = exec (NewPromise
                 (fun p => rpcInvoke (JStr id_) msg (fun err _ => Resolve p err done_))
                 (fun p => Ret (JPromise p))) m
     ∧ r.2 = Normal (JPromise p)
     ∧ dispatches r.1 = dispatches m ++ [(JStr id_, msg)]
     ∧ outstanding r.1
       = outstanding m ++ [Some {| asked := AskDispatch (JStr id_) msg;
                                   callback := fun err _ => Resolve p err done_ |}]).
Proof.
  intros Hr Hst Hargs key p msg r. split.
  - intros Hkey. unfold r. rewrite proxyCB_non_string_key by done. cbn [fst snd].
    split_and!; try done. intros ops. by apply pending_forever.
  - intros id_ Hkey Hid.
    assert (E : r = exec (NewPromise
                 (fun p => rpcInvoke (JStr id_) msg (fun err _ => Resolve p err done_))
                 (fun p => Ret (JPromise p))) m)
      by (by apply proxyCB_literal_key).
    split; [exact E|]. rewrite E. cbn [exec].
    pose proof (rpcInvoke_started (set_promises (promises m ++ [Pending]) m) (JStr id_) msg
                  (fun err _ => Resolve p err done_) Hst
                  (proj2 (reachable_consistent X m Hr))) as H.
    cbn zeta in H. fold p.
    destruct (exec (rpcInvoke (JStr id_) msg (fun err _ => Resolve p err done_))
                (set_promises (promises m ++ [Pending]) m)) as [m1 c].
    cbn [fst snd] in H. destruct H as (-> & Hd & Ho & _).
    cbn [exec fst snd]. done.
Qed.

Lemma started7_reachable : reachable Sample.X Sample.started7.
Proof.
  exists {[ 7 := Sample.opts7 ]}, (Some 7), Sample.started_ops.
  split; [|reflexivity]. intros l [= <-]. by rewrite lookup_singleton_eq.
Qed.

Lemma specified_target_key_witness :
  reachable Sample.X Sample.started7
  ∧ state (this Sample.started7) = STATE_STARTED
  ∧ 2 ≤ length [JNum 3; JFun "done"]
  ∧ typeof (hd JUndefined [JNum 3; JFun "done"]) ≠ "string"
  ∧ ∀ ops,
      promises (run Sample.X ops
                  (exec (proxyCB Sample.X "chatRemote" "add" [JNum 3; JFun "done"]
                           Sample.chat true) Sample.started7).1)
        !! length (promises Sample.started7) = Some Pending.
Proof.
  assert (H1 : 2 ≤ length [JNum 3; JFun "done"]) by (simpl; lia).
  assert (H2 : typeof (hd JUndefined [JNum 3; JFun "done"]) ≠ "string")
    by (intros E; discriminate E).
  split; [exact started7_reachable|]. split; [reflexivity|].
  split; [exact H1|]. split; [exact H2|].
  exact (proj2 (proj2 (proj2
    (proj1 (specified_target_key Sample.X Sample.started7 "chatRemote" "add"
              [JNum 3; JFun "done"] Sample.chat started7_reachable eq_refl H1) H2)))).
Defined.

(** The claim of C3 fails: on the started sample client,
    chatRemote.add.toServer(3, done) returns promise 0, and no sequence of
    operations and answers ever settles it, so the rejection of the key is
    never delivered as the failure of the call. *)
Lemma non_string_key_left_unresolved :
  ¬ ∃ ops,
      settled (run Sample.X ops
                 (exec (proxyCB Sample.X "chatRemote" "add" [JNum 3; JFun "done"]
                          Sample.chat true) Sample.started7).1) 0.
Proof.
  intros (ops & s & Hs & Hne).
  pose proof (pending_forever Sample.X Sample.started7
                (exec (proxyCB Sample.X "chatRemote" "add" [JNum 3; JFun "done"]
                         Sample.chat true) Sample.started7).1
                ops started7_reachable eq_refl eq_refl) as H.
  apply Hne. enough (Some s = Some Pending) as [= ->] by done.
  rewrite <- Hs. exact H.
Qed.

(** ** Precondition failures of a proxy call *)

(** C1, as the code has it.  When the client is not started, or the call has
    fewer than two arguments, proxyCB creates a promise rejected with the
    error and drops it: the call returns undefined, not that promise.  The
    station is not called and no callback is left outstanding. *)
Theorem proxyCB_precondition_drops_rejection (X : Externals) (m : Machine)
    (serviceName methodName : string) (args_ : list jsval) (attach : RemoteServerCode)
    (isToSpecifiedServer : bool) :
  state (this m) ≠ STATE_STARTED ∨ length args_ < 2 →
  let r := exec (proxyCB X serviceName methodName args_ attach isToSpecifiedServer) m in
  r.2 = Normal JUndefined
  ∧ (promises r.1
     = promises m ++ [Rejected (JError
         (if negb (state (this m) =? STATE_STARTED)%Z
          then "[pinus-rpc] fail to invoke rpc proxy for client is not running"
          else "[pinus-rpc] invalid rpc invoke, arguments length less than 2"))])
  ∧ dispatches r.1 = dispatches m
  ∧ outstanding r.1 = outstanding m.
Proof.
  intros Hpre. unfold proxyCB. cbn [exec].
  destruct (Z.eqb_spec (state (this m)) STATE_STARTED) as [E|E]; cbn [negb].
  - destruct Hpre as [Hpre|Hpre]; [contradiction|].
    rewrite (proj2 (Nat.ltb_lt _ _) Hpre). cbn [exec fst snd].
    split_and!; try done. unfold dispatches. cbn. rewrite omap_app. cbn. apply app_nil_r.
  - cbn [exec fst snd]. done.
Qed.

Lemma proxyCB_precondition_drops_rejection_witness :
  (state (this Sample.fresh_client) ≠ STATE_STARTED ∨ length [JStr "chat-1"; JFun "done"] < 2)
  ∧ (exec (proxyCB Sample.X "chatRemote" "add" [JStr "chat-1"; JFun "done"] Sample.chat true)
          Sample.fresh_client).2 = Normal JUndefined.
Proof.
  assert (H : state (this Sample.fresh_client) ≠ STATE_STARTED
              ∨ length [JStr "chat-1"; JFun "done"] < 2)
    by (left; intros E; discriminate E).
  split; [exact H|].
  exact (proj1 (proxyCB_precondition_drops_rejection Sample.X Sample.fresh_client
                  "chatRemote" "add" [JStr "chat-1"; JFun "done"] Sample.chat true H)).
Defined.

(** ** The state over time *)

Lemma start_inited (m : Machine) (cb : jsval) :
  state (this m) = STATE_INITED →
  (exec (start cb) m).1
  = defer AskStart (fun err _ => start_callback cb err) (emit EvStationStart m).
Proof. intros Hst. unfold start. cbn [exec]. by rewrite Hst. Qed.

Lemma reply_start_success (m : Machine) (i : nat) (cb err b : jsval) :
  outstanding m !! i
  = Some (Some {| asked := AskStart; callback := fun err _ => start_callback cb err |}) →
  truthy err = false →
  state (this (reply i err b m)) = STATE_STARTED
  ∧ outstanding (reply i err b m) = <[i := None]> (outstanding m).
Proof.
  intros Hi Herr. unfold reply. rewrite Hi. cbn [callback]. unfold start_callback.
  rewrite Herr. done.
Qed.

Lemma stop_started (m : Machine) (force : bool) :
  state (this m) = STATE_STARTED →
  state (this (exec (stop force) m).1) = STATE_CLOSED
  ∧ outstanding (exec (stop force) m).1 = outstanding m.
Proof. intros Hst. unfold stop. cbn [exec]. by rewrite Hst. Qed.

(** C8, as the code has it.  start(cb1) and start(cb2) are both called in
    state INITED, before the station has answered; the station answers the
    first call with success, the owner stops the client, the station answers
    the second call with success: the client goes INITED, STARTED, CLOSED and
    back to STARTED. *)
Theorem second_start_reopens_closed_client (X : Externals) (m : Machine) (cb1 cb2 : jsval)
    (force : bool) :
  state (this m) = STATE_INITED →
  let n := length (outstanding m) in
  states X [op_start cb1; op_start cb2; op_reply n JUndefined JUndefined; op_stop force;
            op_reply (S n) JUndefined JUndefined] m
  = [STATE_INITED; STATE_INITED; STATE_INITED; STATE_STARTED; STATE_CLOSED; STATE_STARTED].
Proof.
  intros Hst n. cbn [states step body].
  rewrite (start_inited m cb1 Hst).
  set (m1 := defer AskStart (fun err _ => start_callback cb1 err) (emit EvStationStart m)).
  assert (Hst1 : state (this m1) = STATE_INITED) by done.
  rewrite (start_inited m1 cb2 Hst1).
  set (m2 := defer AskStart (fun err _ => start_callback cb2 err) (emit EvStationStart m1)).
  assert (Ho2 : outstanding m2
                = outstanding m
                  ++ [Some {| asked := AskStart;
                              callback := fun err _ => start_callback cb1 err |};
                      Some {| asked := AskStart;
                              callback := fun err _ => start_callback cb2 err |}]).
  { unfold m2, m1. cbn. by rewrite <- app_assoc. }
  destruct (reply_start_success m2 n cb1 JUndefined JUndefined) as [Hst3 Ho3]; [|done|].
  { rewrite Ho2. by rewrite lookup_app_r, Nat.sub_diag. }
  set (m3 := reply n JUndefined JUndefined m2) in *.
  destruct (stop_started m3 force Hst3) as [Hst4 Ho4].
  set (m4 := (exec (stop force) m3).1) in *.
  destruct (reply_start_success m4 (S n) cb2 JUndefined JUndefined) as [Hst5 _]; [|done|].
  { rewrite Ho4, Ho3, Ho2. rewrite list_lookup_insert_ne by lia.
    rewrite lookup_app_r by (unfold n; lia).
    by replace (S n - length (outstanding m)) with 1 by (unfold n; lia). }
  rewrite Hst3, Hst4, Hst5.
  change (state (this m2)) with (state (this m)).
  change (state (this m1)) with (state (this m)).
  by rewrite Hst.
Qed.

Lemma second_start_reopens_closed_client_witness :
  state (this Sample.fresh_client) = STATE_INITED
  ∧ states Sample.X Sample.restart_ops Sample.fresh_client
    = [STATE_INITED; STATE_INITED; STATE_INITED; STATE_STARTED; STATE_CLOSED; STATE_STARTED].
Proof.
  split; [reflexivity|].
  exact (second_start_reopens_closed_client Sample.X Sample.fresh_client Sample.cb1 Sample.cb2
           true eq_refl).
Defined.

Lemma foreach_rpcInvoke (m : Machine) (servers_ : list RpcServerInfo) (msg : RpcMsg)
    (next : jsval -> Eff) :
  state (this m) = STATE_STARTED →
  is_Some (heap m !! opts (this m)) →
  let r := exec (foreach servers_
                   (fun server => rpcInvoke (JStr (srv_id server)) msg
                                    (fun err _ => next err))) m in
  r.2 = Normal JUndefined
  ∧ dispatches r.1 = dispatches m ++ map (fun s => (JStr (srv_id s), msg)) servers_
  ∧ outstanding r.1
    = outstanding m
      ++ map (fun s => Some {| asked := AskDispatch (JStr (srv_id s)) msg;
                               callback := fun err _ => next err |}) servers_
  ∧ promises r.1 = promises m
  ∧ eaches r.1 = eaches m
  ∧ this r.1 = this m
  ∧ heap r.1 = heap m.
Proof.
  revert m. induction servers_ as [|s rest IH]; intros m Hst Hh.
  - cbn. by rewrite !app_nil_r.
  - cbn [foreach]. cbn zeta. rewrite exec_bind.
    pose proof (rpcInvoke_started m (JStr (srv_id s)) msg (fun err _ => next err) Hst Hh) as H.
    cbn zeta in H.
    destruct (exec (rpcInvoke (JStr (srv_id s)) msg (fun err _ => next err)) m) as [m1 c].
    cbn [fst snd] in H. destruct H as (-> & Hd & Ho & Hp & He & Ht & Hhp).
    assert (Hst1 : state (this m1) = STATE_STARTED) by (by rewrite Ht).
    assert (Hh1 : is_Some (heap m1 !! opts (this m1))) by (by rewrite Hhp, Ht).
    destruct (IH m1 Hst1 Hh1) as (R1 & R2 & R3 & R4 & R5 & R6 & R7).
    split_and!; try congruence.
    + rewrite R2, Hd. cbn [map]. by rewrite <- app_assoc.
    + rewrite R3, Ho. cbn [map]. by rewrite <- app_assoc.
Qed.

Lemma proxyCB_broadcast (X : Externals) (m : Machine) (serviceName methodName : string)
    (args_ : list jsval) (attach : RemoteServerCode) (rc : RouteContext)
    (servers_ : list RpcServerInfo) :
  state (this m) = STATE_STARTED →
  is_Some (heap m !! opts (this m)) →
  2 ≤ length args_ →
  hd JUndefined args_ = JStr "*" →
  _routeContext (this m) = Some rc →
  getServersByType rc (rec_serverType attach) = Some servers_ →
  let p := length (promises m) in
  let g := length (eaches m) in
  let n := length servers_ in
  let msg := {| namespace := rec_namespace attach;
                serverType := rec_serverType attach;
                service := serviceName;
                method := methodName;
                args := tl args_ |} in
  let r := exec (proxyCB X serviceName methodName args_ attach true) m in
  r.2 = Normal (JPromise p)
  ∧ dispatches r.1 = dispatches m ++ map (fun s => (JStr (srv_id s), msg)) servers_
  ∧ outstanding r.1
    = outstanding m
      ++ map (fun s => Some {| asked := AskDispatch (JStr (srv_id s)) msg;
                               callback := fun err _ =>
                                 iteratorCallback g n (fun err => Resolve p err done_) err |})
             servers_
  ∧ promises r.1 = promises m ++ [if (n =? 0)%nat then Fulfilled JNull else Pending]
  ∧ eaches r.1 = eaches m ++ [{| completed := 0; called := (n =? 0)%nat |}].
Proof.
  intros Hst Hh Hargs Hkey Hrc Hservers p g n msg r. unfold r, proxyCB.
  cbn [exec]. rewrite Hst. cbn [Z.eqb STATE_STARTED Pos.eqb negb].
  rewrite (proj2 (Nat.ltb_ge _ _) Hargs).
  unfold rpcToSpecifiedServer. rewrite Hkey. cbn [typeof strict_eq_str String.eqb Ascii.eqb
    Bool.eqb negb andb].
  cbn [exec this set_promises]. rewrite Hrc, Hservers.
  unfold async_each. cbn [exec eaches set_promises]. rewrite exec_bind.
  fold p g n msg.
  set (m0 := set_eaches (eaches m ++ [{| completed := 0; called := false |}])
               (set_promises (promises m ++ [Pending]) m)).
  assert (Hg : eaches m0 !! g = Some {| completed := 0; called := false |}).
  { unfold m0. cbn. by rewrite lookup_app_r, Nat.sub_diag. }
  assert (Hp : promises m0 !! p = Some Pending).
  { unfold m0. cbn. by rewrite lookup_app_r, Nat.sub_diag. }
  destruct servers_ as [|s rest].
  - subst n. cbn [length Nat.eqb once_callback exec]. rewrite Hg. cbn [called completed exec foreach].
    unfold settle. cbn [promises set_eaches]. rewrite Hp.
    cbn. unfold dispatches. cbn. rewrite !app_nil_r.
    split_and!; try done.
    + rewrite insert_app_r_alt, Nat.sub_diag; [done|]. unfold p. lia.
    + rewrite insert_app_r_alt, Nat.sub_diag; [done|]. unfold g. lia.
  - replace (n =? 0)%nat with false by (by unfold n).
    cbn [exec].
    pose proof (foreach_rpcInvoke m0 (s :: rest) msg
                  (iteratorCallback g n (fun err => Resolve p err done_)) Hst Hh) as H.
    cbn zeta in H.
    destruct (exec (foreach (s :: rest) _) m0) as [m1 c].
    cbn [fst snd] in H. destruct H as (-> & Hd & Ho & Hps & He & _).
    cbn [exec fst snd]. done.
Qed.

(** One answer to an individual invocation of a broadcast. *)
Lemma reply_each (m : Machine) (k g n p : nat) (o : Outstanding) (err resp : jsval)
    (c : nat) (d : bool) (P : PromiseState) :
  outstanding m !! k = Some (Some o) →
  callback o = (fun err _ => iteratorCallback g n (fun err => Resolve p err done_) err) →
  eaches m !! g = Some {| completed := c; called := d |} →
  promises m !! p = Some P →
  let m' := reply k err resp m in
  let s' := each_step n (c, d, P) err in
  outstanding m' = <[k := None]> (outstanding m)
  ∧ eaches m' !! g = Some {| completed := s'.1.1; called := s'.1.2 |}
  ∧ promises m' !! p = Some s'.2.
Proof.
  intros Hk Hcb Hg Hp.
  pose proof (lookup_lt_Some _ _ _ Hg) as Lg.
  pose proof (lookup_lt_Some _ _ _ Hp) as Lp.
  unfold reply. rewrite Hk, Hcb. unfold iteratorCallback, once_callback, each_step.
  destruct (truthy err).
  - cbn [exec eaches set_outstanding]. rewrite Hg. cbn [called completed].
    destruct d; cbn [exec fst snd outstanding set_eaches set_outstanding eaches promises].
    + rewrite list_lookup_insert_eq by done. done.
    + rewrite outstanding_settle. unfold settle.
      cbn [promises set_eaches set_outstanding]. rewrite Hp.
      destruct P; cbn [eaches set_promises set_eaches promises outstanding set_outstanding];
        rewrite ?list_lookup_insert_eq by done; done.
  - cbn [exec eaches set_outstanding]. rewrite Hg. cbn [called completed].
    destruct (S c =? n)%nat.
    + cbn [exec eaches set_eaches]. rewrite list_lookup_insert_eq by done.
      cbn [called completed]. rewrite list_insert_insert_eq.
      destruct d; cbn [exec fst snd outstanding set_eaches set_outstanding eaches promises].
      * rewrite list_lookup_insert_eq by done. done.
      * rewrite outstanding_settle. unfold settle.
        cbn [promises set_eaches set_outstanding]. rewrite Hp.
        destruct P; cbn [eaches set_promises set_eaches promises outstanding set_outstanding];
          rewrite ?list_lookup_insert_eq by done; done.
    + cbn [exec fst snd outstanding set_eaches set_outstanding eaches promises].
      rewrite list_lookup_insert_eq by done. done.
Qed.

(** The answers to the individual invocations of a broadcast, one after the
    other. *)
Lemma replies_each (X : Externals) (base g n p : nat)
    (answers : list (nat * jsval * jsval)) (m : Machine) (s : EachView) :
  NoDup (answers.*1.*1) →
  (∀ a, a ∈ answers →
     ∃ o, outstanding m !! (base + a.1.1) = Some (Some o)
          ∧ callback o
            = (fun err _ => iteratorCallback g n (fun err => Resolve p err done_) err)) →
  eaches m !! g = Some {| completed := s.1.1; called := s.1.2 |} →
  promises m !! p = Some s.2 →
  let m' := run X (map (answer base) answers) m in
  let s' := foldl (each_step n) s (answers.*1.*2) in
  eaches m' !! g = Some {| completed := s'.1.1; called := s'.1.2 |}
  ∧ promises m' !! p = Some s'.2.
Proof.
  revert m s. induction answers as [|[[i err] resp] rest IH]; intros m s Hnd Hout Hg Hp.
  - done.
  - cbn [map run foldl fmap list_fmap fst snd answer step] in *.
    apply NoDup_cons in Hnd as [Hi Hnd].
    destruct (Hout (i, err, resp)) as (o & Ho & Hcb); [left|].
    destruct s as [[c d] P]. cbn [fst snd] in *.
    destruct (reply_each m (base + i) g n p o err resp c d P Ho Hcb Hg Hp) as (Hout' & Hg' & Hp').
    apply IH; auto.
    intros a Ha. destruct (Hout a) as (o' & Ho' & Hcb'); [by right|].
    exists o'. split; [|done]. rewrite Hout'.
    rewrite list_lookup_insert_ne; [done|].
    intros E. apply Hi. assert (i = a.1.1) as -> by lia.
    apply list_elem_of_fmap. exists a.1. split; [done|].
    apply list_elem_of_fmap. by exists a.
Qed.

Lemma find_truthy_snoc (errs : list jsval) (e : jsval) :
  List.find truthy (errs ++ [e])
  = match List.find truthy errs with
    | Some x => Some x
    | None => if truthy e then Some e else None
    end.
Proof.
  induction errs as [|x errs IH]; simpl; [done|]. by destruct (truthy x).
Qed.

Lemma find_truthy_filter (errs : list jsval) :
  match List.find truthy errs with
  | Some _ => length (List.filter falsy errs) < length errs
  | None => length (List.filter falsy errs) = length errs
  end.
Proof.
  induction errs as [|x errs IH]; simpl; [done|].
  unfold falsy in *. destruct (truthy x); simpl.
  - pose proof (List.filter_length_le (fun v => negb (truthy v)) errs). lia.
  - destruct (List.find truthy errs); simpl; lia.
Qed.

(** What the counters and the promise of a broadcast over [n] servers are
    after the individual invocations have reported [errs]. *)
Lemma each_steps_aggregate (n : nat) (errs : list jsval) :
  0 < n →
  length errs ≤ n →
  foldl (each_step n) (0, false, Pending) errs
  = (length (List.filter falsy errs), negb (is_pending (aggregate n errs)), aggregate n errs).
Proof.
  intros Hn. induction errs as [|e errs IH] using rev_ind; intros Hlen.
  - cbn. unfold aggregate. cbn. by rewrite (proj2 (Nat.leb_gt _ _)) by lia.
  - rewrite length_app in Hlen. cbn in Hlen.
    rewrite foldl_app, IH by lia. cbn [foldl].
    rewrite List.filter_app, length_app. cbn [List.filter].
    unfold aggregate. rewrite find_truthy_snoc, length_app. cbn [length].
    pose proof (find_truthy_filter errs) as Hf.
    set (c := length (List.filter falsy errs)) in *.
    unfold each_step, falsy.
    destruct (List.find truthy errs) as [x|].
    + destruct (truthy e); [|destruct (Nat.eqb_spec (S c) n) as [E|E]];
        simpl; rewrite ?Nat.add_0_r, ?Nat.add_1_r; done.
    + rewrite (proj2 (Nat.leb_gt _ _)) by lia.
      destruct (truthy e); [|destruct (Nat.eqb_spec (S c) n) as [E|E]];
        cbn [negb length is_pending app]; rewrite ?Nat.add_0_r, ?Nat.add_1_r; [done| |].
      * by rewrite (proj2 (Nat.leb_le _ _)) by lia.
      * by rewrite (proj2 (Nat.leb_gt _ _)) by lia.
Qed.

Lemma proxyCB_no_servers (X : Externals) (m : Machine) (serviceName methodName : string)
    (args_ : list jsval) (attach : RemoteServerCode) (rc : RouteContext) :
  state (this m) = STATE_STARTED →
  2 ≤ length args_ →
  hd JUndefined args_ = JStr "*" →
  _routeContext (this m) = Some rc →
  getServersByType rc (rec_serverType attach) = None →
  exec (proxyCB X serviceName methodName args_ attach true) m
  = (emit (EvLogger lvl_error "[pinus-rpc] serverType %s servers not exist"
             [JStr (rec_serverType attach)])
       (set_promises (promises m ++ [Pending]) m),
     Normal (JPromise (length (promises m)))).
Proof.
  intros Hst Hargs Hkey Hrc Hservers. unfold proxyCB.
  cbn [exec]. rewrite Hst. cbn [Z.eqb STATE_STARTED Pos.eqb negb].
  rewrite (proj2 (Nat.ltb_ge _ _) Hargs).
  unfold rpcToSpecifiedServer. rewrite Hkey. cbn [typeof strict_eq_str String.eqb Ascii.eqb
    Bool.eqb negb andb].
  cbn [exec this set_promises]. rewrite Hrc, Hservers. reflexivity.
Qed.

Lemma distinct_below (n : nat) (l : list nat) :
  NoDup l → (∀ i, i ∈ l → i < n) → length l ≤ n.
Proof.
  intros Hnd Hlt. transitivity (length (seq 0 n)); [|by rewrite length_seq].
  apply submseteq_length, NoDup_submseteq; [done|].
  intros i Hi. apply elem_of_seq. specialize (Hlt i Hi). lia.
Qed.

(** C2, as the code has it.  A wildcard call on a started client with a
    route context.  When the context has no server list for the serverType
    of the message, the call logs the error, dispatches nothing, leaves no
    callback outstanding and its promise is pending for ever.  When it has a
    list, the message is dispatched once to every server of the list, in
    order, and after the individual invocations have reported in any order,
    the promise of the call is fulfilled with the first error reported, or
    fulfilled with null when all servers have reported without error, and
    pending otherwise. *)
Theorem broadcast_to_all (X : Externals) (m : Machine) (serviceName methodName : string)
    (args_ : list jsval) (attach : RemoteServerCode) (rc : RouteContext) :
  reachable X m →
  state (this m) = STATE_STARTED →
  2 ≤ length args_ →
  hd JUndefined args_ = JStr "*" →
  _routeContext (this m) = Some rc →
  let p := length (promises m) in
  let base := length (outstanding m) in
  let msg := {| namespace := rec_namespace attach;
                serverType := rec_serverType attach;
                service := serviceName;
                method := methodName;
                args := tl args_ |} in
  let r := exec (proxyCB X serviceName methodName args_ attach true) m in
  (getServersByType rc (rec_serverType attach) = None →
     r.2 = Normal (JPromise p)
     ∧ trace r.1 = trace m ++ [EvLogger lvl_error "[pinus-rpc] serverType %s servers not exist"
                                  [JStr (rec_serverType attach)]]
     ∧ outstanding r.1 = outstanding m
     ∧ ∀ ops, promises (run X ops r.1) !! p = Some Pending)
  ∧
  (∀ servers_, getServersByType rc (rec_serverType attach) = Some servers_ →
     r.2 = Normal (JPromise p)
     ∧ dispatches r.1 = dispatches m ++ map (fun s => (JStr (srv_id s), msg)) servers_
     ∧ length (outstanding r.1) = base + length servers_
     ∧ ∀ answers : list (nat * jsval * jsval),
         NoDup (answers.*1.*1) →
         (∀ a, a ∈ answers → a.1.1 < length servers_) →
         promises (run X (map (answer base) answers) r.1) !! p
         = Some (aggregate (length servers_) (answers.*1.*2))).
Proof.
  intros Hr Hst Hargs Hkey Hrc p base msg r. split.
  - intros Hnone. unfold r. rewrite (proxyCB_no_servers X m _ _ _ _ rc) by done.
    cbn [fst snd]. split_and!; try done. intros ops. by apply pending_forever.
  - intros servers_ Hsome.
    destruct (proxyCB_broadcast X m serviceName methodName args_ attach rc servers_
                Hst (proj2 (reachable_consistent X m Hr)) Hargs Hkey Hrc Hsome)
      as (R1 & R2 & R3 & R4 & R5).
    fold r p msg in R1, R2, R3, R4, R5.
    split_and!; try done.
    { rewrite R3, length_app, length_map. done. }
    intros answers Hnd Hlt.
    destruct (decide (length servers_ = 0)) as [E0|Hpos].
    + destruct answers as [|a rest].
      * change (run X (map (answer base) []) r.1) with r.1.
        rewrite R4, E0. unfold aggregate. cbn. by rewrite lookup_app_r, Nat.sub_diag.
      * specialize (Hlt a (list_elem_of_here _ _)). lia.
    + assert (Hlen : length (answers.*1.*2) ≤ length servers_).
      { rewrite !length_fmap. rewrite <- (length_fmap fst), <- (length_fmap fst).
        apply distinct_below; [done|].
        intros i Hi. apply list_elem_of_fmap in Hi as (b & -> & Hb).
        apply list_elem_of_fmap in Hb as (a & -> & Ha). by apply Hlt. }
      destruct (replies_each X base (length (eaches m)) (length servers_) p answers r.1
                  (0, false, Pending) Hnd) as [_ HP].
      * intros a Ha. specialize (Hlt a Ha).
        destruct (lookup_lt_is_Some_2 servers_ a.1.1 Hlt) as [s Hs].
        exists {| asked := AskDispatch (JStr (srv_id s)) msg;
                  callback := fun err _ =>
                    iteratorCallback (length (eaches m)) (length servers_)
                      (fun err => Resolve p err done_) err |}.
        split; [|reflexivity].
        rewrite R3. rewrite lookup_app_r by (unfold base; lia).
        replace (base + a.1.1 - length (outstanding m)) with a.1.1 by (unfold base; lia).
        rewrite list_lookup_fmap, Hs. reflexivity.
      * rewrite R5. rewrite lookup_app_r, Nat.sub_diag by done.
        cbn. by rewrite (proj2 (Nat.eqb_neq _ _) Hpos).
      * rewrite R4. rewrite lookup_app_r, Nat.sub_diag by done.
        cbn. by rewrite (proj2 (Nat.eqb_neq _ _) Hpos).
      * cbn zeta in HP. rewrite HP. rewrite each_steps_aggregate by (done || lia). done.
Qed.

Lemma broadcast_to_all_witness :
  reachable Sample.X Sample.started7
  ∧ state (this Sample.started7) = STATE_STARTED
  ∧ 2 ≤ length [JStr "*"; JFun "done"]
  ∧ hd JUndefined [JStr "*"; JFun "done"] = JStr "*"
  ∧ _routeContext (this Sample.started7) = Some Sample.rc
  ∧ getServersByType Sample.rc (rec_serverType Sample.chat) = Some Sample.chat_servers
  ∧ dispatches (exec (proxyCB Sample.X "chatRemote" "add" [JStr "*"; JFun "done"]
                        Sample.chat true) Sample.started7).1
    = dispatches Sample.started7
      ++ map (fun s => (JStr (srv_id s), Sample.msg_add)) Sample.chat_servers
  ∧ NoDup ([(1, JNull, JNull); (0, JError "down", JUndefined)] : list (nat * jsval * jsval)).*1.*1
  ∧ promises
      (run Sample.X
         (map (answer (length (outstanding Sample.started7)))
            [(1, JNull, JNull); (0, JError "down", JUndefined)])
         (exec (proxyCB Sample.X "chatRemote" "add" [JStr "*"; JFun "done"]
                  Sample.chat true) Sample.started7).1)
      !! length (promises Sample.started7)
    = Some (Fulfilled (JError "down"))
  ∧ getServersByType Sample.rc (rec_serverType Sample.gate) = None
  ∧ ∀ ops,
      promises (run Sample.X ops
                  (exec (proxyCB Sample.X "gateRemote" "kick" [JStr "*"; JFun "done"]
                           Sample.gate true) Sample.started7).1)
        !! length (promises Sample.started7) = Some Pending.
Proof.
  assert (H1 : 2 ≤ length [JStr "*"; JFun "done"]) by (simpl; lia).
  assert (Hnd : NoDup ([(1, JNull, JNull); (0, JError "down", JUndefined)]
                         : list (nat * jsval * jsval)).*1.*1).
  { apply (bool_decide_unpack _). vm_compute. exact I. }
  assert (Hlt : ∀ a : nat * jsval * jsval,
             a ∈ [(1, JNull, JNull); (0, JError "down", JUndefined)] →
             a.1.1 < length Sample.chat_servers).
  { intros a Ha. apply elem_of_cons in Ha as [->|Ha]; [simpl; lia|].
    apply elem_of_cons in Ha as [->|Ha]; [simpl; lia|]. by apply elem_of_nil in Ha. }
  pose proof (broadcast_to_all Sample.X Sample.started7 "chatRemote" "add"
                [JStr "*"; JFun "done"] Sample.chat Sample.rc
                started7_reachable eq_refl H1 eq_refl eq_refl) as [_ Hb].
  pose proof (broadcast_to_all Sample.X Sample.started7 "gateRemote" "kick"
                [JStr "*"; JFun "done"] Sample.gate Sample.rc
                started7_reachable eq_refl H1 eq_refl eq_refl) as [Ha _].
  destruct (Hb Sample.chat_servers eq_refl) as (_ & Hd & _ & Hagg).
  destruct (Ha eq_refl) as (_ & _ & _ & Hpend).
  split; [exact started7_reachable|]. split; [reflexivity|]. split; [exact H1|].
  split; [reflexivity|]. split; [reflexivity|]. split; [reflexivity|].
  split; [exact Hd|]. split; [exact Hnd|].
  split; [exact (Hagg _ Hnd Hlt)|]. split; [reflexivity|]. exact Hpend.
Defined.

(** The claim of C2 fails: on the started sample client, whose route
    context has no server list for type "gate", the wildcard call
    gateRemote.kick.toServer("*", done) returns promise 0, and no sequence of
    operations and answers ever settles it: the call does not fail with a
    server-type-not-found error. *)
Lemma broadcast_unknown_type_left_unresolved :
  ¬ ∃ ops,
      settled (run Sample.X ops
                 (exec (proxyCB Sample.X "gateRemote" "kick" [JStr "*"; JFun "done"]
                          Sample.gate true) Sample.started7).1) 0.
Proof.
  intros (ops & s & Hs & Hne).
  pose proof (pending_forever Sample.X Sample.started7
                (exec (proxyCB Sample.X "gateRemote" "kick" [JStr "*"; JFun "done"]
                         Sample.gate true) Sample.started7).1
                ops started7_reachable eq_refl eq_refl) as H.
  apply Hne. enough (Some s = Some Pending) as [= ->] by done.
  rewrite <- Hs. exact H.
Qed.

(** With three servers, the first error completes the broadcast while two
    individual invocations are still outstanding. *)
Example broadcast_completes_at_first_error :
  let m := run Sample.X [op_reply 2 (JError "down") JUndefined]
             (exec (proxyCB Sample.X "chatRemote" "add" [JStr "*"; JFun "done"]
                      Sample.chat true) Sample.started7).1 in
  promises m !! 0 = Some (Fulfilled (JError "down"))
  ∧ length (List.filter (fun o => bool_decide (is_Some o)) (outstanding m)) = 2.
Proof. split; reflexivity. Qed.

(** * Further properties of the client *)

Lemma reachable_run (X : Externals) (ops : list Op) (m : Machine) :
  reachable X m → reachable X (run X ops m).
Proof.
  intros (h & opts_ & ops0 & Hl & ->). exists h, opts_, (ops0 ++ ops).
  split; [done|]. unfold run. by rewrite foldl_app.
Qed.

Lemma client7_reachable : reachable Sample.X Sample.client7.
Proof.
  exists {[ 7 := Sample.opts7 ]}, (Some 7), [].
  split; [|reflexivity]. intros l [= <-]. by rewrite lookup_singleton_eq.
Qed.

Lemma started_wrr_reachable : reachable Sample.X Sample.started_wrr.
Proof.
  exists {[ 0 := Sample.opts_wrr ]}, (Some 0), Sample.started_ops.
  split; [|reflexivity]. intros l [= <-]. by rewrite lookup_singleton_eq.
Qed.

Lemma calls_emit (ev : Event) (m : Machine) :
  calls (emit ev m) = calls m ++ from_option (fun c => [c]) [] (is_call ev).
Proof.
  unfold calls. simpl. rewrite omap_app. simpl. by destruct (is_call ev).
Qed.

(** ** Direct invoke *)

(** X1.  rpcInvoke on a client that is not started (before start has
    succeeded, or after stop) calls its callback once, with the not-running
    error, and does nothing to the station: no dispatch, no request left
    outstanding; the state is unchanged. *)
Theorem rpcInvoke_fails_when_not_started (X : Externals) (m : Machine) (serverId : jsval)
    (msg : RpcMsg) (cb : jsval) :
  reachable X m →
  state (this m) ≠ STATE_STARTED →
  let r := exec (rpcInvoke serverId msg (user_cb cb)) m in
  r.2 = Normal JUndefined
  ∧ calls r.1
    = calls m ++ [(cb, [JError "[pinus-rpc] fail to do rpc invoke for client is not running";
                        JUndefined])]
  ∧ dispatches r.1 = dispatches m
  ∧ outstanding r.1 = outstanding m
  ∧ state (this r.1) = state (this m).
Proof.
  intros Hr Hst. destruct (proj2 (reachable_consistent X m Hr)) as [o Ho].
  unfold rpcInvoke. cbn [exec].
  destruct (Z.eqb_spec (state (this m)) STATE_STARTED) as [E|_]; [contradiction|].
  cbn [negb].
  destruct (truthy (rpcDebugLog (this m))); cbn [exec]; [rewrite Ho; cbn [exec]|];
    (split_and!; try done;
     unfold calls, dispatches; cbn; rewrite ?omap_app; cbn; by rewrite ?app_nil_r).
Qed.

Lemma rpcInvoke_fails_when_not_started_witness :
  reachable Sample.X Sample.client7
  ∧ state (this Sample.client7) ≠ STATE_STARTED
  ∧ dispatches (exec (rpcInvoke (JStr "chat-1") Sample.msg_add (user_cb Sample.cb2))
                  Sample.client7).1
    = dispatches Sample.client7.
Proof.
  assert (H : state (this Sample.client7) ≠ STATE_STARTED) by (intros E; discriminate E).
  split; [exact client7_reachable|]. split; [exact H|].
  exact (proj1 (proj2 (proj2
    (rpcInvoke_fails_when_not_started Sample.X Sample.client7 (JStr "chat-1") Sample.msg_add
       Sample.cb2 client7_reachable H)))).
Defined.

(** X2.  rpcInvoke on a started client calls the station's dispatch once,
    with the server id and the message it was given, and does not call its
    callback; when the station answers, the callback is called once with the
    two values of the answer, unchanged, and nothing else is dispatched. *)
Theorem rpcInvoke_forwards_answer (X : Externals) (m : Machine) (serverId : jsval)
    (msg : RpcMsg) (cb a b : jsval) :
  reachable X m →
  state (this m) = STATE_STARTED →
  let m1 := (exec (rpcInvoke serverId msg (user_cb cb)) m).1 in
  let m2 := reply (length (outstanding m)) a b m1 in
  dispatches m1 = dispatches m ++ [(serverId, msg)]
  ∧ calls m1 = calls m
  ∧ calls m2 = calls m ++ [(cb, [a; b])]
  ∧ dispatches m2 = dispatches m1
  ∧ outstanding m2 = outstanding m ++ [None].
Proof.
  intros Hr Hst. destruct (proj2 (reachable_consistent X m Hr)) as [o Ho].
  unfold rpcInvoke. cbn [exec]. rewrite Hst.
  cbn [Z.eqb STATE_STARTED Pos.eqb negb].
  destruct (truthy (rpcDebugLog (this m))); cbn [exec]; [rewrite Ho; cbn [exec]|];
    cbn zeta; unfold reply; cbn [fst outstanding defer set_outstanding emit];
    rewrite lookup_app_r, Nat.sub_diag by done; cbn [lookup list_lookup callback user_cb exec fst];
    (split_and!;
     [ unfold dispatches; cbn; rewrite ?omap_app; cbn; by rewrite ?app_nil_r
     | unfold calls; cbn; rewrite ?omap_app; cbn; by rewrite ?app_nil_r
     | unfold calls; cbn; rewrite ?omap_app; cbn; by rewrite ?app_nil_r
     | unfold dispatches; cbn; rewrite ?omap_app; cbn; by rewrite ?app_nil_r
     | cbn; rewrite insert_app_r_alt, Nat.sub_diag by done; done ]).
Qed.

Lemma rpcInvoke_forwards_answer_witness :
  reachable Sample.X Sample.started7
  ∧ state (this Sample.started7) = STATE_STARTED
  ∧ calls (reply (length (outstanding Sample.started7)) JNull (JStr "ok")
             (exec (rpcInvoke (JStr "chat-1") Sample.msg_add (user_cb Sample.cb2))
                Sample.started7).1)
    = calls Sample.started7 ++ [(Sample.cb2, [JNull; JStr "ok"])].
Proof.
  split; [exact started7_reachable|]. split; [reflexivity|].
  exact (proj1 (proj2 (proj2
    (rpcInvoke_forwards_answer Sample.X Sample.started7 (JStr "chat-1") Sample.msg_add
       Sample.cb2 JNull (JStr "ok") started7_reachable eq_refl)))).
Defined.

(** ** Lifecycle *)

(** X3.  start on a client in state INITED calls the station's start once
    and nothing else; when the station then answers without error, the client
    registers its listener for the station's error event, becomes STARTED and
    calls the callback of start with no arguments. *)
Theorem start_succeeds (m : Machine) (cb a b : jsval) :
  state (this m) = STATE_INITED →
  truthy a = false →
  let m1 := (exec (start cb) m).1 in
  let m2 := reply (length (outstanding m)) a b m1 in
  trace m1 = trace m ++ [EvStationStart]
  ∧ state (this m1) = STATE_INITED
  ∧ trace m2 = trace m ++ [EvStationStart; EvStationOn "error"; EvCall cb []]
  ∧ state (this m2) = STATE_STARTED
  ∧ outstanding m2 = outstanding m ++ [None].
Proof.
  intros Hst Ha. cbn zeta. rewrite (start_inited m cb Hst).
  unfold reply. cbn [outstanding defer set_outstanding emit].
  rewrite lookup_app_r, Nat.sub_diag by done.
  cbn [lookup list_lookup callback]. unfold start_callback. rewrite Ha.
  cbn. rewrite <- !app_assoc. split_and!; try done.
  by rewrite insert_app_r_alt, Nat.sub_diag by done.
Qed.

Lemma start_succeeds_witness :
  state (this Sample.client7) = STATE_INITED
  ∧ truthy JUndefined = false
  ∧ state (this (reply (length (outstanding Sample.client7)) JUndefined JUndefined
                   (exec (start Sample.cb1) Sample.client7).1)) = STATE_STARTED.
Proof.
  split; [reflexivity|]. split; [reflexivity|].
  exact (proj1 (proj2 (proj2 (proj2
    (start_succeeds Sample.client7 Sample.cb1 JUndefined JUndefined eq_refl eq_refl))))).
Defined.

Lemma stop_not_started (m : Machine) (force : bool) :
  state (this m) ≠ STATE_STARTED →
  (exec (stop force) m).1
  = emit (EvLogger lvl_warn "[pinus-rpc] client is not running now." []) m.
Proof.
  intros Hst. unfold stop. cbn [exec].
  by destruct (Z.eqb_spec (state (this m)) STATE_STARTED).
Qed.

Lemma stops_after_close (X : Externals) (forces : list bool) (m : Machine) :
  state (this m) = STATE_CLOSED →
  state (this (run X (map op_stop forces) m)) = STATE_CLOSED
  ∧ station_stops (run X (map op_stop forces) m) = station_stops m
  ∧ outstanding (run X (map op_stop forces) m) = outstanding m.
Proof.
  revert m. induction forces as [|f forces IH]; intros m Hst; [done|].
  change (run X (map op_stop (f :: forces)) m)
    with (run X (map op_stop forces) (exec (stop f) m).1).
  assert (Hne : state (this m) ≠ STATE_STARTED) by (rewrite Hst; discriminate).
  rewrite (stop_not_started m f Hne).
  destruct (IH (emit (EvLogger lvl_warn "[pinus-rpc] client is not running now." []) m) Hst)
    as (H1 & H2 & H3).
  split_and!; [exact H1| |exact H3].
  rewrite H2. unfold station_stops. cbn. rewrite omap_app. cbn. apply app_nil_r.
Qed.

(** X4.  stop is idempotent: on a started client, one stop followed by any
    number of further stops calls the station's stop exactly once, with the
    force flag of the first stop, and leaves the client CLOSED. *)
Theorem stop_is_idempotent (X : Externals) (m : Machine) (force : bool)
    (forces : list bool) :
  state (this m) = STATE_STARTED →
  let m' := run X (map op_stop (force :: forces)) m in
  state (this m') = STATE_CLOSED
  ∧ station_stops m' = station_stops m ++ [force]
  ∧ outstanding m' = outstanding m.
Proof.
  intros Hst.
  change (run X (map op_stop (force :: forces)) m)
    with (run X (map op_stop forces) (exec (stop force) m).1).
  cbn zeta. destruct (stop_started m force Hst) as [Hc Ho].
  destruct (stops_after_close X forces (exec (stop force) m).1 Hc) as (H1 & H2 & H3).
  split_and!; [exact H1| |by rewrite H3].
  rewrite H2. unfold stop. cbn [exec]. rewrite Hst. cbn.
  unfold station_stops. cbn. rewrite omap_app. done.
Qed.

Lemma stop_is_idempotent_witness :
  state (this Sample.started7) = STATE_STARTED
  ∧ station_stops (run Sample.X (map op_stop [true; false; true]) Sample.started7)
    = station_stops Sample.started7 ++ [true].
Proof.
  split; [reflexivity|].
  exact (proj1 (proj2
    (stop_is_idempotent Sample.X Sample.started7 true [false; true] eq_refl))).
Defined.

(** ** What construction fixes *)

Lemma config_settle (p : nat) (s : PromiseState) (m : Machine) :
  config (settle p s m) = config m.
Proof. unfold settle. by destruct (promises m !! p) as [[]|]. Qed.

Lemma exec_config (e : Eff) (m : Machine) : config (exec e m).1 = config m.
Proof.
  revert m. eff_induction e; intros m; simpl; auto;
    try (match goal with
         | |- config (exec _ ?m').1 = _ =>
             first [apply (IH m') | apply (IH _ m')]
         end; fail).
  - destruct (heap m !! l); simpl; auto.
  - destruct (exec (ex (length (promises m))) _) as [m1 c] eqn:E.
    pose proof (IHex (length (promises m)) (set_promises (promises m ++ [Pending]) m)) as H.
    rewrite E in H. simpl in H. rewrite IH.
    destruct c; [done|]. by rewrite config_settle.
  - rewrite IH. apply config_settle.
  - rewrite IH. apply config_settle.
  - destruct (eaches m !! g); simpl; auto.
    match goal with |- config (exec _ ?m').1 = _ => apply (IH _ m') end.
  - destruct (eaches m !! g); simpl; auto.
    match goal with |- config (exec _ ?m').1 = _ => apply (IH _ m') end.
Qed.

Lemma step_config (X : Externals) (op : Op) (m : Machine) : config (step X op m) = config m.
Proof.
  destruct op; cbn [step body]; try apply exec_config.
  unfold reply. destruct (outstanding m !! i) as [[o|]|]; try done.
  apply (exec_config _ (set_outstanding _ m)).
Qed.

Lemma run_config (X : Externals) (ops : list Op) (m : Machine) :
  config (run X ops m) = config m.
Proof.
  revert m. induction ops as [|op ops IH]; intros m; [done|].
  cbn [run foldl]. etrans; [apply IH|apply step_config].
Qed.

Lemma config_new (h : gmap loc RpcClientOpts) (l : loc) (o : RpcClientOpts) :
  h !! l = Some o →
  config (RpcClient_new h (Some l))
  = (o_context o, o_routeContext o, js_or (o_router o) router_df, o_routerType o,
     o_rpcDebugLog o, l,
     if truthy (o_context o)
     then <[l := set_clientId (get_prop (o_context o) "serverId") o]> h
     else h).
Proof. intros Hl. unfold config, RpcClient_new. cbn. by rewrite Hl. Qed.

(** X6.  Every dispatch of rpcInvoke passes the reference of the options
    object the client was constructed with.  With debug logging off it passes
    no trace record and traces nothing.  With debug logging on, and a logger
    with an info function in the options (the trace record logs through it),
    it first makes a trace record from the options object, whose source is
    the clientId that the constructor wrote (context.serverId when the
    context is truthy), traces the entrance, and passes the record to the
    station. *)
Theorem dispatch_passes_options_and_tracer (X : Externals) (h : gmap loc RpcClientOpts)
    (l : loc) (o : RpcClientOpts) (ops : list Op) (serverId : jsval) (msg : RpcMsg)
    (cb : jsval -> jsval -> Eff) :
  h !! l = Some o →
  (truthy (o_rpcDebugLog o) = true → typeof (get_prop (o_rpcLogger o) "info") = "function") →
  let m := run X ops (RpcClient_new h (Some l)) in
  let o' := if truthy (o_context o)
            then set_clientId (get_prop (o_context o) "serverId") o
            else o in
  state (this m) = STATE_STARTED →
  trace (exec (rpcInvoke serverId msg cb) m).1
  = trace m
    ++ (if truthy (o_rpcDebugLog o)
        then [EvTrace lvl_info (tracer_of o' serverId msg) "client" filename_ "rpcInvoke"
                "the entrance of rpc invoke";
              EvStationDispatch (Some (tracer_of o' serverId msg)) serverId msg l]
        else [EvStationDispatch None serverId msg l]).
Proof.
  intros Hl _ m o' Hst.
  pose proof (run_config X ops (RpcClient_new h (Some l))) as Hc.
  rewrite (config_new h l o Hl) in Hc. fold m in Hc. unfold config in Hc.
  injection Hc as _ _ _ _ Hdbg Hopts Hheap.
  assert (Ho : heap m !! opts (this m) = Some o').
  { rewrite Hopts, Hheap. unfold o'.
    destruct (truthy (o_context o)); [apply lookup_insert_eq|done]. }
  unfold rpcInvoke. cbn [exec]. rewrite Hst, Hdbg.
  cbn [Z.eqb STATE_STARTED Pos.eqb negb].
  destruct (truthy (o_rpcDebugLog o)); cbn [exec].
  - rewrite Ho. cbn [exec]. rewrite Hopts. cbn. by rewrite <- app_assoc.
  - rewrite Hopts. done.
Qed.

Lemma dispatch_passes_options_and_tracer_witness :
  ({[ 3 := Scenario.opts_logged ]} : gmap loc RpcClientOpts) !! 3 = Some Scenario.opts_logged
  ∧ (truthy (o_rpcDebugLog Scenario.opts_logged) = true →
     typeof (get_prop (o_rpcLogger Scenario.opts_logged) "info") = "function")
  ∧ state (this Scenario.started_logged) = STATE_STARTED
  ∧ tr_source (tracer_of (set_clientId (JStr "connector-1") Scenario.opts_logged)
                 (JStr "chat-1") Sample.msg_add) = JStr "connector-1"
  ∧ trace (exec (rpcInvoke (JStr "chat-1") Sample.msg_add (user_cb Sample.cb2))
             Scenario.started_logged).1
    = trace Scenario.started_logged
      ++ [EvTrace lvl_info
            (tracer_of (set_clientId (JStr "connector-1") Scenario.opts_logged)
               (JStr "chat-1") Sample.msg_add)
            "client" filename_ "rpcInvoke" "the entrance of rpc invoke";
          EvStationDispatch
            (Some (tracer_of (set_clientId (JStr "connector-1") Scenario.opts_logged)
                     (JStr "chat-1") Sample.msg_add))
            (JStr "chat-1") Sample.msg_add 3].
Proof.
  assert (H : ({[ 3 := Scenario.opts_logged ]} : gmap loc RpcClientOpts) !! 3
              = Some Scenario.opts_logged) by apply lookup_singleton_eq.
  assert (H' : truthy (o_rpcDebugLog Scenario.opts_logged) = true →
               typeof (get_prop (o_rpcLogger Scenario.opts_logged) "info") = "function")
    by (intros _; reflexivity).
  split; [exact H|]. split; [exact H'|]. split; [reflexivity|]. split; [reflexivity|].
  exact (dispatch_passes_options_and_tracer Sample.X {[ 3 := Scenario.opts_logged ]} 3
           Scenario.opts_logged Sample.started_ops (JStr "chat-1") Sample.msg_add
           (user_cb Sample.cb2) H H' eq_refl).
Defined.

(** ** Strategy-routed calls *)

Lemma proxyCB_routes (X : Externals) (m : Machine) (serviceName methodName : string)
    (args_ : list jsval) (attach : RemoteServerCode) :
  state (this m) = STATE_STARTED →
  2 ≤ length args_ →
  routable (this m) →
  ∃ ev,
    exec (proxyCB X serviceName methodName args_ attach false) m
    = (defer AskRoute
         (route_callback (length (promises m))
            (message_of serviceName methodName args_ attach))
         (emit ev (set_promises (promises m ++ [Pending]) m)),
       Normal (JPromise (length (promises m))))
    ∧ is_dispatch ev = None
    ∧ is_call ev = None.
Proof.
  intros Hst Hargs Hroutable.
  unfold proxyCB. cbn [exec]. rewrite Hst. cbn [Z.eqb STATE_STARTED Pos.eqb negb].
  rewrite (proj2 (Nat.ltb_ge _ _) Hargs).
  cbn [exec]. unfold getRouteTarget. cbn [exec this set_promises].
  destruct (truthy (routerType (this m))) eqn:Ert.
  { eexists. split; [reflexivity|done]. }
  destruct (String.eqb_spec (typeof (router (this m))) "function") as [Ef|Ef].
  { eexists. split; [reflexivity|done]. }
  destruct (String.eqb_spec (typeof (get_prop (router (this m)) "route")) "function")
    as [Eo|Eo].
  { eexists. split; [reflexivity|done]. }
  destruct Hroutable as [H|[H|H]]; congruence.
Qed.

(** Answering the request that was made last. *)
Lemma reply_deferred (m : Machine) (n : nat) (a : Asked) (cb : jsval -> jsval -> Eff)
    (x y : jsval) :
  n = length (outstanding m) →
  reply n x y (defer a cb m)
  = (exec (cb x y) (set_outstanding (outstanding m ++ [None]) m)).1.
Proof.
  intros ->. unfold reply, defer. cbn [outstanding set_outstanding].
  rewrite lookup_app_r, Nat.sub_diag by done. cbn [lookup list_lookup callback].
  by rewrite insert_app_r_alt, Nat.sub_diag by done.
Qed.

Lemma promises_settle_last (ps : list PromiseState) (s : PromiseState) (m : Machine) :
  promises m = ps ++ [Pending] →
  promises (settle (length ps) s m) = ps ++ [s].
Proof.
  intros Hp. unfold settle. rewrite Hp.
  rewrite lookup_app_r, Nat.sub_diag by done. cbn. 
  by rewrite insert_app_r_alt, Nat.sub_diag by done.
Qed.

(** X7.  A strategy-routed proxy call whose router reports an error is
    resolved, not rejected, with that error: the promise of the call is
    fulfilled with the error value, the station's dispatch is not called and
    nothing is left outstanding for the call. *)
Theorem routed_call_router_error (X : Externals) (m : Machine)
    (serviceName methodName : string) (args_ : list jsval) (attach : RemoteServerCode)
    (err b : jsval) :
  state (this m) = STATE_STARTED →
  2 ≤ length args_ →
  routable (this m) →
  truthy err = true →
  let r := exec (proxyCB X serviceName methodName args_ attach false) m in
  let m2 := reply (length (outstanding m)) err b r.1 in
  r.2 = Normal (JPromise (length (promises m)))
  ∧ promises r.1 = promises m ++ [Pending]
  ∧ promises m2 = promises m ++ [Fulfilled err]
  ∧ dispatches m2 = dispatches m
  ∧ outstanding m2 = outstanding m ++ [None].
Proof.
  intros Hst Hargs Hroutable Herr.
  destruct (proxyCB_routes X m serviceName methodName args_ attach Hst Hargs Hroutable)
    as (ev & -> & Hd & _).
  cbn zeta. cbn [fst snd].
  rewrite (reply_deferred (emit ev (set_promises (promises m ++ [Pending]) m))
             (length (outstanding m)) _ _ _ _ eq_refl).
  unfold route_callback. rewrite Herr. cbn [exec fst].
  rewrite outstanding_settle.
  split_and!; try done.
  - by apply promises_settle_last.
  - unfold settle. cbn [promises set_outstanding emit set_promises].
    rewrite lookup_app_r, Nat.sub_diag by done. cbn.
    unfold dispatches. cbn. rewrite omap_app. cbn. rewrite Hd. apply app_nil_r.
Qed.

Lemma started7_routable : routable (this Sample.started7).
Proof. right. left. reflexivity. Qed.

Lemma routed_call_router_error_witness :
  state (this Sample.started7) = STATE_STARTED
  ∧ 2 ≤ length [JStr "room-1"; JFun "done"]
  ∧ routable (this Sample.started7)
  ∧ truthy (JError "no server available") = true
  ∧ promises
      (reply (length (outstanding Sample.started7)) (JError "no server available") JUndefined
         (exec (proxyCB Sample.X "chatRemote" "add" [JStr "room-1"; JFun "done"]
                  Sample.chat false) Sample.started7).1)
    = promises Sample.started7 ++ [Fulfilled (JError "no server available")].
Proof.
  assert (H : 2 ≤ length [JStr "room-1"; JFun "done"]) by (simpl; lia).
  split; [reflexivity|]. split; [exact H|]. split; [exact started7_routable|].
  split; [reflexivity|].
  exact (proj1 (proj2 (proj2
    (routed_call_router_error Sample.X Sample.started7 "chatRemote" "add"
       [JStr "room-1"; JFun "done"] Sample.chat (JError "no server available") JUndefined
       eq_refl H started7_routable eq_refl)))).
Defined.

Lemma reply_at (m : Machine) (n : nat) (o : Outstanding) (x y : jsval) :
  outstanding m !! n = Some (Some o) →
  reply n x y m
  = (exec (callback o x y) (set_outstanding (<[n := None]> (outstanding m)) m)).1.
Proof. intros Hn. unfold reply. by rewrite Hn. Qed.

Lemma dispatches_emits (evs : list Event) (m : Machine) :
  dispatches (emits evs m) = dispatches m ++ omap is_dispatch evs.
Proof. unfold dispatches. cbn. apply omap_app. Qed.

Lemma calls_emits (evs : list Event) (m : Machine) :
  calls (emits evs m) = calls m ++ omap is_call evs.
Proof. unfold calls. cbn. apply omap_app. Qed.

(** What rpcInvoke does on a started client, as a machine. *)
Lemma rpcInvoke_started_exec (m : Machine) (serverId : jsval) (msg : RpcMsg)
    (cb : jsval -> jsval -> Eff) :
  state (this m) = STATE_STARTED →
  is_Some (heap m !! opts (this m)) →
  ∃ evs,
    exec (rpcInvoke serverId msg cb) m
    = (defer (AskDispatch serverId msg) cb (emits evs m), Normal JUndefined)
    ∧ omap is_dispatch evs = [(serverId, msg)]
    ∧ omap is_call evs = [].
Proof.
  intros Hst [o Ho]. unfold rpcInvoke. cbn [exec]. rewrite Hst.
  cbn [Z.eqb STATE_STARTED Pos.eqb negb].
  destruct (truthy (rpcDebugLog (this m))); cbn [exec]; [rewrite Ho; cbn [exec]|].
  - eexists [_; _]. split.
    { unfold defer, emits, emit, set_outstanding. cbn. by rewrite <- app_assoc. }
    done.
  - eexists [_]. split; [reflexivity|]. done.
Qed.

(** What rpcInvoke does on a client that is not started, as a machine. *)
Lemma rpcInvoke_not_started_exec (m : Machine) (serverId : jsval) (msg : RpcMsg)
    (cb : jsval -> jsval -> Eff) :
  state (this m) ≠ STATE_STARTED →
  is_Some (heap m !! opts (this m)) →
  ∃ evs,
    exec (rpcInvoke serverId msg cb) m
    = exec (bind (cb not_running JUndefined) (fun _ => done_)) (emits evs m)
    ∧ omap is_dispatch evs = []
    ∧ omap is_call evs = [].
Proof.
  intros Hst [o Ho]. unfold rpcInvoke. cbn [exec].
  destruct (Z.eqb_spec (state (this m)) STATE_STARTED) as [E|_]; [contradiction|].
  cbn [negb].
  destruct (truthy (rpcDebugLog (this m))); cbn [exec]; [rewrite Ho; cbn [exec]|].
  - eexists [_; _; _]. split.
    { f_equal. unfold emits, emit. cbn. by rewrite <- !app_assoc. }
    done.
  - eexists [_]. split; [reflexivity|]. done.
Qed.

(** X8.  A strategy-routed proxy call whose router answers with a server id
    dispatches the message of the call once, to that server; its promise is
    pending until the station answers, and is then rejected with the error of
    the answer when there is one (neither null nor undefined), and fulfilled
    with the response otherwise. *)
Theorem routed_call_dispatches_and_settles (X : Externals) (m : Machine)
    (serviceName methodName : string) (args_ : list jsval) (attach : RemoteServerCode)
    (a serverId err resp : jsval) :
  reachable X m →
  state (this m) = STATE_STARTED →
  2 ≤ length args_ →
  routable (this m) →
  truthy a = false →
  let n := length (outstanding m) in
  let r := exec (proxyCB X serviceName methodName args_ attach false) m in
  let m2 := reply n a serverId r.1 in
  let m3 := reply (S n) err resp m2 in
  dispatches r.1 = dispatches m
  ∧ dispatches m2
    = dispatches m ++ [(serverId, message_of serviceName methodName args_ attach)]
  ∧ promises m2 = promises m ++ [Pending]
  ∧ promises m3
    = promises m ++ [if is_nullish err then Fulfilled resp else Rejected err]
  ∧ dispatches m3 = dispatches m2
  ∧ outstanding m3 = outstanding m ++ [None; None].
Proof.
  intros Hr Hst Hargs Hroutable Ha n r m2 m3.
  destruct (proxyCB_routes X m serviceName methodName args_ attach Hst Hargs Hroutable)
    as (ev & Hexec & Hd & _).
  set (p := length (promises m)) in *.
  set (msg := message_of serviceName methodName args_ attach) in *.
  set (M0 := emit ev (set_promises (promises m ++ [Pending]) m)) in *.
  assert (Hr1 : r.1 = defer AskRoute (route_callback p msg) M0) by (unfold r; by rewrite Hexec).
  set (M1 := set_outstanding (outstanding M0 ++ [None]) M0).
  destruct (rpcInvoke_started_exec M1 serverId msg (invoke_callback p) Hst
              (proj2 (reachable_consistent X m Hr))) as (evs & Hinv & Hdi & _).
  assert (Hm2 : m2 = defer (AskDispatch serverId msg) (invoke_callback p) (emits evs M1)).
  { unfold m2. rewrite Hr1. rewrite (reply_deferred M0 n _ _ _ _ eq_refl).
    unfold route_callback. rewrite Ha. fold M1. by rewrite Hinv. }
  set (M2 := set_outstanding (outstanding (emits evs M1) ++ [None]) (emits evs M1)).
  assert (Hm3 : m3 = (exec (invoke_callback p err resp) M2).1).
  { unfold m3. rewrite Hm2. apply reply_deferred.
    cbn. rewrite length_app. cbn. unfold n. lia. }
  assert (Hd0 : dispatches M0 = dispatches m).
  { unfold M0. rewrite dispatches_emit, Hd. apply app_nil_r. }
  assert (Hd2 : dispatches m2 = dispatches m ++ [(serverId, msg)]).
  { rewrite Hm2. change (dispatches (emits evs M0) = dispatches m ++ [(serverId, msg)]).
    by rewrite dispatches_emits, Hdi, Hd0. }
  split_and!.
  - rewrite Hr1. exact Hd0.
  - exact Hd2.
  - by rewrite Hm2.
  - rewrite Hm3. unfold invoke_callback.
    destruct (is_nullish err); cbn [negb exec fst]; by apply promises_settle_last.
  - rewrite Hm3, Hd2. unfold invoke_callback.
    destruct (is_nullish err); cbn [negb exec fst]; unfold settle;
      destruct (promises M2 !! p) as [[]|];
      change (dispatches (emits evs M0) = dispatches m ++ [(serverId, msg)]);
      by rewrite dispatches_emits, Hdi, Hd0.
  - rewrite Hm3. unfold invoke_callback.
    destruct (is_nullish err); cbn [negb exec fst]; rewrite outstanding_settle;
      cbn; by rewrite <- app_assoc.
Qed.

Lemma routed_call_dispatches_and_settles_witness :
  reachable Sample.X Sample.started7
  ∧ state (this Sample.started7) = STATE_STARTED
  ∧ 2 ≤ length [JStr "room-1"; JFun "done"]
  ∧ routable (this Sample.started7)
  ∧ truthy JNull = false
  ∧ promises
      (reply (S (length (outstanding Sample.started7))) (JError "timeout") JUndefined
         (reply (length (outstanding Sample.started7)) JNull (JStr "chat-2")
            (exec (proxyCB Sample.X "chatRemote" "add" [JStr "room-1"; JFun "done"]
                     Sample.chat false) Sample.started7).1))
    = promises Sample.started7 ++ [Rejected (JError "timeout")].
Proof.
  assert (H : 2 ≤ length [JStr "room-1"; JFun "done"]) by (simpl; lia).
  split; [exact started7_reachable|]. split; [reflexivity|]. split; [exact H|].
  split; [exact started7_routable|]. split; [reflexivity|].
  exact (proj1 (proj2 (proj2 (proj2
    (routed_call_dispatches_and_settles Sample.X Sample.started7 "chatRemote" "add"
       [JStr "room-1"; JFun "done"] Sample.chat JNull (JStr "chat-2") (JError "timeout")
       JUndefined started7_reachable eq_refl H started7_routable eq_refl))))).
Defined.

(** X9.  A strategy-routed proxy call that is overtaken by stop: when the
    router answers with a server id after the client has been stopped, the
    station's dispatch is not called and the promise of the call is rejected
    with the not-running error of rpcInvoke. *)
Theorem routed_call_overtaken_by_stop (X : Externals) (m : Machine)
    (serviceName methodName : string) (args_ : list jsval) (attach : RemoteServerCode)
    (force : bool) (a serverId : jsval) :
  reachable X m →
  state (this m) = STATE_STARTED →
  2 ≤ length args_ →
  routable (this m) →
  truthy a = false →
  let r := exec (proxyCB X serviceName methodName args_ attach false) m in
  let m2 := (exec (stop force) r.1).1 in
  let m3 := reply (length (outstanding m)) a serverId m2 in
  promises m3 = promises m ++ [Rejected not_running]
  ∧ dispatches m3 = dispatches m
  ∧ state (this m3) = STATE_CLOSED.
Proof.
  intros Hr Hst Hargs Hroutable Ha r m2 m3.
  destruct (proxyCB_routes X m serviceName methodName args_ attach Hst Hargs Hroutable)
    as (ev & Hexec & Hd & _).
  set (p := length (promises m)) in *.
  set (msg := message_of serviceName methodName args_ attach) in *.
  set (M0 := emit ev (set_promises (promises m ++ [Pending]) m)) in *.
  assert (Hr1 : r.1 = defer AskRoute (route_callback p msg) M0) by (unfold r; by rewrite Hexec).
  assert (Hm2 : m2 = emit (EvStationStop force STATE_CLOSED) (set_state STATE_CLOSED r.1)).
  { unfold m2, stop. cbn [exec]. rewrite Hr1.
    change (state (this (defer AskRoute (route_callback p msg) M0))) with (state (this m)).
    by rewrite Hst. }
  set (M1 := set_outstanding (outstanding m ++ [None])
               (emit (EvStationStop force STATE_CLOSED) (set_state STATE_CLOSED M0))).
  assert (Hne : state (this M1) ≠ STATE_STARTED) by (intros E; discriminate E).
  destruct (rpcInvoke_not_started_exec M1 serverId msg (invoke_callback p) Hne
              (proj2 (reachable_consistent X m Hr))) as (evs & Hinv & Hdi & _).
  assert (Hm3 : m3 = settle p (Rejected not_running) (emits evs M1)).
  { unfold m3. rewrite Hm2, Hr1.
    rewrite (reply_at _ (length (outstanding m))
               {| asked := AskRoute; callback := route_callback p msg |}).
    2:{ cbn. by rewrite lookup_app_r, Nat.sub_diag by done. }
    cbn [callback]. unfold route_callback. rewrite Ha.
    replace (set_outstanding _ _) with M1.
    2:{ unfold M1. cbn. by rewrite insert_app_r_alt, Nat.sub_diag by done. }
    rewrite Hinv. done. }
  rewrite Hm3. split_and!.
  - by apply promises_settle_last.
  - unfold settle. destruct (promises (emits evs M1) !! p) as [[]|];
      change (dispatches (emits evs (emit (EvStationStop force STATE_CLOSED) M0)) = dispatches m);
      rewrite dispatches_emits, Hdi, dispatches_emit; unfold M0;
      rewrite dispatches_emit, Hd; cbn [from_option is_dispatch]; by rewrite !app_nil_r.
  - unfold settle. by destruct (promises (emits evs M1) !! p) as [[]|].
Qed.

Lemma routed_call_overtaken_by_stop_witness :
  reachable Sample.X Sample.started7
  ∧ state (this Sample.started7) = STATE_STARTED
  ∧ 2 ≤ length [JStr "room-1"; JFun "done"]
  ∧ routable (this Sample.started7)
  ∧ truthy JNull = false
  ∧ promises
      (reply (length (outstanding Sample.started7)) JNull (JStr "chat-2")
         (exec (stop true)
            (exec (proxyCB Sample.X "chatRemote" "add" [JStr "room-1"; JFun "done"]
                     Sample.chat false) Sample.started7).1).1)
    = promises Sample.started7 ++ [Rejected not_running].
Proof.
  assert (H : 2 ≤ length [JStr "room-1"; JFun "done"]) by (simpl; lia).
  split; [exact started7_reachable|]. split; [reflexivity|]. split; [exact H|].
  split; [exact started7_routable|]. split; [reflexivity|].
  exact (proj1
    (routed_call_overtaken_by_stop Sample.X Sample.started7 "chatRemote" "add"
       [JStr "room-1"; JFun "done"] Sample.chat true JNull (JStr "chat-2")
       started7_reachable eq_refl H started7_routable eq_refl)).
Defined.

(** X10.  Without a routerType the custom router is called with the routing
    key (the first argument of the proxy call) and the message of the call:
    a router that is a function is called with null as receiver, a router
    that is an object with a route function has that function called with
    the object as receiver.  The call returns a promise and does nothing
    else until the router answers. *)
Theorem custom_router_call (X : Externals) (m : Machine) (serviceName methodName : string)
    (args_ : list jsval) (attach : RemoteServerCode) :
  state (this m) = STATE_STARTED →
  2 ≤ length args_ →
  truthy (routerType (this m)) = false →
  let r := exec (proxyCB X serviceName methodName args_ attach false) m in
  let key := hd JUndefined args_ in
  let msg := message_of serviceName methodName args_ attach in
  (typeof (router (this m)) = "function" →
     r.2 = Normal (JPromise (length (promises m)))
     ∧ trace r.1 = trace m ++ [EvRouteCall (router (this m)) JNull key msg])
  ∧ (typeof (router (this m)) ≠ "function" →
     typeof (get_prop (router (this m)) "route") = "function" →
     r.2 = Normal (JPromise (length (promises m)))
     ∧ trace r.1
       = trace m ++ [EvRouteCall (get_prop (router (this m)) "route") (router (this m))
                       key msg]).
Proof.
  intros Hst Hargs Hrt. cbn zeta.
  unfold proxyCB. cbn [exec]. rewrite Hst. cbn [Z.eqb STATE_STARTED Pos.eqb negb].
  rewrite (proj2 (Nat.ltb_ge _ _) Hargs).
  cbn [exec]. unfold getRouteTarget. cbn [exec this set_promises]. rewrite Hrt.
  split.
  - intros Hf. rewrite Hf. done.
  - intros Hf Ho. rewrite (proj2 (String.eqb_neq _ _) Hf), Ho. done.
Qed.

Lemma custom_router_call_witness :
  state (this Sample.started7) = STATE_STARTED
  ∧ 2 ≤ length [JStr "room-1"; JFun "done"]
  ∧ truthy (routerType (this Sample.started7)) = false
  ∧ typeof (router (this Sample.started7)) = "function"
  ∧ trace (exec (proxyCB Sample.X "chatRemote" "add" [JStr "room-1"; JFun "done"]
                   Sample.chat false) Sample.started7).1
    = trace Sample.started7 ++ [EvRouteCall router_df JNull (JStr "room-1") Sample.msg_add]
  ∧ typeof (router (this Scenario.started_my_router)) ≠ "function"
  ∧ typeof (get_prop (router (this Scenario.started_my_router)) "route") = "function"
  ∧ trace (exec (proxyCB Sample.X "chatRemote" "add" [JStr "room-1"; JFun "done"]
                   Sample.chat false) Scenario.started_my_router).1
    = trace Scenario.started_my_router
      ++ [EvRouteCall (JFun "myRoute") Scenario.my_router (JStr "room-1") Sample.msg_add].
Proof.
  assert (H : 2 ≤ length [JStr "room-1"; JFun "done"]) by (simpl; lia).
  assert (Hn : typeof (router (this Scenario.started_my_router)) ≠ "function")
    by (intros E; discriminate E).
  pose proof (custom_router_call Sample.X Sample.started7 "chatRemote" "add"
                [JStr "room-1"; JFun "done"] Sample.chat eq_refl H eq_refl) as [H1 _].
  pose proof (custom_router_call Sample.X Scenario.started_my_router "chatRemote" "add"
                [JStr "room-1"; JFun "done"] Sample.chat eq_refl H eq_refl) as [_ H2].
  split; [reflexivity|]. split; [exact H|]. split; [reflexivity|]. split; [reflexivity|].
  split; [exact (proj2 (H1 eq_refl))|]. split; [exact Hn|]. split; [reflexivity|].
  exact (proj2 (H2 Hn eq_refl)).
Defined.

(** X11.  A client constructed from options without a router and without a
    routerType routes every strategy-routed proxy call through the default
    router router.df, called as a function with null as receiver, whatever
    happened to the client between construction and the call. *)
Theorem default_router_is_df (X : Externals) (h : gmap loc RpcClientOpts) (l : loc)
    (o : RpcClientOpts) (ops : list Op) (serviceName methodName : string)
    (args_ : list jsval) (attach : RemoteServerCode) :
  h !! l = Some o →
  truthy (o_router o) = false →
  truthy (o_routerType o) = false →
  let m := run X ops (RpcClient_new h (Some l)) in
  state (this m) = STATE_STARTED →
  2 ≤ length args_ →
  trace (exec (proxyCB X serviceName methodName args_ attach false) m).1
  = trace m ++ [EvRouteCall router_df JNull (hd JUndefined args_)
                  (message_of serviceName methodName args_ attach)].
Proof.
  intros Hl Hrouter Hrt m Hst Hargs.
  pose proof (run_config X ops (RpcClient_new h (Some l))) as Hc.
  rewrite (config_new h l o Hl) in Hc. fold m in Hc. unfold config in Hc.
  injection Hc as _ _ Hr Ht _ _ _.
  unfold js_or in Hr. rewrite Hrouter in Hr.
  unfold proxyCB. cbn [exec]. rewrite Hst. cbn [Z.eqb STATE_STARTED Pos.eqb negb].
  rewrite (proj2 (Nat.ltb_ge _ _) Hargs).
  cbn [exec]. unfold getRouteTarget. cbn [exec this set_promises]. rewrite Ht, Hrt, Hr.
  done.
Qed.

Lemma default_router_is_df_witness :
  ({[ 7 := Sample.opts7 ]} : gmap loc RpcClientOpts) !! 7 = Some Sample.opts7
  ∧ truthy (o_router Sample.opts7) = false
  ∧ truthy (o_routerType Sample.opts7) = false
  ∧ state (this Sample.started7) = STATE_STARTED
  ∧ 2 ≤ length [JStr "room-1"; JFun "done"]
  ∧ trace (exec (proxyCB Sample.X "chatRemote" "add" [JStr "room-1"; JFun "done"]
                   Sample.chat false) Sample.started7).1
    = trace Sample.started7 ++ [EvRouteCall router_df JNull (JStr "room-1") Sample.msg_add].
Proof.
  assert (H : 2 ≤ length [JStr "room-1"; JFun "done"]) by (simpl; lia).
  assert (Hl : ({[ 7 := Sample.opts7 ]} : gmap loc RpcClientOpts) !! 7 = Some Sample.opts7)
    by apply lookup_singleton_eq.
  split; [exact Hl|]. split; [reflexivity|]. split; [reflexivity|]. split; [reflexivity|].
  split; [exact H|].
  exact (default_router_is_df Sample.X {[ 7 := Sample.opts7 ]} 7 Sample.opts7
           Sample.started_ops "chatRemote" "add" [JStr "room-1"; JFun "done"] Sample.chat
           Hl eq_refl eq_refl eq_refl H).
Defined.

(** ** Specified-target calls *)

(** X12.  A specified-target proxy call to one server id is settled by the
    first argument of the station's answer alone: its promise is fulfilled
    with the error value of the answer, which is null or undefined on
    success, and the response is not delivered.  The message is dispatched
    once. *)
Theorem literal_target_settles_with_first_argument (X : Externals) (m : Machine)
    (serviceName methodName : string) (args_ : list jsval) (attach : RemoteServerCode)
    (id_ : string) (err resp : jsval) :
  reachable X m →
  state (this m) = STATE_STARTED →
  2 ≤ length args_ →
  hd JUndefined args_ = JStr id_ →
  id_ ≠ "*" →
  let r := exec (proxyCB X serviceName methodName args_ attach true) m in
  let m2 := reply (length (outstanding m)) err resp r.1 in
  promises r.1 = promises m ++ [Pending]
  ∧ promises m2 = promises m ++ [Fulfilled err]
  ∧ dispatches m2
    = dispatches m ++ [(JStr id_, message_of serviceName methodName args_ attach)]
  ∧ outstanding m2 = outstanding m ++ [None].
Proof.
  intros Hr Hst Hargs Hkey Hid r m2.
  set (p := length (promises m)) in *.
  set (msg := message_of serviceName methodName args_ attach) in *.
  set (M0 := set_promises (promises m ++ [Pending]) m).
  destruct (rpcInvoke_started_exec M0 (JStr id_) msg (fun err _ => Resolve p err done_) Hst
              (proj2 (reachable_consistent X m Hr))) as (evs & Hinv & Hdi & _).
  assert (Hr1 : r.1 = defer (AskDispatch (JStr id_) msg) (fun err _ => Resolve p err done_)
                        (emits evs M0)).
  { unfold r. rewrite (proxyCB_literal_key X m _ _ _ _ id_) by done.
    cbn [exec]. fold p M0.
    change {| namespace := rec_namespace attach; serverType := rec_serverType attach;
              service := serviceName; method := methodName; args := tl args_ |} with msg.
    by rewrite Hinv. }
  assert (Hm2 : m2 = settle p (Fulfilled err)
                       (set_outstanding (outstanding m ++ [None]) (emits evs M0))).
  { unfold m2. rewrite Hr1. by rewrite (reply_deferred (emits evs M0) _ _ _ _ _ eq_refl). }
  split_and!.
  - by rewrite Hr1.
  - rewrite Hm2. by apply promises_settle_last.
  - rewrite Hm2. unfold settle.
    destruct (promises (set_outstanding _ (emits evs M0)) !! p) as [[]|];
      change (dispatches (emits evs m) = dispatches m ++ [(JStr id_, msg)]);
      by rewrite dispatches_emits, Hdi.
  - rewrite Hm2. by rewrite outstanding_settle.
Qed.

Lemma literal_target_settles_with_first_argument_witness :
  reachable Sample.X Sample.started7
  ∧ state (this Sample.started7) = STATE_STARTED
  ∧ 2 ≤ length [JStr "chat-1"; JFun "done"]
  ∧ hd JUndefined [JStr "chat-1"; JFun "done"] = JStr "chat-1"
  ∧ "chat-1" ≠ "*"
  ∧ promises
      (reply (length (outstanding Sample.started7)) JNull (JStr "added")
         (exec (proxyCB Sample.X "chatRemote" "add" [JStr "chat-1"; JFun "done"]
                  Sample.chat true) Sample.started7).1)
    = promises Sample.started7 ++ [Fulfilled JNull].
Proof.
  assert (H : 2 ≤ length [JStr "chat-1"; JFun "done"]) by (simpl; lia).
  assert (Hn : "chat-1" ≠ "*") by (intros E; discriminate E).
  split; [exact started7_reachable|]. split; [reflexivity|]. split; [exact H|].
  split; [reflexivity|]. split; [exact Hn|].
  exact (proj1 (proj2
    (literal_target_settles_with_first_argument Sample.X Sample.started7 "chatRemote" "add"
       [JStr "chat-1"; JFun "done"] Sample.chat "chat-1" JNull (JStr "added")
       started7_reachable eq_refl H eq_refl Hn))).
Defined.

(** X13.  A wildcard proxy call on a started client that was constructed
    without a route context throws while it looks the servers up; the promise
    of the call is rejected with that TypeError, nothing is logged or
    dispatched and nothing is left outstanding. *)
Theorem broadcast_without_route_context (X : Externals) (m : Machine)
    (serviceName methodName : string) (args_ : list jsval) (attach : RemoteServerCode) :
  state (this m) = STATE_STARTED →
  2 ≤ length args_ →
  hd JUndefined args_ = JStr "*" →
  _routeContext (this m) = None →
  let r := exec (proxyCB X serviceName methodName args_ attach true) m in
  r.2 = Normal (JPromise (length (promises m)))
  ∧ promises r.1 = promises m ++ [Rejected type_error]
  ∧ trace r.1 = trace m
  ∧ outstanding r.1 = outstanding m.
Proof.
  intros Hst Hargs Hkey Hrc. cbn zeta. unfold proxyCB.
  cbn [exec]. rewrite Hst. cbn [Z.eqb STATE_STARTED Pos.eqb negb].
  rewrite (proj2 (Nat.ltb_ge _ _) Hargs).
  unfold rpcToSpecifiedServer. rewrite Hkey. cbn [typeof strict_eq_str String.eqb Ascii.eqb
    Bool.eqb negb andb].
  cbn [exec this set_promises]. rewrite Hrc. cbn [exec fst snd].
  split_and!; try done.
  - by apply promises_settle_last.
  - unfold settle. by destruct (promises _ !! _) as [[]|].
  - by rewrite outstanding_settle.
Qed.

Lemma broadcast_without_route_context_witness :
  state (this Scenario.started_plain) = STATE_STARTED
  ∧ 2 ≤ length [JStr "*"; JFun "done"]
  ∧ hd JUndefined [JStr "*"; JFun "done"] = JStr "*"
  ∧ _routeContext (this Scenario.started_plain) = None
  ∧ promises (exec (proxyCB Sample.X "chatRemote" "add" [JStr "*"; JFun "done"]
                      Sample.chat true) Scenario.started_plain).1
    = promises Scenario.started_plain ++ [Rejected type_error].
Proof.
  assert (H : 2 ≤ length [JStr "*"; JFun "done"]) by (simpl; lia).
  split; [reflexivity|]. split; [exact H|]. split; [reflexivity|]. split; [reflexivity|].
  exact (proj1 (proj2
    (broadcast_without_route_context Sample.X Scenario.started_plain "chatRemote" "add"
       [JStr "*"; JFun "done"] Sample.chat eq_refl H eq_refl eq_refl))).
Defined.

(** ** The proxy registry *)

Lemma lookup_insertProxy_other (ps : Proxies) (ns st ns' st' : string)
    (proxy : gmap string jsval) :
  (ns', st') ≠ (ns, st) →
  insertProxy ps ns st proxy !! ns' ≫= (.!! st') = ps !! ns' ≫= (.!! st').
Proof.
  intros Hne. unfold insertProxy.
  destruct (decide (ns' = ns)) as [->|Hns].
  - assert (Hst : st ≠ st') by (intros ->; by apply Hne).
    destruct (ps !! ns) as [by_type|] eqn:Ens; simpl.
    + destruct (by_type !! st) as [entry|] eqn:Est;
        rewrite lookup_insert_eq; simpl; by rewrite lookup_insert_ne.
    + rewrite lookup_empty, lookup_insert_eq. simpl.
      by rewrite lookup_insert_ne, lookup_empty.
  - destruct (default ∅ (ps !! ns) !! st); by rewrite lookup_insert_ne.
Qed.

(** X14.  addProxy changes nothing but the registry entry of the record's
    (namespace, serverType): after it that entry holds the attributes the
    call generated, over those it held before; every other entry of the
    registry is as before; the state, the trace (no log, no station call),
    the promises and the outstanding requests are as before, and the call
    returns normally. *)
Theorem addProxy_updates_one_entry (X : Externals) (m : Machine) (r : RemoteServerCode) :
  let m' := (exec (addProxy X (Some r)) m).1 in
  (exec (addProxy X (Some r)) m).2 = Normal JUndefined
  ∧ registry_entry m' (rec_namespace r) (rec_serverType r)
    = generated X r (_context (this m))
      ∪ registry_entry m (rec_namespace r) (rec_serverType r)
  ∧ (∀ ns st, (ns, st) ≠ (rec_namespace r, rec_serverType r) →
       registry_entry m' ns st = registry_entry m ns st)
  ∧ state (this m') = state (this m)
  ∧ trace m' = trace m
  ∧ promises m' = promises m
  ∧ outstanding m' = outstanding m.
Proof.
  cbn zeta. destruct (addProxy_entry X m r) as [He _].
  split_and!; [|exact He| | | | |];
    unfold addProxy, registry_entry; cbn [exec];
    destruct (generateProxy X (Some r) (_context (this m))) as [proxy|]; cbn; try done.
  intros ns st Hne. by rewrite lookup_insertProxy_other.
Qed.

Lemma addProxy_normal (X : Externals) (record : option RemoteServerCode) (m : Machine) :
  (exec (addProxy X record) m).2 = Normal JUndefined.
Proof.
  unfold addProxy. destruct record as [r|]; [|done]. cbn [exec].
  by destruct (generateProxy X (Some r) (_context (this m))).
Qed.

Lemma addProxies_sequential (X : Externals) (rs : list (option RemoteServerCode))
    (m : Machine) :
  exec (addProxies X (Some rs)) m
  = (foldl (fun m r => (exec (addProxy X r) m).1) m rs, Normal JUndefined).
Proof.
  assert (H : ∀ m, exec (foreach rs (addProxy X)) m
                   = (foldl (fun m r => (exec (addProxy X r) m).1) m rs, Normal JUndefined)).
  { clear m. induction rs as [|r rs IH]; intros m; [done|].
    cbn [foreach foldl]. rewrite exec_bind.
    pose proof (addProxy_normal X r m) as Hn.
    destruct (exec (addProxy X r) m) as [m1 c]. cbn in Hn. subst c. apply IH. }
  destruct rs as [|r rs]; [done|]. apply H.
Qed.

Lemma addProxy_keeps_attributes (X : Externals) (record : option RemoteServerCode)
    (m : Machine) (ns st : string) :
  dom (registry_entry m ns st) ⊆ dom (registry_entry (exec (addProxy X record) m).1 ns st)
  ∧ _context (this (exec (addProxy X record) m).1) = _context (this m).
Proof.
  destruct record as [r|]; [|done].
  destruct (addProxy_entry X m r) as [He Hc]. split; [|exact Hc].
  destruct (decide ((ns, st) = (rec_namespace r, rec_serverType r))) as [[= -> ->]|Hne].
  - rewrite He, dom_union_L. intros x Hx. apply elem_of_union. by right.
  - unfold addProxy, registry_entry. cbn [exec].
    destruct (generateProxy X (Some r) (_context (this m))) as [proxy|]; cbn; [|done].
    by rewrite lookup_insertProxy_other.
Qed.

Lemma addProxies_keep_attributes (X : Externals) (rs : list (option RemoteServerCode))
    (m : Machine) (ns st : string) :
  let m' := foldl (fun m r => (exec (addProxy X r) m).1) m rs in
  dom (registry_entry m ns st) ⊆ dom (registry_entry m' ns st)
  ∧ _context (this m') = _context (this m).
Proof.
  revert m. induction rs as [|r rs IH]; intros m; [done|].
  cbn [foldl]. cbn zeta.
  destruct (addProxy_keeps_attributes X r m ns st) as [H1 H2].
  destruct (IH (exec (addProxy X r) m).1) as [H3 H4].
  split; [by etrans|congruence].
Qed.

Lemma dom_generated (X : Externals) (r : RemoteServerCode) (context_ : jsval)
    (modules : gmap string jsval) :
  Loader_load X (rec_path r) context_ = Some modules →
  dom (generated X r context_) = dom modules.
Proof.
  intros Hl. unfold generated, generateProxy. rewrite Hl. cbn [default].
  apply dom_imap_L. intros name. rewrite elem_of_dom. split.
  - intros [origin Ho]. exists origin. split; [exact Ho|by eexists].
  - intros (origin & Ho & _). by exists origin.
Qed.

(** X15.  When the loader finds modules under the path of every record of
    a batch, addProxies registers every record of the batch: absent records
    in the batch are skipped without ending it, the call returns normally,
    and after it the registry entry of each record's (namespace, serverType)
    has an attribute for every service that the loader found under the
    record's path. *)
Theorem addProxies_registers_every_record (X : Externals)
    (rs : list (option RemoteServerCode)) (m : Machine) (r : RemoteServerCode)
    (modules : gmap string jsval) :
  Forall (fun record => ∀ r', record = Some r' →
            is_Some (Loader_load X (rec_path r') (_context (this m)))) rs →
  Some r ∈ rs →
  Loader_load X (rec_path r) (_context (this m)) = Some modules →
  let m' := (exec (addProxies X (Some rs)) m).1 in
  (exec (addProxies X (Some rs)) m).2 = Normal JUndefined
  ∧ dom modules ⊆ dom (registry_entry m' (rec_namespace r) (rec_serverType r))
  ∧ dom (generated X r (_context (this m)))
    ⊆ dom (registry_entry m' (rec_namespace r) (rec_serverType r)).
Proof.
  intros _ Hin Hload. cbn zeta. rewrite addProxies_sequential. cbn [fst snd].
  split; [done|].
  rewrite <- (dom_generated X r _ modules Hload).
  enough (dom (generated X r (_context (this m)))
          ⊆ dom (registry_entry (foldl (fun m r => (exec (addProxy X r) m).1) m rs)
                   (rec_namespace r) (rec_serverType r))) by done.
  apply list_elem_of_split in Hin as (l1 & l2 & ->).
  rewrite foldl_app. cbn [foldl].
  set (m1 := foldl (fun m r => (exec (addProxy X r) m).1) m l1).
  destruct (addProxies_keep_attributes X l1 m (rec_namespace r) (rec_serverType r))
    as [_ Hc1]. fold m1 in Hc1.
  destruct (addProxy_entry X m1 r) as [He _].
  destruct (addProxies_keep_attributes X l2 (exec (addProxy X (Some r)) m1).1
              (rec_namespace r) (rec_serverType r)) as [Hsub _].
  etrans; [|exact Hsub]. rewrite He, Hc1, dom_union_L.
  intros x Hx. apply elem_of_union. by left.
Qed.

Lemma addProxies_registers_every_record_witness :
  Forall (fun record => ∀ r', record = Some r' →
            is_Some (Loader_load Sample.X (rec_path r') (_context (this Sample.client7))))
    [None; Some Sample.chat; Some Sample.chat2]
  ∧ Some Sample.chat2 ∈ [None; Some Sample.chat; Some Sample.chat2]
  ∧ Loader_load Sample.X (rec_path Sample.chat2) (_context (this Sample.client7))
    = Some {[ "roomRemote" := JObj [("open", JFun "open")] ]}
  ∧ dom ({[ "roomRemote" := JObj [("open", JFun "open")] ]} : gmap string jsval)
    ⊆ dom (registry_entry
             (exec (addProxies Sample.X (Some [None; Some Sample.chat; Some Sample.chat2]))
                   Sample.client7).1
             "user" "chat").
Proof.
  assert (H1 : Forall (fun record => ∀ r', record = Some r' →
                  is_Some (Loader_load Sample.X (rec_path r')
                             (_context (this Sample.client7))))
                 [None; Some Sample.chat; Some Sample.chat2]).
  { repeat constructor; intros r' [= <-]; by eexists. }
  assert (H2 : Some Sample.chat2 ∈ [None; Some Sample.chat; Some Sample.chat2]).
  { do 2 apply list_elem_of_further. apply list_elem_of_here. }
  split; [exact H1|]. split; [exact H2|]. split; [reflexivity|].
  exact (proj1 (proj2 (addProxies_registers_every_record Sample.X
                         [None; Some Sample.chat; Some Sample.chat2]
                         Sample.client7 Sample.chat2 _ H1 H2 eq_refl))).
Defined.

(** ** The state over time *)

Lemma inert_bind (e : Eff) (f : jsval -> Eff) :
  inert e → (∀ v, inert (f v)) → inert (bind e f).
Proof.
  intros He Hf. eff_induction e; simpl in *; auto;
    try (destruct He; split; auto; fail).
  intros n. destruct (He n). auto.
Qed.

Lemma inert_foreach {A : Type} (l : list A) (body : A -> Eff) :
  (∀ x, inert (body x)) → inert (foreach l body).
Proof.
  intros Hb. induction l as [|x l IH]; simpl; [done|]. apply inert_bind; auto.
Qed.

Lemma inert_rpcInvoke (serverId : jsval) (msg : RpcMsg) (cb : jsval -> jsval -> Eff) :
  (∀ a b, inert (cb a b)) → inert (rpcInvoke serverId msg cb).
Proof.
  intros Hcb. unfold rpcInvoke. simpl. intros c.
  assert (Hfail : inert
    (Logger lvl_error "[pinus-rpc] fail to do rpc invoke for client is not running" []
       (bind (cb (JError "[pinus-rpc] fail to do rpc invoke for client is not running")
                 JUndefined) (fun _ => done_)))).
  { simpl. apply inert_bind; [apply Hcb|done]. }
  destruct (truthy (rpcDebugLog c)); simpl; [intros o|];
    destruct (negb (state c =? STATE_STARTED)%Z); simpl; auto.
Qed.

Lemma inert_async_each {A : Type} (coll : list A)
    (iteratee : A -> (jsval -> Eff) -> Eff) (callback_ : jsval -> Eff) :
  (∀ x next, (∀ err, inert (next err)) → inert (iteratee x next)) →
  (∀ err, inert (callback_ err)) →
  inert (async_each coll iteratee callback_).
Proof.
  intros Hit Hcb. unfold async_each. simpl. intros g.
  assert (Honce : ∀ err, inert (once_callback g callback_ err)).
  { intros err [|]; simpl; auto. }
  apply inert_bind.
  - destruct (length coll =? 0); [apply Honce|done].
  - intros _. apply inert_foreach. intros x. apply Hit. intros err.
    unfold iteratorCallback. destruct (truthy err); [apply Honce|].
    simpl. intros n. destruct (n =? length coll); [apply Honce|done].
Qed.

Lemma inert_proxyCB (X : Externals) (serviceName methodName : string)
    (args_ : list jsval) (attach : RemoteServerCode) (isToSpecifiedServer : bool) :
  inert (proxyCB X serviceName methodName args_ attach isToSpecifiedServer).
Proof.
  unfold proxyCB. simpl. intros c.
  destruct (negb (state c =? STATE_STARTED)%Z); [done|].
  destruct (length args_ <? 2); [done|].
  simpl. intros q. split; [|done].
  destruct isToSpecifiedServer.
  - unfold rpcToSpecifiedServer.
    destruct (negb (String.eqb (typeof (hd JUndefined args_)) "string")); [done|].
    destruct (strict_eq_str (hd JUndefined args_) "*");
      [|by apply inert_rpcInvoke].
    simpl. intros c'. destruct (_routeContext c') as [rc|]; [|done].
    destruct (getServersByType rc (rec_serverType attach)) as [servers_|]; [|done].
    apply inert_async_each; [|done].
    intros x next Hnext. apply inert_rpcInvoke. auto.
  - unfold getRouteTarget. simpl. intros c'.
    assert (Hcb : ∀ a b, inert
      (if truthy a then Resolve q a done_
       else rpcInvoke b
              {| namespace := rec_namespace attach; serverType := rec_serverType attach;
                 service := serviceName; method := methodName; args := tl args_ |}
              (fun err resp =>
                 if negb (is_nullish err) then Reject q err done_ else Resolve q resp done_))).
    { intros a b. destruct (truthy a); [done|]. apply inert_rpcInvoke.
      intros a' b'. by destruct (negb (is_nullish a')). }
    destruct (truthy (routerType c')); simpl; [auto|].
    destruct (String.eqb (typeof (router c')) "function"); simpl; [auto|].
    destruct (String.eqb (typeof (get_prop (router c') "route")) "function"); simpl; auto.
Qed.

Lemma inert_addProxy (X : Externals) (record : option RemoteServerCode) :
  inert (addProxy X record).
Proof.
  unfold addProxy. destruct record as [r|]; [|done]. cbn [inert]. intros c.
  by destruct (generateProxy X (Some r) (_context c)).
Qed.

(** Every operation but start and stop is inert. *)
Lemma inert_body (X : Externals) (op : Op) (e : Eff) :
  body X op = Some e →
  (∀ cb, op ≠ op_start cb) →
  (∀ force, op ≠ op_stop force) →
  inert e.
Proof.
  destruct op; cbn [body]; intros [= <-] Hstart Hstop; try done.
  - by destruct (Hstart cb).
  - by destruct (Hstop force).
  - apply inert_addProxy.
  - unfold addProxies. destruct records as [[|r rs]|]; try done.
    apply inert_foreach. intros x. apply inert_addProxy.
  - apply inert_rpcInvoke. intros a b. done.
  - apply inert_proxyCB.
Qed.

Lemma tracked_defer (a : Asked) (cb : jsval -> jsval -> Eff) (m : Machine) :
  tracked m →
  (∃ f, {| asked := a; callback := cb |} = start_request f) ∨ (∀ x y, inert (cb x y)) →
  tracked (defer a cb m).
Proof.
  intros Hm Hcb i o. unfold defer. simpl. intros Hi.
  apply lookup_app_Some in Hi as [Hi|[_ Hi]]; [by eapply Hm|].
  apply list_lookup_singleton_Some in Hi as [_ [= <-]]. exact Hcb.
Qed.

Lemma tracked_settle (p : nat) (s : PromiseState) (m : Machine) :
  tracked m → tracked (settle p s m).
Proof. intros Hm i o. rewrite outstanding_settle. apply Hm. Qed.

Lemma state_settle (p : nat) (s : PromiseState) (m : Machine) :
  state (this (settle p s m)) = state (this m).
Proof. unfold settle. by destruct (promises m !! p) as [[]|]. Qed.

Lemma exec_inert (e : Eff) (m : Machine) :
  inert e →
  tracked m →
  state (this (exec e m).1) = state (this m) ∧ tracked (exec e m).1.
Proof.
  revert m. eff_induction e; intros m He Hm; simpl in *; auto; try done;
    try (match goal with
         | |- state (this (exec _ ?m').1) = _ ∧ _ =>
             first [apply (IH m') | apply (IH _ m')];
             [first [exact He | apply He] | exact Hm]
         end; fail);
    try (destruct He as [Hcb Hk];
         match goal with
         | |- state (this (exec _ ?m').1) = _ ∧ _ =>
             apply (IH m'); [exact Hk | apply tracked_defer; [exact Hm | by right]]
         end; fail).
  - destruct (heap m !! l); simpl; auto.
  - set (n := length (promises m)) in *.
    destruct (He n) as [Hex Hk].
    destruct (IHex n (set_promises (promises m ++ [Pending]) m) Hex Hm) as [S1 T1].
    destruct (exec (ex n) _) as [m1 c]. cbn [fst] in S1, T1.
    destruct c.
    + destruct (IH n m1 Hk T1) as [S2 T2]. split; [rewrite S2; exact S1|done].
    + destruct (IH n (settle n (Rejected e) m1) Hk (tracked_settle _ _ _ T1)) as [S2 T2].
      split; [|done]. rewrite S2, state_settle. exact S1.
  - destruct (IH (settle q (Fulfilled v) m) He (tracked_settle _ _ _ Hm)) as [S T].
    split; [|done]. by rewrite S, state_settle.
  - destruct (IH (settle q (Rejected v) m) He (tracked_settle _ _ _ Hm)) as [S T].
    split; [|done]. by rewrite S, state_settle.
  - destruct (eaches m !! g); simpl in *; auto.
    match goal with
    | |- state (this (exec _ ?m').1) = _ ∧ _ => apply (IH _ m'); [apply He | exact Hm]
    end.
  - destruct (eaches m !! g); simpl in *; auto.
    match goal with
    | |- state (this (exec _ ?m').1) = _ ∧ _ => apply (IH _ m'); [apply He | exact Hm]
    end.
Qed.

Lemma tracked_answered (i : nat) (m : Machine) :
  tracked m → tracked (set_outstanding (<[i := None]> (outstanding m)) m).
Proof.
  intros Hm j o. cbn. intros Hj.
  destruct (decide (i = j)) as [->|Hne].
  - apply list_lookup_insert_Some in Hj as [(_ & [=] & _)|[? _]]; done.
  - rewrite list_lookup_insert_ne in Hj by done. by eapply Hm.
Qed.

(** How one operation or answer changes the state. *)
Lemma step_state_cases (X : Externals) (op : Op) (m : Machine) :
  tracked m →
  tracked (step X op m)
  ∧ (state (this (step X op m)) = state (this m)
     ∨ (∃ force, op = op_stop force ∧ state (this m) = STATE_STARTED
                 ∧ state (this (step X op m)) = STATE_CLOSED)
     ∨ (∃ i a b cb, op = op_reply i a b
                    ∧ outstanding m !! i = Some (Some (start_request cb))
                    ∧ truthy a = false
                    ∧ state (this (step X op m)) = STATE_STARTED)).
Proof.
  intros Hm.
  assert (Hinert : ∀ e, body X op = Some e → inert e →
            tracked (exec e m).1
            ∧ (state (this (exec e m).1) = state (this m)
               ∨ (∃ force, op = op_stop force ∧ state (this m) = STATE_STARTED
                           ∧ state (this (exec e m).1) = STATE_CLOSED)
               ∨ (∃ i a b cb, op = op_reply i a b
                              ∧ outstanding m !! i = Some (Some (start_request cb))
                              ∧ truthy a = false
                              ∧ state (this (exec e m).1) = STATE_STARTED))).
  { intros e _ He. destruct (exec_inert e m He Hm) as [S T]. split; [done|by left]. }
  destruct op;
    try (match goal with
         | |- tracked (step X ?o m) ∧ _ =>
             apply (Hinert _ eq_refl);
             apply (inert_body X o _ eq_refl); intros; discriminate
         end).
  - (* start *)
    cbn [step body]. unfold start. cbn [exec].
    destruct (STATE_INITED <? state (this m))%Z; cbn [exec fst].
    + split; [exact Hm|by left].
    + split; [|by left]. apply tracked_defer; [exact Hm|]. left. by exists cb.
  - (* stop *)
    cbn [step body]. unfold stop. cbn [exec].
    destruct (Z.eqb_spec (state (this m)) STATE_STARTED) as [E|E]; cbn [negb exec fst].
    + split; [exact Hm|]. right. left. by exists force.
    + split; [exact Hm|by left].
  - (* an answer *)
    cbn [step]. unfold reply.
    destruct (outstanding m !! i) as [[o|]|] eqn:Ei; [|by split; [|left]..].
    pose proof (tracked_answered i m Hm) as Hm'.
    destruct (Hm i o Ei) as [[cb ->]|Ho].
    + cbn [callback start_request]. unfold start_callback.
      destruct (truthy a) eqn:Ea; cbn [exec fst].
      * split; [exact Hm'|by left].
      * split; [exact Hm'|]. right. right. by exists i, a, b, cb.
    + destruct (exec_inert (callback o a b) _ (Ho a b) Hm') as [S T].
      split; [exact T|by left].
Qed.

Lemma tracked_run (X : Externals) (ops : list Op) (m : Machine) :
  tracked m → tracked (run X ops m).
Proof.
  revert m. induction ops as [|op ops IH]; intros m Hm; [done|].
  cbn [run foldl]. apply IH. by apply step_state_cases.
Qed.

Lemma reachable_tracked (X : Externals) (m : Machine) : reachable X m → tracked m.
Proof.
  intros (h & opts_ & ops & _ & ->). apply tracked_run.
  intros i o. unfold RpcClient_new. cbn. by rewrite lookup_nil.
Qed.

(** A property of the state that the three kinds of change keep. *)
Lemma run_state_invariant (X : Externals) (P : Z → Prop) (ops : list Op) (m : Machine) :
  P STATE_STARTED →
  P STATE_CLOSED →
  tracked m →
  P (state (this m)) →
  P (state (this (run X ops m))).
Proof.
  intros Hs Hc. revert m. induction ops as [|op ops IH]; intros m Hm HP; [done|].
  cbn [run foldl]. destruct (step_state_cases X op m Hm) as [T Hcases].
  apply IH; [exact T|].
  destruct Hcases as [->|[(f & _ & _ & ->)|(i & a & b & cb & _ & _ & _ & ->)]]; done.
Qed.

(** X16.  The state of a client changes in two ways only: stop moves a
    started client to CLOSED, and an answer without error to a request that
    start left with the station moves the client to STARTED.  No other
    operation (proxy registration, server changes, filters, rpcInvoke, proxy
    calls) and no other answer changes the state. *)
Theorem state_changes_only_by_stop_and_start_answer (X : Externals) (m : Machine) (op : Op) :
  reachable X m →
  state (this (step X op m)) = state (this m)
  ∨ (∃ force, op = op_stop force ∧ state (this m) = STATE_STARTED
              ∧ state (this (step X op m)) = STATE_CLOSED)
  ∨ (∃ i a b cb, op = op_reply i a b
                 ∧ outstanding m !! i = Some (Some (start_request cb))
                 ∧ truthy a = false
                 ∧ state (this (step X op m)) = STATE_STARTED).
Proof.
  intros Hr. exact (proj2 (step_state_cases X op m (reachable_tracked X m Hr))).
Qed.

Lemma state_changes_only_by_stop_and_start_answer_witness :
  reachable Sample.X Sample.started7
  ∧ (state (this (step Sample.X (op_stop false) Sample.started7))
     = state (this Sample.started7)
     ∨ (∃ force, op_stop false = op_stop force
                 ∧ state (this Sample.started7) = STATE_STARTED
                 ∧ state (this (step Sample.X (op_stop false) Sample.started7)) = STATE_CLOSED)
     ∨ (∃ i a b cb, op_stop false = op_reply i a b
                    ∧ outstanding Sample.started7 !! i = Some (Some (start_request cb))
                    ∧ truthy a = false
                    ∧ state (this (step Sample.X (op_stop false) Sample.started7))
                      = STATE_STARTED)).
Proof.
  split; [exact started7_reachable|].
  exact (state_changes_only_by_stop_and_start_answer Sample.X Sample.started7 (op_stop false)
           started7_reachable).
Defined.

(** X17.  The state of a client is always INITED, STARTED or CLOSED, and a
    client that has left INITED never is INITED again, whatever operations
    and answers follow. *)
Theorem state_never_inited_again (X : Externals) (m : Machine) :
  reachable X m →
  (state (this m) = STATE_INITED ∨ state (this m) = STATE_STARTED
   ∨ state (this m) = STATE_CLOSED)
  ∧ (state (this m) ≠ STATE_INITED →
     ∀ ops, state (this (run X ops m)) ≠ STATE_INITED).
Proof.
  intros Hr. split.
  - destruct Hr as (h & opts_ & ops & _ & ->).
    apply (run_state_invariant X
             (fun s => s = STATE_INITED ∨ s = STATE_STARTED ∨ s = STATE_CLOSED)); auto.
    intros i o. unfold RpcClient_new. cbn. by rewrite lookup_nil.
  - intros Hne ops.
    apply (run_state_invariant X (fun s => s ≠ STATE_INITED)); try done.
    by apply (reachable_tracked X).
Qed.

Lemma state_never_inited_again_witness :
  reachable Sample.X Sample.started7
  ∧ state (this Sample.started7) ≠ STATE_INITED
  ∧ state (this (run Sample.X [op_stop true; op_start Sample.cb2;
                                op_reply 1 JUndefined JUndefined] Sample.started7))
    ≠ STATE_INITED.
Proof.
  assert (H : state (this Sample.started7) ≠ STATE_INITED) by (intros E; discriminate E).
  split; [exact started7_reachable|]. split; [exact H|].
  exact (proj2 (state_never_inited_again Sample.X Sample.started7 started7_reachable) H
           [op_stop true; op_start Sample.cb2; op_reply 1 JUndefined JUndefined]).
Defined.

(** ** No dispatch unless started *)

Lemma guarded_bind (b : bool) (e : Eff) (f : jsval -> Eff) :
  guarded b e → (∀ v, guarded b (f v)) → guarded b (bind e f).
Proof.
  intros He Hf. eff_induction e; simpl in *; auto;
    try (destruct He as [H1 H2]; split; auto; fail).
  - destruct He as (H1 & H2 & H3). auto.
  - intros n. destruct (He n). auto.
Qed.

Lemma guarded_foreach {A : Type} (b : bool) (l : list A) (body : A -> Eff) :
  (∀ x, guarded b (body x)) → guarded b (foreach l body).
Proof.
  intros Hb. induction l as [|x l IH]; simpl; [done|]. apply guarded_bind; auto.
Qed.

Lemma guarded_rpcInvoke (b : bool) (serverId : jsval) (msg : RpcMsg)
    (cb : jsval -> jsval -> Eff) :
  (∀ x y, guarded true (cb x y) ∧ guarded false (cb x y)) →
  guarded b (rpcInvoke serverId msg cb).
Proof.
  intros Hcb. unfold rpcInvoke. cbn [guarded]. intros c Hc.
  assert (Hfail : guarded b
    (Logger lvl_error "[pinus-rpc] fail to do rpc invoke for client is not running" []
       (bind (cb (JError "[pinus-rpc] fail to do rpc invoke for client is not running")
                 JUndefined) (fun _ => done_)))).
  { cbn [guarded]. apply guarded_bind; [|done]. destruct b; apply Hcb. }
  destruct (Z.eqb_spec (state c) STATE_STARTED) as [E|E]; cbn [negb].
  - assert (b = false) as -> by (destruct b; [by destruct (Hc eq_refl)|done]).
    destruct (truthy (rpcDebugLog c)); cbn [guarded]; [intros o|]; auto.
  - destruct (truthy (rpcDebugLog c)); cbn [guarded]; [intros o|]; auto.
Qed.

Lemma guarded_once_callback (b : bool) (g : nat) (callback_ : jsval -> Eff) (err : jsval) :
  guarded b (callback_ err) → guarded b (once_callback g callback_ err).
Proof. intros H [|]; simpl; auto. Qed.

Lemma guarded_async_each {A : Type} (b : bool) (coll : list A)
    (iteratee : A -> (jsval -> Eff) -> Eff) (callback_ : jsval -> Eff) :
  (∀ x next, (∀ err, guarded true (next err) ∧ guarded false (next err)) →
             guarded b (iteratee x next)) →
  (∀ err, guarded true (callback_ err) ∧ guarded false (callback_ err)) →
  guarded b (async_each coll iteratee callback_).
Proof.
  intros Hit Hcb. unfold async_each. cbn [guarded]. intros g.
  assert (Honce : ∀ b' err, guarded b' (once_callback g callback_ err)).
  { intros b' err. apply guarded_once_callback. destruct b'; apply Hcb. }
  apply guarded_bind.
  - destruct (length coll =? 0); [apply Honce|done].
  - intros _. apply guarded_foreach. intros x. apply Hit. intros err.
    unfold iteratorCallback.
    destruct (truthy err); [split; apply Honce|].
    split; cbn [guarded]; intros n; destruct (n =? length coll); done || apply Honce.
Qed.

Lemma guarded_proxyCB (X : Externals) (b : bool) (serviceName methodName : string)
    (args_ : list jsval) (attach : RemoteServerCode) (isToSpecifiedServer : bool) :
  guarded b (proxyCB X serviceName methodName args_ attach isToSpecifiedServer).
Proof.
  unfold proxyCB. cbn [guarded]. intros c Hc.
  destruct (negb (state c =? STATE_STARTED)%Z); [done|].
  destruct (length args_ <? 2); [done|].
  cbn [guarded]. intros q. split; [|done].
  destruct isToSpecifiedServer.
  - unfold rpcToSpecifiedServer.
    destruct (negb (String.eqb (typeof (hd JUndefined args_)) "string")); [done|].
    destruct (strict_eq_str (hd JUndefined args_) "*");
      [|by apply guarded_rpcInvoke].
    cbn [guarded]. intros c' Hc'. destruct (_routeContext c') as [rc|]; [|done].
    destruct (getServersByType rc (rec_serverType attach)) as [servers_|]; [|done].
    apply guarded_async_each; [|done].
    intros x next Hnext. apply guarded_rpcInvoke. auto.
  - unfold getRouteTarget. cbn [guarded]. intros c' Hc'.
    assert (Hcb : ∀ b' x y, guarded b'
      (if truthy x then Resolve q x done_
       else rpcInvoke y
              {| namespace := rec_namespace attach; serverType := rec_serverType attach;
                 service := serviceName; method := methodName; args := tl args_ |}
              (fun err resp =>
                 if negb (is_nullish err) then Reject q err done_ else Resolve q resp done_))).
    { intros b' x y. destruct (truthy x); [done|]. apply guarded_rpcInvoke.
      intros x' y'. by destruct (negb (is_nullish x')). }
    destruct (truthy (routerType c')); cbn [guarded]; [auto|].
    destruct (String.eqb (typeof (router c')) "function"); cbn [guarded]; [auto|].
    destruct (String.eqb (typeof (get_prop (router c') "route")) "function");
      cbn [guarded]; auto.
Qed.

Lemma guarded_addProxy (X : Externals) (b : bool) (record : option RemoteServerCode) :
  guarded b (addProxy X record).
Proof.
  unfold addProxy. destruct record as [r|]; [|done]. cbn [guarded]. intros c _.
  by destruct (generateProxy X (Some r) (_context c)).
Qed.

(** Every operation but start is guarded. *)
Lemma guarded_body (X : Externals) (b : bool) (op : Op) (e : Eff) :
  body X op = Some e →
  (∀ cb, op ≠ op_start cb) →
  guarded b e.
Proof.
  destruct op; cbn [body]; intros [= <-] Hstart; try done.
  - by destruct (Hstart cb).
  - unfold stop. cbn [guarded]. intros c _.
    destruct (negb (state c =? STATE_STARTED)%Z); cbn [guarded]; [done|].
    split; [|done]. intros _. discriminate.
  - apply guarded_addProxy.
  - unfold addProxies. destruct records as [[|r rs]|]; try done.
    apply guarded_foreach. intros x. apply guarded_addProxy.
  - apply guarded_rpcInvoke. intros x y. done.
  - apply guarded_proxyCB.
Qed.

Lemma all_guarded_defer (a : Asked) (cb : jsval -> jsval -> Eff) (m : Machine) :
  all_guarded m →
  (∀ x y, guarded true (cb x y) ∧ guarded false (cb x y)) →
  all_guarded (defer a cb m).
Proof.
  intros Hm Hcb i o. unfold defer. simpl. intros Hi.
  apply lookup_app_Some in Hi as [Hi|[_ Hi]]; [by eapply Hm|].
  apply list_lookup_singleton_Some in Hi as [_ [= <-]]. right. exact Hcb.
Qed.

Lemma all_guarded_settle (p : nat) (s : PromiseState) (m : Machine) :
  all_guarded m → all_guarded (settle p s m).
Proof. intros Hm i o. rewrite outstanding_settle. apply Hm. Qed.

Lemma dispatches_settle (p : nat) (s : PromiseState) (m : Machine) :
  dispatches (settle p s m) = dispatches m.
Proof. unfold settle. by destruct (promises m !! p) as [[]|]. Qed.

Lemma exec_guarded (e : Eff) (b : bool) (m : Machine) :
  guarded b e →
  (b = true → state (this m) ≠ STATE_STARTED) →
  all_guarded m →
  all_guarded (exec e m).1
  ∧ (b = true →
     dispatches (exec e m).1 = dispatches m ∧ state (this (exec e m).1) ≠ STATE_STARTED).
Proof.
  revert b m.
  assert (Hemit : ∀ (k : Eff) ev b m,
            (∀ b m, guarded b k → (b = true → state (this m) ≠ STATE_STARTED) →
                    all_guarded m →
                    all_guarded (exec k m).1
                    ∧ (b = true → dispatches (exec k m).1 = dispatches m
                                  ∧ state (this (exec k m).1) ≠ STATE_STARTED)) →
            is_dispatch ev = None →
            guarded b k → (b = true → state (this m) ≠ STATE_STARTED) → all_guarded m →
            all_guarded (exec k (emit ev m)).1
            ∧ (b = true → dispatches (exec k (emit ev m)).1 = dispatches m
                          ∧ state (this (exec k (emit ev m)).1) ≠ STATE_STARTED)).
  { intros k ev b m IH Hev Hk Hst Hm.
    destruct (IH b (emit ev m) Hk Hst Hm) as [G D]. split; [exact G|].
    intros Hb. destruct (D Hb) as [D1 D2]. split; [|exact D2].
    rewrite D1, dispatches_emit, Hev. apply app_nil_r. }
  eff_induction e; intros b m He Hst Hm; simpl in He; cbn [exec];
    try (apply Hemit; [exact IH | reflexivity | exact He | exact Hst | exact Hm]; fail).
  - (* Ret *) split; [done|auto].
  - (* Throw *) split; [done|auto].
  - (* GetThis *) apply IH; auto.
  - (* SetState *) destruct He as [Hs Hk].
    assert (R := IH b (set_state s m) Hk Hs Hm). exact R.
  - (* SetProxies *) assert (R := IH b (set_proxies ps m) He Hst Hm). exact R.
  - (* GetOpts *) destruct (heap m !! l); [apply IH; auto|]. split; [done|]. auto.
  - (* StationStart *) done.
  - (* StationDispatch *)
    destruct He as (-> & Hcb & Hk).
    destruct (IH false (defer (AskDispatch sid msg) cb
                          (emit (EvStationDispatch t sid msg o) m)) Hk) as [G _];
      [done|by apply all_guarded_defer|].
    split; [exact G|done].
  - (* RouterCall *)
    destruct He as [Hcb Hk].
    destruct (IH b (defer AskRoute cb (emit (EvRouterCall r st msg) m)) Hk Hst) as [G D];
      [by apply all_guarded_defer|].
    split; [exact G|]. intros Hb. destruct (D Hb) as [D1 D2]. split; [|exact D2].
    rewrite D1. change (dispatches (emit (EvRouterCall r st msg) m) = dispatches m).
    rewrite dispatches_emit. apply app_nil_r.
  - (* RouteCall *)
    destruct He as [Hcb Hk].
    destruct (IH b (defer AskRoute cb (emit (EvRouteCall r t rp msg) m)) Hk Hst) as [G D];
      [by apply all_guarded_defer|].
    split; [exact G|]. intros Hb. destruct (D Hb) as [D1 D2]. split; [|exact D2].
    rewrite D1. change (dispatches (emit (EvRouteCall r t rp msg) m) = dispatches m).
    rewrite dispatches_emit. apply app_nil_r.
  - (* NewPromise *)
    set (n := length (promises m)) in *.
    destruct (He n) as [Hex Hk].
    destruct (IHex n b (set_promises (promises m ++ [Pending]) m) Hex Hst Hm) as [G1 D1].
    destruct (exec (ex n) _) as [m1 c]. cbn [fst] in G1, D1.
    set (m2 := match c with Normal _ => m1 | Abrupt x => settle n (Rejected x) m1 end).
    assert (G2 : all_guarded m2) by (unfold m2; destruct c; [done|by apply all_guarded_settle]).
    assert (E2 : dispatches m2 = dispatches m1 ∧ state (this m2) = state (this m1)).
    { unfold m2. destruct c; [done|]. by rewrite dispatches_settle, state_settle. }
    destruct E2 as [Ed Es].
    destruct (IH n b m2 Hk) as [G3 D3]; [|exact G2|].
    { intros Hb. rewrite Es. by apply D1. }
    split; [exact G3|]. intros Hb. destruct (D3 Hb) as [D31 D32], (D1 Hb) as [D11 D12].
    split; [|exact D32]. by rewrite D31, Ed, D11.
  - (* Resolve *)
    destruct (IH b (settle q (Fulfilled v) m) He) as [G D];
      [by rewrite state_settle|by apply all_guarded_settle|].
    split; [exact G|]. intros Hb. destruct (D Hb) as [D1 D2]. split; [|exact D2].
    by rewrite D1, dispatches_settle.
  - (* Reject *)
    destruct (IH b (settle q (Rejected v) m) He) as [G D];
      [by rewrite state_settle|by apply all_guarded_settle|].
    split; [exact G|]. intros Hb. destruct (D Hb) as [D1 D2]. split; [|exact D2].
    by rewrite D1, dispatches_settle.
  - (* PromiseReject *)
    match goal with |- context [exec (k ?a) ?m'] =>
      assert (R := IH a b m' (He _) Hst Hm); exact R end.
  - (* EachNew *)
    match goal with |- context [exec (k ?a) ?m'] =>
      assert (R := IH a b m' (He _) Hst Hm); exact R end.
  - (* EachCompleted *)
    destruct (eaches m !! g) as [st|]; [|split; [done|auto]].
    match goal with |- context [exec (k ?a) ?m'] =>
      assert (R := IH a b m' (He _) Hst Hm); exact R end.
  - (* EachOnce *)
    destruct (eaches m !! g) as [st|]; [|split; [done|auto]].
    match goal with |- context [exec (k ?a) ?m'] =>
      assert (R := IH a b m' (He _) Hst Hm); exact R end.
Qed.

Lemma all_guarded_answered (i : nat) (m : Machine) :
  all_guarded m → all_guarded (set_outstanding (<[i := None]> (outstanding m)) m).
Proof.
  intros Hm j o. cbn. intros Hj.
  destruct (decide (i = j)) as [->|Hne].
  - apply list_lookup_insert_Some in Hj as [(_ & [=] & _)|[? _]]; done.
  - rewrite list_lookup_insert_ne in Hj by done. by eapply Hm.
Qed.

(** One operation or answer keeps the outstanding callbacks guarded, and
    dispatches nothing on a client that is not started. *)
Lemma step_guarded (X : Externals) (op : Op) (m : Machine) :
  all_guarded m →
  all_guarded (step X op m)
  ∧ (state (this m) ≠ STATE_STARTED → dispatches (step X op m) = dispatches m).
Proof.
  intros Hm.
  assert (Hbody : ∀ e, body X op = Some e → (∀ cb, op ≠ op_start cb) →
            all_guarded (exec e m).1
            ∧ (state (this m) ≠ STATE_STARTED → dispatches (exec e m).1 = dispatches m)).
  { intros e He Hop. split.
    - apply (exec_guarded e false m); [by eapply guarded_body|done|exact Hm].
    - intros Hst.
      apply (exec_guarded e true m); [by eapply guarded_body|done|exact Hm|done]. }
  destruct op;
    try (match goal with
         | |- all_guarded (step X ?o m) ∧ _ =>
             apply (Hbody _ eq_refl); intros; discriminate
         end).
  - (* start *)
    cbn [step body]. unfold start. cbn [exec].
    destruct (STATE_INITED <? state (this m))%Z; cbn [exec fst].
    + split; [exact Hm|]. intros _.
      unfold dispatches. simpl. rewrite omap_app. apply app_nil_r.
    + split; [|intros _; unfold dispatches; simpl; rewrite omap_app; apply app_nil_r].
      intros i o. unfold defer. simpl. intros Hi.
      apply lookup_app_Some in Hi as [Hi|[_ Hi]]; [by eapply Hm|].
      apply list_lookup_singleton_Some in Hi as [_ [= <-]]. left. by exists cb.
  - (* an answer *)
    cbn [step]. unfold reply.
    destruct (outstanding m !! i) as [[o|]|] eqn:Ei; [|by split..].
    pose proof (all_guarded_answered i m Hm) as Hm'.
    destruct (Hm i o Ei) as [[cb ->]|Ho].
    + cbn [callback start_request]. unfold start_callback.
      destruct (truthy a) eqn:Ea; cbn [exec fst].
      * split; [exact Hm'|]. intros _.
        unfold dispatches. simpl. rewrite !omap_app. simpl. by rewrite !app_nil_r.
      * split; [exact Hm'|]. intros _.
        unfold dispatches. simpl. rewrite !omap_app. simpl. by rewrite !app_nil_r.
    + destruct (Ho a b) as [Ht Hf]. split.
      * apply (exec_guarded _ false); done.
      * intros Hst.
        exact (proj1 (proj2 (exec_guarded _ true
                               (set_outstanding (<[i := None]> (outstanding m)) m)
                               Ht (fun _ => Hst) Hm') eq_refl)).
Qed.

Lemma all_guarded_run (X : Externals) (ops : list Op) (m : Machine) :
  all_guarded m → all_guarded (run X ops m).
Proof.
  revert m. induction ops as [|op ops IH]; intros m Hm; [done|].
  cbn [run foldl]. apply IH. by apply step_guarded.
Qed.

Lemma all_guarded_new (h : gmap loc RpcClientOpts) (opts_ : option loc) :
  all_guarded (RpcClient_new h opts_).
Proof. intros i o. unfold RpcClient_new. cbn. by rewrite lookup_nil. Qed.

Lemma reachable_all_guarded (X : Externals) (m : Machine) : reachable X m → all_guarded m.
Proof.
  intros (h & opts_ & ops & _ & ->). apply all_guarded_run, all_guarded_new.
Qed.

Lemma run_snoc (X : Externals) (ops : list Op) (op : Op) (m : Machine) :
  run X (ops ++ [op]) m = step X op (run X ops m).
Proof. unfold run. by rewrite foldl_app. Qed.

(** X18.  A client that is not started hands nothing to the station's
    dispatch: whatever operation is called on it and whatever answer
    arrives, including the answer of a router that was asked before the
    client was stopped, the list of dispatched messages stays as it is. *)
Theorem no_dispatch_unless_started (X : Externals) (m : Machine) (op : Op) :
  reachable X m →
  state (this m) ≠ STATE_STARTED →
  dispatches (step X op m) = dispatches m.
Proof.
  intros Hr Hst. by apply step_guarded; [apply (reachable_all_guarded X)|].
Qed.

Lemma no_dispatch_unless_started_witness :
  reachable Sample.X Sample.client7
  ∧ state (this Sample.client7) ≠ STATE_STARTED
  ∧ dispatches (step Sample.X (op_rpcInvoke (JStr "chat-1") Sample.msg_add Sample.cb1)
                     Sample.client7)
    = dispatches Sample.client7.
Proof.
  split; [exact client7_reachable|]. split; [done|].
  apply (no_dispatch_unless_started Sample.X Sample.client7); [exact client7_reachable|done].
Defined.

(** X19.  A client whose state is still INITED has dispatched nothing,
    whatever operations it has been given and whatever answers, among them
    a failed start, it has seen. *)
Theorem inited_client_dispatched_nothing (X : Externals) (m : Machine) :
  reachable X m →
  state (this m) = STATE_INITED →
  dispatches m = [].
Proof.
  intros (h & opts_ & ops & Hh & ->).
  induction ops as [|op ops IH] using rev_ind; [done|].
  rewrite run_snoc. intros Hst.
  assert (Hr : reachable X (run X ops (RpcClient_new h opts_))) by (by exists h, opts_, ops).
  destruct (step_state_cases X op _ (reachable_tracked X _ Hr))
    as [_ [E|[(f & _ & _ & E)|(i & a & b & cb & _ & _ & _ & E)]]];
    rewrite E in Hst; try discriminate.
  rewrite (proj2 (step_guarded X op _ (reachable_all_guarded X _ Hr))).
  - by apply IH.
  - rewrite Hst. discriminate.
Qed.

Lemma inited_client_dispatched_nothing_witness :
  reachable Sample.X Scenario.busy_inited
  ∧ state (this Scenario.busy_inited) = STATE_INITED
  ∧ length (trace Scenario.busy_inited) = 7
  ∧ dispatches Scenario.busy_inited = [].
Proof.
  assert (Hr : reachable Sample.X Scenario.busy_inited)
    by apply (reachable_run Sample.X Scenario.busy_ops), client7_reachable.
  split; [exact Hr|]. split; [reflexivity|]. split; [vm_compute; reflexivity|].
  exact (inited_client_dispatched_nothing Sample.X Scenario.busy_inited Hr eq_refl).
Defined.
